(** * The stdio transport of mcptools (pkg/transport/stdio.go)

    A shallow embedding of the [Stdio] transport: the child process, its
    pipes and the tool's own standard error are an explicit [World] that
    every operation threads through; fallible operations return a
    [result].  The theorems at the end settle the claims C1 to C10 of the
    specification against this embedding. *)

From Stdlib Require Import ZArith List String Ascii Bool Lia DecimalString Sorted.
From stdpp Require Import base list.
Import ListNotations.

Local Set Warnings "-register-all".

Local Open Scope string_scope.
Local Open Scope Z_scope.

(** ** Go's [int]

    [int] is a 64-bit two's complement integer on the platforms the tool is
    released for; [t.nextID++] and [t.nextID - 1] wrap around. *)

Definition wrap64 (z : Z) : Z := (z + 2 ^ 63) mod 2 ^ 64 - 2 ^ 63.

Definition int64_ok (z : Z) : bool := (- 2 ^ 63 <=? z) && (z <? 2 ^ 63).

(** The identifier a read loop expects ([t.nextID - 1]) when it runs after
    [n] was handed out and the counter was stepped ([t.nextID++]). *)
Definition expected (n : Z) : Z := wrap64 (wrap64 (n + 1) - 1).

(** [%d] of an [int]. *)
Definition itoa (z : Z) : string := NilZero.string_of_int (Z.to_int z).

(** ** Strings *)

Definition LF : string := String "010"%char "".
Definition ESC : string := String "027"%char "".

(** [strings.Contains]. *)
Definition contains (s sub : string) : Prop :=
  exists before after, s = before ++ sub ++ after.

(** A string is the bytes of its UTF-8 encoding. *)

Definition lower_ascii (c : ascii) : ascii :=
  let n := nat_of_ascii c in
  if (Nat.leb 65 n && Nat.leb n 90)%bool then ascii_of_nat (n + 32) else c.

(** The folding under which [encoding/json] matches an object key against
    the name of a struct field when the two are not equal: the letters of
    ASCII lose their case, and the two other letters that Unicode folds
    onto letters of ASCII become these: U+017F, the long s (the bytes C5
    BF), becomes [s], and U+212A, the Kelvin sign (the bytes E2 84 AA),
    becomes [k].  Every other byte stays, so that a key with any other
    letter outside ASCII matches no field, the names of the fields being
    ASCII. *)
Fixpoint foldName (s : string) : string :=
  match s with
  | EmptyString => EmptyString
  | String c rest =>
      match rest with
      | EmptyString => String (lower_ascii c) EmptyString
      | String c1 rest1 =>
          if (Ascii.eqb c "197" && Ascii.eqb c1 "191")%bool
          then String "s" (foldName rest1)
          else
            match rest1 with
            | EmptyString => String (lower_ascii c) (foldName rest)
            | String c2 rest2 =>
                if (Ascii.eqb c "226" && Ascii.eqb c1 "132"
                    && Ascii.eqb c2 "170")%bool
                then String "k" (foldName rest2)
                else String (lower_ascii c) (foldName rest)
            end
      end
  end.

(** ** JSON values

    The syntax tree [encoding/json] scans out of one line.  Objects keep
    their members in the order written, duplicates included, since the
    decoder handles them one after the other. *)

Inductive json : Type :=
| JNull
| JBool (b : bool)
| JInt (z : Z)            (* a number literal with no fraction and no exponent *)
| JReal (m e : Z)         (* any other number literal: its value is m * 10^e *)
| JStr (s : string)
| JArr (items : list json)
| JObj (members : list (string * json)).

(** A Go [map[string]interface{}] decoded from an object: a lookup sees the
    last member written under the key. *)
Fixpoint obj_get (k : string) (members : list (string * json)) : option json :=
  match members with
  | [] => None
  | (k', v) :: rest =>
      match obj_get k rest with
      | Some v' => Some v'
      | None => if String.eqb k k' then Some v else None
      end
  end.

(** [v == nil] for a map lookup: the key is absent or holds JSON null. *)
Definition is_nil (v : option json) : bool :=
  match v with
  | None | Some JNull => true
  | Some _ => false
  end.

(** [s, _ := v.(string)]. *)
Definition as_string (v : option json) : string :=
  match v with
  | Some (JStr s) => s
  | _ => ""
  end.

(** *** Numbers into [interface{}]

    A number that is decoded into an [interface{}] becomes a [float64]:
    [strconv.ParseFloat] rounds the literal to the nearest one, and fails
    when that is an infinity, which is when the magnitude of the literal
    reaches the middle between the largest [float64], 2^1024 - 2^971, and
    2^1024.  A literal too small for a [float64] becomes zero, with no
    error. *)

Definition float64_bound : Z := 2 ^ 1024 - 2 ^ 970.

Definition float64_ok (m e : Z) : bool :=
  if 0 <=? e then Z.abs m * 10 ^ e <? float64_bound
  else Z.abs m <? float64_bound * 10 ^ (- e).

(** Whether every number of [v], at any depth, becomes a [float64]: the
    decoding of [v] into an [interface{}] returns an error otherwise. *)
Fixpoint converts (v : json) : bool :=
  match v with
  | JNull | JBool _ | JStr _ => true
  | JInt z => float64_ok z 0
  | JReal m e => float64_ok m e
  | JArr items => forallb converts items
  | JObj members =>
      forallb (fun member => match member with (_, x) => converts x end) members
  end.

(** In a value that went through this decoding a number stands for the
    [float64] that it became. *)

(** [json.Unmarshal(line, &msg)] with [msg map[string]interface{}]: an
    object fills the map, each member decoded into an [interface{}]; null
    leaves the map nil (an empty map to every lookup); anything else is a
    type error. *)
Definition decode_message (v : json) : option (list (string * json)) :=
  match v with
  | JObj members => if converts v then Some members else None
  | JNull => Some []
  | _ => None
  end.

(** ** Wire types

    Modelled from the spec: the declarations of [Request], [Response] and
    [Error] are outside src/; section 3 and section 6 of the spec give their
    fields and JSON names ([id] of a request is omitted when it is zero). *)

(** A Go [any] handed to [Execute] as [params]. *)
Inductive any : Type :=
| Nil
| Value (v : json)
| Unencodable (why : string).   (* [json.Marshal] refuses it, with this text *)

Module Request.
Record t : Type := mk {
  JSONRPC : string;
  Method : string;
  ID : Z;
  Params : any
}.
End Request.
Abbreviation Request := Request.t.

Record Error : Type := mkError {
  Message : string;
  Code : Z
}.

Module Response.
Record t : Type := mk {
  Result : option (list (string * json));
  Error : option Error;
  JSONRPC : string;
  ID : Z
}.
Definition zero : t := mk None None "" 0.
End Response.
Abbreviation Response := Response.t.

(** A request with the zero [ID] goes out with no [id] member. *)
Definition carries_id (r : Request) : bool := negb (Request.ID r =? 0).

(** *** Decoding a [Response]

    The decoder walks the members in order; a member whose key matches a
    field ([field_is]) is stored into it, others are skipped without being
    decoded (a number under a key that matches no field is not converted,
    and cannot fail).  JSON null
    leaves an [int] or a [string] as it is and sets a map or a pointer to
    nil.  A value of the wrong kind, or an integer outside [int], is a type
    error and makes the whole [Unmarshal] return an error. *)

Definition field_is (name key : string) : bool :=
  String.eqb (foldName key) name.

Definition decode_int (old : Z) (v : json) : option Z :=
  match v with
  | JNull => Some old
  | JInt z => if int64_ok z then Some z else None
  | _ => None
  end.

Definition decode_string (old : string) (v : json) : option string :=
  match v with
  | JNull => Some old
  | JStr s => Some s
  | _ => None
  end.

Fixpoint decode_error_members (members : list (string * json)) (e : Error)
  : option Error :=
  match members with
  | [] => Some e
  | (k, v) :: rest =>
      if field_is "message" k then
        match decode_string (Message e) v with
        | Some s => decode_error_members rest (mkError s (Code e))
        | None => None
        end
      else if field_is "code" k then
        match decode_int (Code e) v with
        | Some c => decode_error_members rest (mkError (Message e) c)
        | None => None
        end
      else decode_error_members rest e
  end.

(** Into [*Error]: an object is decoded into the pointee, allocated zero
    when the pointer is nil. *)
Definition decode_error (old : option Error) (v : json) : option (option Error) :=
  match v with
  | JNull => Some None
  | JObj members =>
      match decode_error_members members (default (mkError "" 0) old) with
      | Some e => Some (Some e)
      | None => None
      end
  | _ => None
  end.

(** Into [map[string]any]: an object adds its members to the map, each
    decoded into an [interface{}], so that a number which does not become a
    [float64] is an error. *)
Definition decode_result (old : option (list (string * json))) (v : json)
  : option (option (list (string * json))) :=
  match v with
  | JNull => Some None
  | JObj members =>
      if converts v then Some (Some (default [] old ++ members)%list) else None
  | _ => None
  end.

Fixpoint decode_response_members (members : list (string * json)) (r : Response)
  : option Response :=
  match members with
  | [] => Some r
  | (k, v) :: rest =>
      if field_is "result" k then
        match decode_result (Response.Result r) v with
        | Some x =>
            decode_response_members rest
              (Response.mk x (Response.Error r) (Response.JSONRPC r) (Response.ID r))
        | None => None
        end
      else if field_is "error" k then
        match decode_error (Response.Error r) v with
        | Some x =>
            decode_response_members rest
              (Response.mk (Response.Result r) x (Response.JSONRPC r) (Response.ID r))
        | None => None
        end
      else if field_is "jsonrpc" k then
        match decode_string (Response.JSONRPC r) v with
        | Some x =>
            decode_response_members rest
              (Response.mk (Response.Result r) (Response.Error r) x (Response.ID r))
        | None => None
        end
      else if field_is "id" k then
        match decode_int (Response.ID r) v with
        | Some x =>
            decode_response_members rest
              (Response.mk (Response.Result r) (Response.Error r) (Response.JSONRPC r) x)
        | None => None
        end
      else decode_response_members rest r
  end.

(** [json.Unmarshal(line, &response)] on a syntactically valid line. *)
Definition decode_response (v : json) : option Response :=
  match v with
  | JNull => Some Response.zero
  | JObj members => decode_response_members members Response.zero
  | _ => None
  end.

(** ** Errors

    One constructor for each [fmt.Errorf] of the file; [cause] is the text
    of the wrapped library error.  [error_text] is the [Error()] string. *)

Inductive error : Type :=
| ErrNoCommand
| ErrStdinPipe (cause : string)
| ErrStdoutPipe (cause : string)
| ErrStart (cause : string)
| ErrMarshal (cause : string)
| ErrWrite (cause : string)
| ErrFlush (cause : string)
| ErrRead (cause : string)
| ErrNoResponse
| ErrUnmarshalMessage (cause raw : string)
| ErrUnmarshalResponse (cause raw : string)
| ErrRPC (code : Z) (message : string)
| ErrCommand (cause : string)
| ErrInitRequest (e : error)
| ErrInitResponse (e : error)
| ErrInitNotification (e : error).

Fixpoint error_text (e : error) : string :=
  match e with
  | ErrNoCommand => "no command specified for stdio transport"
  | ErrStdinPipe c => "error getting stdin pipe: " ++ c
  | ErrStdoutPipe c => "error getting stdout pipe: " ++ c
  | ErrStart c => "error starting command: " ++ c
  | ErrMarshal c => "error marshaling request: " ++ c
  | ErrWrite c => "error writing bytes to stdin: " ++ c
  | ErrFlush c => "error flushing bytes to stdin: " ++ c
  | ErrRead c => "error reading from stdout: " ++ c
  | ErrNoResponse => "no response from command"
  | ErrUnmarshalMessage c raw =>
      "error unmarshaling message: " ++ c ++ ", response: " ++ raw
  | ErrUnmarshalResponse c raw =>
      "error unmarshaling response: " ++ c ++ ", response: " ++ raw
  | ErrRPC code message => "RPC error " ++ itoa code ++ ": " ++ message
  | ErrCommand c => "command error: " ++ c
  | ErrInitRequest e' => "init request failed: " ++ error_text e'
  | ErrInitResponse e' => "init response failed: " ++ error_text e'
  | ErrInitNotification e' => "init notification failed: " ++ error_text e'
  end.

(** A Go [(value, error)] pair. *)
Inductive result (A : Type) : Type :=
| Ok (a : A)
| Fail (e : error).
Arguments Ok {A} a.
Arguments Fail {A} e.

(** ** The child process

    A line that [ReadBytes] returns with a nil error: [body] followed by the
    newline.  [syntax] is what the scanner of [encoding/json] reads from it,
    [None] when the bytes are not valid JSON; [json_err] is the text of the
    error [json.Unmarshal] returns when a decoding of this line fails (its
    wording is the library's). *)

Record Line : Type := mkLine {
  body : string;
  syntax : option json;
  json_err : string
}.

Definition raw (l : Line) : string := body l ++ LF.

(** What the child writes: the lines one [Read] on its standard output
    returns, or bytes that land in the buffer behind its standard error. *)
Inductive emission : Type :=
| Out (chunk : list Line)
| Err (bytes : string).

Inductive write_outcome : Type :=
| Written
| WriteFails (why : string)
| FlushFails (why : string).

(** [cmd.Wait()] against the timer of one second, once stdin is closed. *)
Inductive exit_outcome : Type :=
| Exits (waitErr : option string)
| StillRunning.

(** A started command with its pipes: [output] is what it still writes,
    in order; a read past it fails with [stdout_end] ("EOF" when the child
    closed its end); [stdin_plan k] is how the write number [k] to its
    standard input ends; [stderrBuf] is the [bytes.Buffer] behind its
    standard error. *)
Record child : Type := mkChild {
  pid : nat;
  output : list emission;
  stdout_end : string;
  stdin_plan : nat -> write_outcome;
  writes : nat;
  exit_plan : exit_outcome;
  stderrBuf : string
}.

(** What the operating system makes of one [exec.Command]. *)
Inductive spawn_outcome : Type :=
| NoStdinPipe (why : string)
| NoStdoutPipe (why : string)
| NoStart (why : string)
| Starts (out : list emission) (out_end : string)
         (plan : nat -> write_outcome) (exit : exit_outcome).

(** The environment: the variable [MCP_DEBUG], what each attempt to start
    the command leads to, and how many attempts were made. *)
Record World : Type := mkWorld {
  env_debug : bool;
  launch : nat -> spawn_outcome;
  attempts : nat
}.

(** ** Observable events, oldest first *)

Inductive debug_msg : Type :=
| DbgExecuting (command : list string)
| DbgStartInit
| DbgInitFailed (e : error)
| DbgInitOK
| DbgCompleted (waitErr : option string)
| DbgTimedOut
| DbgPreparing (r : Request)
| DbgWrote
| DbgFlushed
| DbgRead (raw : string)
| DbgMatched (id : Z)
| DbgOther (id expected : Z).

Inductive event : Type :=
| Spawned (p : nat)
| Sent (p : nat) (r : Request)        (* written and flushed to the child's stdin *)
| Got (p : nat) (l : Line)            (* a line read from the child's stdout *)
| ReadFailed (p : nat)
| StdinClosed (p : nat)
| Waited (p : nat) (waitErr : option string) (buffered : string)
                                      (* [cmd.Wait()] returned [waitErr] within
                                         the second; [stderrBuf] then holds
                                         [buffered] *)
| Killed (p : nat)
| Text (s : string)                   (* written to [os.Stderr] *)
| Dbg (d : debug_msg).                (* a [DEBUG:] line on [os.Stderr] *)

(** ** Stateful code: the world is threaded, events are collected *)

Definition M (A : Type) : Type := World -> A * World * list event.

Definition ret {A} (a : A) : M A := fun w => (a, w, []).

Definition bind {A B} (m : M A) (f : A -> M B) : M B :=
  fun w =>
    let '(a, w1, tr1) := m w in
    let '(b, w2, tr2) := f a w1 in
    (b, w2, (tr1 ++ tr2)%list).

Definition emit (e : event) : M unit := fun w => (tt, w, [e]).

Notation "x <- m ;; k" := (bind m (fun x => k))
  (at level 100, m at next level, right associativity).
Notation "m ;;; k" := (bind m (fun _ => k))
  (at level 100, right associativity).

(** ** The transport *)

(** [stdin], [stdout] and [stderrBuf] of the Go struct are assigned together
    with [cmd] and only then: they are the pipes and the buffer of the
    [child] that [cmd] holds. *)
Record stdioProcess : Type := mkProcess {
  cmd : option child;
  isInitializeSent : bool
}.

Record Stdio : Type := mkStdio {
  process : option stdioProcess;   (* [nil] or a pointer to the kept session *)
  command : list string;
  nextID : Z;
  debug : bool;
  showServerLogs : bool
}.

Definition set_process (t : Stdio) (p : option stdioProcess) : Stdio :=
  mkStdio p (command t) (nextID t) (debug t) (showServerLogs t).

Definition set_nextID (t : Stdio) (n : Z) : Stdio :=
  mkStdio (process t) (command t) n (debug t) (showServerLogs t).

(** [Execute] works on [process := t.process] when that pointer is not nil,
    so what it does to [process] is done to the kept session; on a nil
    pointer it works on a struct of its own that is dropped at return. *)
Definition keep (t : Stdio) (p : stdioProcess) : Stdio :=
  match process t with
  | Some _ => set_process t (Some p)
  | None => t
  end.

Definition NewStdio (command : list string) : M Stdio :=
  fun w => (mkStdio None command 1 (env_debug w) false, w, []).

Definition SetCloseAfterExecute (t : Stdio) (v : bool) : Stdio :=
  if v then set_process t None
  else set_process t (Some (mkProcess None false)).

Definition SetShowServerLogs (t : Stdio) (v : bool) : Stdio :=
  mkStdio (process t) (command t) (nextID t) (debug t) v.

(** [if t.debug { fmt.Fprintf(os.Stderr, "DEBUG: ...") }]. *)
Definition debug_events (t : Stdio) (d : debug_msg) : list event :=
  if debug t then [Dbg d] else [].

Definition debugf (t : Stdio) (d : debug_msg) : M unit :=
  fun w => (tt, w, debug_events t d).

(** *** printStderr *)

(** [strings.SplitAfter(s, "\n")], with [cur] the piece being collected. *)
Fixpoint split_after_LF (s cur : string) : list string :=
  match s with
  | EmptyString => [cur]
  | String c rest =>
      if Ascii.eqb c "010"
      then (cur ++ String c "") :: split_after_LF rest ""
      else split_after_LF rest (cur ++ String c "")
  end.

(** [strings.TrimSuffix(line, "\n")]. *)
Fixpoint trim_LF (s : string) : string :=
  match s with
  | EmptyString => EmptyString
  | String c rest =>
      if Ascii.eqb c "010" && String.eqb rest "" then EmptyString
      else String c (trim_LF rest)
  end.

Definition server_log (buf : string) : list event :=
  flat_map
    (fun line =>
       let line := trim_LF line in
       if String.eqb line "" then [] else [Text ("[>] " ++ line ++ LF)])
    (split_after_LF buf "").

Definition set_stderrBuf (c : child) (buf : string) : child :=
  mkChild (pid c) (output c) (stdout_end c) (stdin_plan c) (writes c)
          (exit_plan c) buf.

(** The child after one more write to its standard input was tried. *)
Definition wrote (c : child) : child :=
  mkChild (pid c) (output c) (stdout_end c) (stdin_plan c) (S (writes c))
          (exit_plan c) (stderrBuf c).

(** The child after a read loop left [rest] unread and the buffer at [buf]. *)
Definition after_read (c : child) (rest : list emission) (buf : string) : child :=
  mkChild (pid c) rest (stdout_end c) (stdin_plan c) (writes c) (exit_plan c) buf.

Definition printStderr (t : Stdio) (c : child) : M child :=
  fun w =>
    if negb (showServerLogs t) then (c, w, [])
    else if String.eqb (stderrBuf c) "" then (c, w, [])
    else (set_stderrBuf c "", w, server_log (stderrBuf c)).

(** *** setupCommand *)

Definition setupCommand (t : Stdio) : M (result child) :=
  match command t with
  | [] => ret (Fail ErrNoCommand)
  | _ :: _ =>
      debugf t (DbgExecuting (command t)) ;;;
      fun w =>
        let n := attempts w in
        let w' := mkWorld (env_debug w) (launch w) (S n) in
        match launch w n with
        | NoStdinPipe why => (Fail (ErrStdinPipe why), w', [])
        | NoStdoutPipe why => (Fail (ErrStdoutPipe why), w', [])
        | NoStart why => (Fail (ErrStart why), w', [])
        | Starts out out_end plan exit =>
            (Ok (mkChild n out out_end plan 0 exit ""), w', [Spawned n])
        end
  end.

(** *** sendRequest *)

Definition sendRequest (t : Stdio) (c : child) (request : Request)
  : M (option error * child) :=
  match Request.Params request with
  | Unencodable why => ret (Some (ErrMarshal why), c)
  | _ =>
      debugf t (DbgPreparing request) ;;;
      let c' := wrote c in
      match stdin_plan c (writes c) with
      | WriteFails why => ret (Some (ErrWrite why), c')
      | FlushFails why =>
          debugf t DbgWrote ;;; ret (Some (ErrFlush why), c')
      | Written =>
          debugf t DbgWrote ;;;
          emit (Sent (pid c) request) ;;;
          debugf t DbgFlushed ;;;
          ret (None, c')
      end
  end.

(** *** readResponse *)

Definition is_some {A} (o : option A) : bool :=
  match o with
  | Some _ => true
  | None => false
  end.

Definition notification_text (level data : string) : string :=
  if String.eqb level "error" then
    ESC ++ "[31m[ERROR] " ++ data ++ ESC ++ "[0m" ++ LF
  else if String.eqb level "warning" then
    ESC ++ "[33m[WARNING] " ++ data ++ ESC ++ "[0m" ++ LF
  else if String.eqb level "alert" then
    ESC ++ "[35m[ALERT] " ++ data ++ ESC ++ "[0m" ++ LF
  else if String.eqb level "info" then
    ESC ++ "[36m[INFO] " ++ data ++ ESC ++ "[0m" ++ LF
  else
    ESC ++ "[37m[" ++ level ++ "] " ++ data ++ ESC ++ "[0m" ++ LF.

(** [hasMethod && msg["id"] == nil]. *)
Definition is_notification (msg : list (string * json)) : bool :=
  is_some (obj_get "method" msg) && is_nil (obj_get "id" msg).

(** What the loop prints for a notification. *)
Definition notification_events (msg : list (string * json)) (line : Line)
  : list event :=
  match obj_get "method" msg with
  | Some (JStr method) =>
      if String.eqb method "notifications/message" then
        match obj_get "params" msg with
        | Some (JObj paramsVal) =>
            [Text (notification_text (as_string (obj_get "level" paramsVal))
                                     (as_string (obj_get "data" paramsVal)))]
        | _ => []
        end
      else [Text ("[Notification] " ++ raw line ++ LF)]
  | _ => [Text ("[Notification] " ++ raw line ++ LF)]
  end.

(** One turn of the loop on a line just read: go on reading, or return. *)
Inductive step : Type :=
| Next
| Stop (r : result Response).

Definition handle_line (t : Stdio) (expectedID : Z) (line : Line)
  : step * list event :=
  let seen := debug_events t (DbgRead (raw line)) in
  if String.eqb (raw line) "" then (Stop (Fail ErrNoResponse), seen)
  else
    match syntax line with
    | None =>
        (Stop (Fail (ErrUnmarshalMessage (json_err line) (raw line))), seen)
    | Some v =>
        match decode_message v with
        | None =>
            (Stop (Fail (ErrUnmarshalMessage (json_err line) (raw line))), seen)
        | Some msg =>
            if is_notification msg then
              (Next, (seen ++ notification_events msg line)%list)
            else
              match decode_response v with
              | None =>
                  (Stop (Fail (ErrUnmarshalResponse (json_err line) (raw line))),
                   seen)
              | Some response =>
                  if (Response.ID response =? expectedID)
                     || is_some (Response.Error response)
                  then
                    match Response.Error response with
                    | Some e => (Stop (Fail (ErrRPC (Code e) (Message e))), seen)
                    | None =>
                        (Stop (Ok response),
                         (seen ++ debug_events t
                            (DbgMatched (Response.ID response)))%list)
                    end
                  else
                    (Next,
                     (seen ++ debug_events t
                        (DbgOther (Response.ID response) expectedID))%list)
              end
        end
    end.

(** The lines the [bufio.Reader] of this call holds: the loop goes through
    them until one makes it return.  The reader is local to the call, so
    lines it holds past that one are not seen by a later call. *)
Fixpoint read_chunk (t : Stdio) (expectedID : Z) (p : nat) (lines : list Line)
  : option (result Response) * list event :=
  match lines with
  | [] => (None, [])
  | line :: rest =>
      let '(s, ev) := handle_line t expectedID line in
      match s with
      | Stop r => (Some r, Got p line :: ev)
      | Next =>
          let '(r, ev') := read_chunk t expectedID p rest in
          (r, (Got p line :: ev ++ ev')%list)
      end
  end.

(** The loop over what the child writes: the reader refills from the pipe
    when it holds no full line; bytes for the standard error land in the
    buffer on the way.  Returns the answer, the output left unread and the
    grown buffer. *)
Fixpoint read_loop (t : Stdio) (expectedID : Z) (p : nat) (cause : string)
    (out : list emission) (buf : string)
  : result Response * list emission * string * list event :=
  match out with
  | [] => (Fail (ErrRead cause), [], buf, [ReadFailed p])
  | Err bytes :: rest => read_loop t expectedID p cause rest (buf ++ bytes)
  | Out chunk :: rest =>
      match read_chunk t expectedID p chunk with
      | (Some r, ev) => (r, rest, buf, ev)
      | (None, ev) =>
          let '(r, rest', buf', ev') := read_loop t expectedID p cause rest buf in
          (r, rest', buf', (ev ++ ev')%list)
      end
  end.

Definition readResponse (t : Stdio) (c : child) : M (result Response * child) :=
  fun w =>
    let expectedID := wrap64 (nextID t - 1) in
    let '(r, rest, buf, ev) :=
      read_loop t expectedID (pid c) (stdout_end c) (output c) (stderrBuf c) in
    ((r, after_read c rest buf), w, ev).

(** *** closeProcess *)

(** Everything the child still writes to its standard error. *)
Fixpoint late_stderr (out : list emission) : string :=
  match out with
  | [] => ""
  | Err bytes :: rest => bytes ++ late_stderr rest
  | Out _ :: rest => late_stderr rest
  end.

(** [process.stderrBuf] when [cmd.Wait()] has returned: [Wait] returns
    after the copying from the child's standard error is complete. *)
Definition stderr_at_exit (c : child) : string :=
  stderrBuf c ++ late_stderr (output c).

Definition closeProcess (t : Stdio) (c : child) : M (option error) :=
  match process t with
  | Some _ => ret None
  | None =>
      emit (StdinClosed (pid c)) ;;;
      match exit_plan c with
      | Exits waitErr =>
          emit (Waited (pid c) waitErr (stderr_at_exit c)) ;;;
          debugf t (DbgCompleted waitErr) ;;;
          match waitErr with
          | Some why =>
              if negb (String.eqb (stderr_at_exit c) "")
              then ret (Some (ErrCommand why))
              else ret None
          | None => ret None
          end
      | StillRunning =>
          debugf t DbgTimedOut ;;;
          emit (Killed (pid c)) ;;;
          ret None
      end
  end.

(** *** initialize *)

(** Modelled from the spec: the constant [protocolVersion] is declared
    outside src/; the spec calls it a fixed protocol version string.  No
    theorem below depends on its value. *)
Definition protocolVersion : string := "2024-11-05".

Definition initRequest (id : Z) : Request :=
  Request.mk "2.0" "initialize" id
    (Value (JObj [("capabilities", JObj []);
                  ("clientInfo",
                   JObj [("name", JStr "f/mcptools"); ("version", JStr "beta")]);
                  ("protocolVersion", JStr protocolVersion)])).

Definition initNotification : Request :=
  Request.mk "2.0" "notifications/initialized" 0 Nil.

Definition initialize (t : Stdio) (c : child) : M (option error * Stdio * child) :=
  let initRequestID := nextID t in
  let t := set_nextID t (wrap64 (nextID t + 1)) in
  x <- sendRequest t c (initRequest initRequestID) ;;
  let '(err, c) := x in
  match err with
  | Some err => ret (Some (ErrInitRequest err), t, c)
  | None =>
      x <- readResponse t c ;;
      let '(r, c) := x in
      match r with
      | Fail err => ret (Some (ErrInitResponse err), t, c)
      | Ok _ =>
          x <- sendRequest t c initNotification ;;
          let '(sendErr, c) := x in
          match sendErr with
          | Some sendErr => ret (Some (ErrInitNotification sendErr), t, c)
          | None => ret (None, t, c)
          end
      end
  end.

(** *** Execute

    [Execute] is written here in parts that follow one another in its body:
    [ensure_session], up to the message that the initialization was
    successful, with the handshake in [ensure_initialized], and [exchange],
    from the building of the request on. *)

(** The handshake, unless this session has been through it. *)
Definition ensure_initialized (t : Stdio) (c : child) (isInitializeSent : bool)
  : M (result child * Stdio) :=
  if isInitializeSent then
    debugf t DbgInitOK ;;;
    ret (Ok c, keep t (mkProcess (Some c) true))
  else
    y <- initialize t c ;;
    let '(initErr, t, c) := y in
    c <- printStderr t c ;;
    match initErr with
    | Some e =>
        debugf t (DbgInitFailed e) ;;;
        ret (Fail e, keep t (mkProcess (Some c) false))
    | None =>
        debugf t DbgInitOK ;;;
        ret (Ok c, keep t (mkProcess (Some c) true))
    end.

(** A session whose command runs and whose handshake is done, or the error
    that [Execute] returns. *)
Definition ensure_session (t : Stdio) : M (result child * Stdio) :=
  let process0 := default (mkProcess None false) (process t) in
  x <- match cmd process0 with
       | Some c => ret (Ok c)
       | None => setupCommand t
       end ;;
  match x with
  | Fail err => ret (Fail err, t)
  | Ok c =>
      debugf t DbgStartInit ;;;
      ensure_initialized t c (isInitializeSent process0)
  end.

(** The request, the read loop, and the end of the call. *)
Definition exchange (method : string) (params : any) (t : Stdio) (c : child)
  : M (result (option (list (string * json))) * Stdio) :=
  let request := Request.mk "2.0" method (nextID t) params in
  let t := set_nextID t (wrap64 (nextID t + 1)) in
  x <- sendRequest t c request ;;
  let '(sendErr, c) := x in
  match sendErr with
  | Some e => ret (Fail e, keep t (mkProcess (Some c) true))
  | None =>
      x <- readResponse t c ;;
      let '(r, c) := x in
      c <- printStderr t c ;;
      match r with
      | Fail e => ret (Fail e, keep t (mkProcess (Some c) true))
      | Ok response =>
          err <- closeProcess t c ;;
          match err with
          | Some e => ret (Fail e, keep t (mkProcess (Some c) true))
          | None =>
              ret (Ok (Response.Result response),
                   keep t (mkProcess (Some c) true))
          end
      end
  end.

Definition Execute (method : string) (params : any) (t : Stdio)
  : M (result (option (list (string * json))) * Stdio) :=
  x <- ensure_session t ;;
  match x with
  | (Fail e, t) => ret (Fail e, t)
  | (Ok c, t) => exchange method params t c
  end.

(** ** Programs over one transport *)

Inductive call : Type :=
| CallExecute (method : string) (params : any)
| CallSetCloseAfterExecute (v : bool)
| CallSetShowServerLogs (v : bool).

Definition outcome : Type := result (option (list (string * json))).

Fixpoint run (calls : list call) (t : Stdio) : M (list outcome * Stdio) :=
  match calls with
  | [] => ret ([], t)
  | CallExecute method params :: rest =>
      x <- Execute method params t ;;
      let '(o, t) := x in
      y <- run rest t ;;
      let '(os, t) := y in
      ret (o :: os, t)
  | CallSetCloseAfterExecute v :: rest => run rest (SetCloseAfterExecute t v)
  | CallSetShowServerLogs v :: rest => run rest (SetShowServerLogs t v)
  end.

(** ** Reading a trace *)

Definition sent_on (p : nat) (tr : list event) : list Request :=
  flat_map (fun e => match e with
                     | Sent q r => if Nat.eqb p q then [r] else []
                     | _ => []
                     end) tr.

Definition sent (tr : list event) : list Request :=
  flat_map (fun e => match e with Sent _ r => [r] | _ => [] end) tr.

Definition lines_got (tr : list event) : list Line :=
  flat_map (fun e => match e with Got _ l => [l] | _ => [] end) tr.

Definition texts (tr : list event) : list string :=
  flat_map (fun e => match e with Text s => [s] | _ => [] end) tr.

Definition spawned (tr : list event) : list nat :=
  flat_map (fun e => match e with Spawned p => [p] | _ => [] end) tr.

(** ** Example lines

    The text of a JSON value whose strings need no escaping, to write the
    lines of the examples with. *)

Definition DQ : string := String "034"%char "".

Fixpoint print_json (v : json) : string :=
  match v with
  | JNull => "null"
  | JBool true => "true"
  | JBool false => "false"
  | JInt z => itoa z
  | JReal m e => itoa m ++ "e" ++ itoa e
  | JStr s => DQ ++ s ++ DQ
  | JArr items =>
      "[" ++ (fix items_text (l : list json) : string :=
                match l with
                | [] => ""
                | x :: r =>
                    print_json x ++
                    match r with [] => "" | _ :: _ => "," ++ items_text r end
                end) items ++ "]"
  | JObj members =>
      "{" ++ (fix members_text (l : list (string * json)) : string :=
                match l with
                | [] => ""
                | (k, x) :: r =>
                    DQ ++ k ++ DQ ++ ":" ++ print_json x ++
                    match r with [] => "" | _ :: _ => "," ++ members_text r end
                end) members ++ "}"
  end.

Definition line_of (v : json) : Line := mkLine (print_json v) (Some v) "".

(** A line that is not JSON. *)
Definition junk (text why : string) : Line := mkLine text None why.

Definition reply (id : Z) (res : list (string * json)) : Line :=
  line_of (JObj [("jsonrpc", JStr "2.0"); ("id", JInt id); ("result", JObj res)]).

Definition error_reply (id code : Z) (message : string) : Line :=
  line_of (JObj [("jsonrpc", JStr "2.0"); ("id", JInt id);
                 ("error", JObj [("code", JInt code); ("message", JStr message)])]).

Definition log_line (level data : string) : Line :=
  line_of (JObj [("method", JStr "notifications/message");
                 ("params", JObj [("level", JStr level); ("data", JStr data)])]).

Definition always_written : nat -> write_outcome := fun _ => Written.

(** A world whose every start of the command gives the same child. *)
Definition world_of (out : list emission) (exit : exit_outcome) : World :=
  mkWorld false (fun _ => Starts out "EOF" always_written exit) 0.

(** ** What a line is, in the words of the specification *)

(** The generic decoding of a line, [None] when it fails. *)
Definition message_of (line : Line) : option (list (string * json)) :=
  match syntax line with
  | Some v => decode_message v
  | None => None
  end.

(** The strict decoding of a line as a [Response], [None] when it fails. *)
Definition response_of (line : Line) : option Response :=
  match syntax line with
  | Some v => decode_response v
  | None => None
  end.

(** A line with a [method] member and no [id]. *)
Definition notification (line : Line) : bool :=
  match message_of line with
  | Some msg => is_notification msg
  | None => false
  end.

(** A line that the generic decoding accepts and that is no notification:
    the loop goes on to decode it as a [Response]. *)
Definition plain (line : Line) : bool :=
  match message_of line with
  | Some msg => negb (is_notification msg)
  | None => false
  end.

(** The lines of a stream of emissions, whatever the reads they come in. *)
Fixpoint lines_of (out : list emission) : list Line :=
  match out with
  | [] => []
  | Out chunk :: rest => (chunk ++ lines_of rest)%list
  | Err _ :: rest => lines_of rest
  end.

(** The events of a read loop that went through [seen]. *)
Definition read_events (t : Stdio) (expectedID : Z) (p : nat) (seen : list Line)
  : list event :=
  flat_map (fun l => Got p l :: snd (handle_line t expectedID l)) seen.

(** A [notifications/message] line with an object for [params]: its level
    and its data. *)
Definition log_of (line : Line) : option (string * string) :=
  match message_of line with
  | Some msg =>
      if is_notification msg then
        match obj_get "method" msg, obj_get "params" msg with
        | Some (JStr method), Some (JObj paramsVal) =>
            if String.eqb method "notifications/message"
            then Some (as_string (obj_get "level" paramsVal),
                       as_string (obj_get "data" paramsVal))
            else None
        | _, _ => None
        end
      else None
  | None => None
  end.

(** What was done to the child, without what was printed. *)
Definition is_io (e : event) : bool :=
  match e with
  | Text _ | Dbg _ => false
  | _ => true
  end.

Definition io (tr : list event) : list event := List.filter is_io tr.

Definition is_ok {A} (r : result A) : bool :=
  match r with
  | Ok _ => true
  | Fail _ => false
  end.

(** What the loop makes of a line, by the two decodings of it. *)
Definition verdict (expectedID : Z) (line : Line) : step :=
  match message_of line with
  | None => Stop (Fail (ErrUnmarshalMessage (json_err line) (raw line)))
  | Some msg =>
      if is_notification msg then Next
      else
        match response_of line with
        | None => Stop (Fail (ErrUnmarshalResponse (json_err line) (raw line)))
        | Some r =>
            match Response.Error r with
            | Some e => Stop (Fail (ErrRPC (Code e) (Message e)))
            | None => if Response.ID r =? expectedID then Stop (Ok r) else Next
            end
        end
  end.

(** What the loop prints for a line, the [DEBUG:] lines apart. *)
Definition printed (line : Line) : list string :=
  match message_of line with
  | Some msg =>
      if is_notification msg then texts (notification_events msg line) else []
  | None => []
  end.

(** The loop passes over every line of [skipped]. *)
Definition passed (expectedID : Z) (skipped : list Line) : Prop :=
  Forall (fun l => verdict expectedID l = Next) skipped.

(** ** What a call leaves in the trace *)

(** The reads of one read loop that expects [id], and what it returns. *)
Inductive reading (id : Z) (p : nat) : list event -> result Response -> Prop :=
| reading_stop skipped line r :
    passed id skipped -> verdict id line = Stop r ->
    reading id p (map (Got p) (skipped ++ [line])) r
| reading_eof skipped cause :
    passed id skipped ->
    reading id p (map (Got p) skipped ++ [ReadFailed p]) (Fail (ErrRead cause)).

(** The errors of [sendRequest] and of [setupCommand]. *)
Definition send_error (e : error) : Prop :=
  match e with
  | ErrMarshal _ | ErrWrite _ | ErrFlush _ => True
  | _ => False
  end.

Definition spawn_error (e : error) : Prop :=
  match e with
  | ErrNoCommand | ErrStdinPipe _ | ErrStdoutPipe _ | ErrStart _ => True
  | _ => False
  end.

(** The handshake with identifier [n] on the child [p], and its error. *)
Inductive handshake (n : Z) (p : nat) : list event -> option error -> Prop :=
| hs_request_failed e :
    send_error e -> handshake n p [] (Some (ErrInitRequest e))
| hs_response_failed rd e :
    reading (expected n) p rd (Fail e) ->
    handshake n p (Sent p (initRequest n) :: rd) (Some (ErrInitResponse e))
| hs_notification_failed rd r e :
    reading (expected n) p rd (Ok r) -> send_error e ->
    handshake n p (Sent p (initRequest n) :: rd) (Some (ErrInitNotification e))
| hs_done rd r :
    reading (expected n) p rd (Ok r) ->
    handshake n p (Sent p (initRequest n) :: rd ++ [Sent p initNotification]) None.

(** Two states of one started command. *)
Definition same_command (c c' : child) : Prop :=
  pid c' = pid c /\ exit_plan c' = exit_plan c
  /\ stdin_plan c' = stdin_plan c /\ stdout_end c' = stdout_end c.

(** The world after one more attempt to start the command. *)
Definition bump (w : World) : World :=
  mkWorld (env_debug w) (launch w) (S (attempts w)).

(** How [ensure_session] comes by the child it works on: the kept session
    holds one, or the command is started. *)
Inductive session_start (t : Stdio) (w : World)
  : child -> World -> list event -> Prop :=
| start_kept pr c :
    process t = Some pr -> cmd pr = Some c -> session_start t w c w []
| start_spawn out out_end plan exit :
    cmd (default (mkProcess None false) (process t)) = None ->
    command t <> [] ->
    launch w (attempts w) = Starts out out_end plan exit ->
    session_start t w (mkChild (attempts w) out out_end plan 0 exit "")
                  (bump w) [Spawned (attempts w)].

(** The end of an exchange that read the response [r] from the child [c]:
    what [closeProcess] does and what [Execute] returns, [buf] being the
    buffer behind the standard error when [cmd.Wait()] returns. *)
Inductive ending (t : Stdio) (c : child) (r : Response) (buf : string)
  : list event -> outcome -> Prop :=
| ending_kept pr :
    process t = Some pr -> ending t c r buf [] (Ok (Response.Result r))
| ending_exit_ok :
    process t = None -> exit_plan c = Exits None ->
    ending t c r buf [StdinClosed (pid c); Waited (pid c) None buf]
           (Ok (Response.Result r))
| ending_exit_quiet why :
    process t = None -> exit_plan c = Exits (Some why) -> buf = "" ->
    ending t c r buf [StdinClosed (pid c); Waited (pid c) (Some why) buf]
           (Ok (Response.Result r))
| ending_exit_error why :
    process t = None -> exit_plan c = Exits (Some why) -> buf <> "" ->
    ending t c r buf [StdinClosed (pid c); Waited (pid c) (Some why) buf]
           (Fail (ErrCommand why))
| ending_timeout :
    process t = None -> exit_plan c = StillRunning ->
    ending t c r buf [StdinClosed (pid c); Killed (pid c)]
           (Ok (Response.Result r)).

(** ** Examples *)

(** A transport as [NewStdio] makes it, with [MCP_DEBUG] unset. *)
Definition fresh (command : list string) : Stdio :=
  mkStdio None command 1 false false.

(** The stub server of the specification: it answers [initialize] and then
    [ping]. *)
Definition echo_server : list emission :=
  [Out [reply 1 []]; Out [reply 2 [("pong", JBool true)]]].


(** No read of the trace failed. *)
Definition no_read_failure (l : list event) : Prop :=
  forall q, ~ In (ReadFailed q) l.

(** A server that answers the handshake and then writes a line that is not
    JSON. *)
Definition garbling_server : list emission :=
  [Out [reply 1 []]; Out [junk "Listening on stdio" "invalid character 'L' looking for beginning of value"]].

(** A server that answers the handshake and closes its standard output. *)
Definition silent_server : list emission := [Out [reply 1 []]].


(** A transport with a kept session that is live and initialized: the state
    after one call on a persistent session, and the world it leaves. *)
Definition after_first_call : outcome * Stdio * World * list event :=
  Execute "ping" Nil (SetCloseAfterExecute (fresh ["srv"]) false)
          (world_of echo_server (Exits None)).

Definition live_transport : Stdio := snd (fst (fst after_first_call)).

Definition live_world : World := snd (fst after_first_call).

(** The line makes a loop that expects [id] return. *)
Definition stops (id : Z) (line : Line) : bool :=
  match verdict id line with
  | Stop _ => true
  | Next => false
  end.

(** What the child writes after the read in which the loop finds the line
    it returns on: the output that a read loop expecting [id] leaves unread. *)
Fixpoint after_answer (id : Z) (out : list emission) : list emission :=
  match out with
  | [] => []
  | Err _ :: rest => after_answer id rest
  | Out chunk :: rest =>
      if existsb (stops id) chunk then rest else after_answer id rest
  end.

(** The events of a call before it closes the child. *)
Definition calm (l : list event) : Prop :=
  Forall (fun e => match e with
                   | Spawned _ | Sent _ _ | Got _ _ | ReadFailed _ => True
                   | _ => False
                   end) l.

Definition command_error (e : error) : Prop :=
  match e with
  | ErrCommand _ => True
  | _ => False
  end.

(** A server that writes to its standard error before it answers, and that
    exits with a failure once its standard input is closed. *)
Definition crashing_server : list emission :=
  [Out [reply 1 []]; Err ("warming up" ++ LF);
   Out [reply 2 [("pong", JBool true)]]].

Definition crashing_world : World :=
  world_of crashing_server (Exits (Some "exit status 1")).

(** The stub server in a world where it does not exit within the second. *)
Definition lingering_world : World := world_of echo_server StillRunning.

(** A notification whose method is [notifications/message]. *)
Definition log_notification (line : Line) : bool :=
  match message_of line with
  | Some msg =>
      is_notification msg
      && match obj_get "method" msg with
         | Some (JStr method) => String.eqb method "notifications/message"
         | _ => false
         end
  | None => false
  end.

(** What the read loop prints for a [notifications/message] line: the
    tagged line when [params] is an object, nothing otherwise. *)
Definition log_text (line : Line) : list string :=
  match log_of line with
  | Some (level, data) => [notification_text level data]
  | None => []
  end.

(** The tagging of section 4.3 of the specification, to compare
    [notification_text] with: the colour and the label of a level. *)
Definition severity_tag (level : string) : string * string :=
  if String.eqb level "error" then ("31", "ERROR")
  else if String.eqb level "warning" then ("33", "WARNING")
  else if String.eqb level "alert" then ("35", "ALERT")
  else if String.eqb level "info" then ("36", "INFO")
  else ("37", level).

(** The stub server of the specification that warns before it answers
    [ping]. *)
Definition warning_server : list emission :=
  [Out [reply 1 []];
   Out [log_line "warning" "slow disk"];
   Out [reply 2 [("pong", JBool true)]]].

(** A [notifications/message] line whose [params] is not an object. *)
Definition bare_log : Line :=
  line_of (JObj [("method", JStr "notifications/message");
                 ("params", JStr "disk almost full")]).

(** A server that sends two [notifications/message] lines before its answer,
    writes to its standard error, and exits with a failure. *)
Definition noisy_server : list emission :=
  [Out [reply 1 []];
   Out [bare_log; log_line "warning" "slow disk"];
   Err ("trace" ++ LF);
   Out [reply 2 [("pong", JBool true)]]].

Definition noisy_world : World :=
  world_of noisy_server (Exits (Some "exit status 1")).

(** The identifiers that went out on the wire, in order. *)
Definition sent_ids (tr : list event) : list Z :=
  map Request.ID (List.filter carries_id (sent tr)).

(** [n; n+1; ...], [k] of them. *)
Fixpoint count_from (n : Z) (k : nat) : list Z :=
  match k with
  | O => []
  | S k' => n :: count_from (n + 1) k'
  end.

(** The identifiers of the requests of the method [m] that went out. *)
Definition method_ids (m : string) (tr : list event) : list Z :=
  map Request.ID
      (List.filter (fun r => String.eqb (Request.Method r) m) (sent tr)).

(** A world where the command started for the attempt [n] answers the
    identifiers [2n+1] (the handshake) and [2n+2]. *)
Definition echo_world : World :=
  mkWorld false
    (fun n =>
       Starts [Out [reply (Z.of_nat (2 * n + 1)) []];
               Out [reply (Z.of_nat (2 * n + 2)) [("pong", JBool true)]]]
              "EOF" always_written (Exits None))
    0.

Definition two_pings : list call :=
  [CallExecute "ping" Nil; CallExecute "ping" Nil].

(** The requests that the calls [calls] (a method and its parameters each)
    make, numbered from [n]. *)
Fixpoint requests (n : Z) (calls : list (string * any)) : list Request :=
  match calls with
  | [] => []
  | c :: rest => Request.mk "2.0" (fst c) n (snd c) :: requests (n + 1) rest
  end.

(** One [Execute] for each of [calls]. *)
Definition executes (calls : list (string * any)) : list call :=
  map (fun c => CallExecute (fst c) (snd c)) calls.

(** A server that answers the handshake and two calls on one session. *)
Definition lasting_server : list emission :=
  [Out [reply 1 []]; Out [reply 2 [("pong", JBool true)]];
   Out [reply 3 [("pong", JBool true)]]].

Definition kept_transport : Stdio := SetCloseAfterExecute (fresh ["srv"]) false.

(** The events of [closeProcess]: the child's standard input is closed, its
    exit is waited for, it is killed. *)
Definition closes (e : event) : bool :=
  match e with
  | StdinClosed _ | Waited _ _ _ | Killed _ => true
  | _ => false
  end.

(** The errors of [initialize]. *)
Definition init_error (e : error) : Prop :=
  match e with
  | ErrInitRequest _ | ErrInitResponse _ | ErrInitNotification _ => True
  | _ => False
  end.

(** A server that refuses the first [initialize] and answers what comes
    after it. *)
Definition unready_server : list emission :=
  [Out [error_reply 1 (-32002) "not ready"]; Out [reply 2 []];
   Out [reply 3 [("pong", JBool true)]]].

(** Whether [s] holds a newline. *)
Fixpoint has_LF (s : string) : bool :=
  match s with
  | EmptyString => false
  | String c rest => Ascii.eqb c "010" || has_LF rest
  end.

(** The lines [ls], each followed by a newline. *)
Fixpoint joined (ls : list string) : string :=
  match ls with
  | [] => ""
  | l :: rest => l ++ LF ++ joined rest
  end.

(** What [printStderr] writes for the line [l]. *)
Definition log_event (l : string) : event := Text ("[>] " ++ l ++ LF).

Definition nonempty (l : string) : bool := negb (String.eqb l "").

(** ** Debugging

    The transport [t] with its field [debug] set to [b]. *)
Definition set_debug (t : Stdio) (b : bool) : Stdio :=
  mkStdio (process t) (command t) (nextID t) b (showServerLogs t).

(** A trace without its [DEBUG:] lines. *)
Definition undebugged (tr : list event) : list event :=
  List.filter (fun e => match e with Dbg _ => false | _ => true end) tr.

(** Two runs that end with the same world and the same events but the
    [DEBUG:] lines, the value of the first being [g] of the second's. *)
Definition agree {A} (g : A -> A) (x y : A * World * list event) : Prop :=
  fst (fst x) = g (fst (fst y)) /\ snd (fst x) = snd (fst y)
  /\ undebugged (snd x) = undebugged (snd y).

Definition same_but_debug {A} (g : A -> A) (m1 m2 : M A) : Prop :=
  forall w, agree g (m1 w) (m2 w).

Definition debug2 {A} (b : bool) (x : A * Stdio) : A * Stdio :=
  (fst x, set_debug (snd x) b).

Definition debug3 {A B} (b : bool) (x : A * Stdio * B) : A * Stdio * B :=
  (fst (fst x), set_debug (snd (fst x)) b, snd x).

(** A world where the command cannot be started. *)
Definition barren_world : World :=
  mkWorld false (fun _ => NoStart "exec: srv: executable file not found in $PATH") 0.

(** No [DEBUG:] line in the trace. *)
Definition no_debug_line (tr : list event) : Prop :=
  Forall (fun e => match e with Dbg _ => False | _ => True end) tr.

(** A computation that writes no [DEBUG:] line and whose value has [P]. *)
Definition silent {A} (P : A -> Prop) (m : M A) : Prop :=
  forall w, no_debug_line (snd (m w)) /\ P (fst (fst (m w))).

(** * The command [call] (cmd/mcptools/commands)

    The names of the flags and of the entity types are constants that the
    package declares outside src/: the functions below take them as the
    record [k], and the theorems hold whatever their values. *)

Record Names : Type := mkNames {
  FlagHelp : string;
  FlagHelpShort : string;
  FlagFormat : string;
  FlagFormatShort : string;
  FlagParams : string;
  FlagParamsShort : string;
  EntityTypeTool : string;
  EntityTypeRes : string;
  EntityTypePrompt : string
}.

(** The variables of the loop over [cmdArgs] in [CallCmd], with the two
    package variables that it assigns. *)
Record parsing : Type := mkParsing {
  FormatOption : string;
  ParamsString : string;
  entityName : string;
  entityExtracted : bool;
  parsedArgs : list string
}.

Definition set_FormatOption (s : parsing) (v : string) : parsing :=
  mkParsing v (ParamsString s) (entityName s) (entityExtracted s) (parsedArgs s).

Definition set_ParamsString (s : parsing) (v : string) : parsing :=
  mkParsing (FormatOption s) v (entityName s) (entityExtracted s) (parsedArgs s).

Definition set_entityName (s : parsing) (a : string) : parsing :=
  mkParsing (FormatOption s) (ParamsString s) a true (parsedArgs s).

Definition append_parsedArgs (s : parsing) (a : string) : parsing :=
  mkParsing (FormatOption s) (ParamsString s) (entityName s)
            (entityExtracted s) (parsedArgs s ++ [a]).

Definition is_format (k : Names) (a : string) : bool :=
  String.eqb a (FlagFormat k) || String.eqb a (FlagFormatShort k).

Definition is_params (k : Names) (a : string) : bool :=
  String.eqb a (FlagParams k) || String.eqb a (FlagParamsShort k).

Definition is_flag (k : Names) (a : string) : bool :=
  is_format k a || is_params k a.

(** [for i < len(cmdArgs) { switch ... }], on [args = cmdArgs[i:]]: the
    test [i+1 < len(cmdArgs)] is that a second element is there. *)
Fixpoint parse_loop (k : Names) (args : list string) (s : parsing) : parsing :=
  match args with
  | [] => s
  | a :: rest =>
      match rest with
      | v :: rest' =>
          if is_format k a then parse_loop k rest' (set_FormatOption s v)
          else if is_params k a then parse_loop k rest' (set_ParamsString s v)
          else if negb (entityExtracted s) then
                 parse_loop k rest (set_entityName s a)
          else parse_loop k rest (append_parsedArgs s a)
      | [] =>
          if negb (entityExtracted s) then
            parse_loop k rest (set_entityName s a)
          else parse_loop k rest (append_parsedArgs s a)
      end
  end.

(** The variables before the loop; [format] and [params] are what the two
    package variables hold then. *)
Definition before_loop (format params : string) : parsing :=
  mkParsing format params "" false [].

(** [strings.SplitN(s, ":", 2)] when it returns two parts. *)
Fixpoint split_colon (s : string) : option (string * string) :=
  match s with
  | EmptyString => None
  | String c rest =>
      if Ascii.eqb c ":" then Some (EmptyString, rest)
      else match split_colon rest with
           | Some (a, b) => Some (String c a, b)
           | None => None
           end
  end.

(** [entityType] and [entityName] after the split. *)
Definition entity_of (k : Names) (entityName : string) : string * string :=
  match split_colon entityName with
  | Some (entityType, name) => (entityType, name)
  | None => (EntityTypeTool k, entityName)
  end.

(** Whether [s] holds a colon. *)
Fixpoint has_colon (s : string) : bool :=
  match s with
  | EmptyString => false
  | String c rest => Ascii.eqb c ":" || has_colon rest
  end.

(** The arguments that the loop does not take for a flag and its value:
    the entity name, if any, and the command after it. *)
Definition positional (s : parsing) : list string :=
  ((if entityExtracted s then [entityName s] else []) ++ parsedArgs s)%list.

(** Of the elements of [l], only the last may be the name of a flag. *)
Definition flags_only_last (k : Names) (l : list string) : Prop :=
  forall pre x post,
    l = (pre ++ x :: post)%list -> post <> [] -> is_flag k x = false.

(** Names to run the examples with. *)
Definition example_names : Names :=
  mkNames "--help" "-h" "--format" "-f" "--params" "-p"
          "tool" "resource" "prompt".

(** The child that an event is about. *)
Definition pid_of (e : event) : option nat :=
  match e with
  | Spawned p | Sent p _ | Got p _ | ReadFailed p | StdinClosed p
  | Waited p _ _ | Killed p => Some p
  | Text _ | Dbg _ => None
  end.

(** Every event of [tr] that is about a child is about the child [p]. *)
Definition concerns_only (p : nat) (tr : list event) : Prop :=
  Forall (fun e => match pid_of e with Some q => q = p | None => True end) tr.

(** How the loop goes through the arguments: a piece is one argument that
    it keeps, or a flag with the argument that it takes for its value. *)
Inductive piece : Type :=
| Kept (a : string)
| Taken (flag value : string).

Definition piece_args (p : piece) : list string :=
  match p with
  | Kept a => [a]
  | Taken flag value => [flag; value]
  end.

Definition kept_of (pieces : list piece) : list string :=
  flat_map (fun p => match p with Kept a => [a] | Taken _ _ => [] end) pieces.

(** Every flag that has an argument behind it is taken with that argument:
    the name of a flag is kept only in the last place. *)
Fixpoint well_cut (k : Names) (pieces : list piece) : Prop :=
  match pieces with
  | [] => True
  | Kept a :: rest => (is_flag k a = false \/ rest = []) /\ well_cut k rest
  | Taken flag _ :: rest => is_flag k flag = true /\ well_cut k rest
  end.

(** The value taken with the last flag of one kind, [old] when no flag of
    that kind is taken. *)
Fixpoint last_value (kind : string -> bool) (pieces : list piece) (old : string)
  : string :=
  match pieces with
  | [] => old
  | Kept _ :: rest => last_value kind rest old
  | Taken flag value :: rest =>
      last_value kind rest (if kind flag then value else old)
  end.

(** A flag that sets [ParamsString]: the case of [--format] comes first in
    the [switch]. *)
Definition sets_params (k : Names) (a : string) : bool :=
  negb (is_format k a) && is_params k a.

(** A line with a number that does not become a [float64], under a key
    that the decoding as a Response skips. *)
Definition out_of_range_reply : Line :=
  line_of (JObj [("jsonrpc", JStr "2.0"); ("id", JInt 99);
                 ("result", JObj []); ("x", JReal 1 999)]).

(** The same with an error member. *)
Definition out_of_range_error : Line :=
  line_of (JObj [("jsonrpc", JStr "2.0"); ("id", JInt 99);
                 ("error", JObj [("code", JInt (-1)); ("message", JStr "x")]);
                 ("x", JReal 1 999)]).

(** A [notifications/message] line that holds such a number. *)
Definition out_of_range_log : Line :=
  line_of (JObj [("method", JStr "notifications/message");
                 ("params", JObj [("level", JStr "info");
                                  ("data", JStr "load"); ("n", JReal 1 999)])]).

Definition overflowing_server : list emission :=
  [Out [reply 1 []]; Out [out_of_range_log];
   Out [reply 2 [("pong", JBool true)]]].

(** The key [result] written with the long s, U+017F. *)
Definition long_s_result : string :=
  "re" ++ String "197" (String "191" "ult").

(** * Lemmas *)

(** ** Arithmetic of [int] *)

Lemma int64_ok_spec z : int64_ok z = true <-> - 2 ^ 63 <= z < 2 ^ 63.
Proof. unfold int64_ok. rewrite andb_true_iff, Z.leb_le, Z.ltb_lt. tauto. Qed.

Lemma wrap64_ok z : int64_ok (wrap64 z) = true.
Proof.
  apply int64_ok_spec. unfold wrap64.
  pose proof (Z.mod_pos_bound (z + 2 ^ 63) (2 ^ 64) ltac:(lia)). lia.
Qed.

Lemma wrap64_id z : - 2 ^ 63 <= z < 2 ^ 63 -> wrap64 z = z.
Proof. intros H. unfold wrap64. rewrite Z.mod_small; lia. Qed.

(** The identifier the read loop expects is the one just handed out, also
    when the counter wraps. *)
Lemma expected_is_sent n : int64_ok n = true -> expected n = n.
Proof.
  intros H. apply int64_ok_spec in H. unfold expected, wrap64.
  replace ((n + 1 + 2 ^ 63) mod 2 ^ 64 - 2 ^ 63 - 1 + 2 ^ 63)
    with ((n + 1 + 2 ^ 63) mod 2 ^ 64 - 1) by lia.
  rewrite Zminus_mod_idemp_l.
  replace (n + 1 + 2 ^ 63 - 1) with (n + 2 ^ 63) by lia.
  rewrite Z.mod_small; lia.
Qed.

(** ** Strings *)

Lemma append_nil_r (s : string) : s ++ "" = s.
Proof. induction s as [|c s IH]; simpl; [reflexivity | now rewrite IH]. Qed.

Lemma append_assoc (a b c : string) : (a ++ b) ++ c = a ++ b ++ c.
Proof. induction a as [|x a IH]; simpl; [reflexivity | now rewrite IH]. Qed.

Lemma raw_not_empty line : String.eqb (raw line) "" = false.
Proof.
  unfold raw. destruct (body line); reflexivity.
Qed.


Lemma contains_prefixed pre s sub : contains s sub -> contains (pre ++ s) sub.
Proof.
  intros (a & b & ->). exists (pre ++ a), b. now rewrite append_assoc.
Qed.

Lemma contains_suffixed s post sub : contains s sub -> contains (s ++ post) sub.
Proof.
  intros (a & b & ->). exists a, (b ++ post). now rewrite !append_assoc.
Qed.


(** ** Reading a trace *)

Lemma io_app a b : io (a ++ b) = (io a ++ io b)%list.
Proof. apply List.filter_app. Qed.

Lemma sent_app a b : sent (a ++ b) = (sent a ++ sent b)%list.
Proof. apply flat_map_app. Qed.

Lemma lines_got_app a b : lines_got (a ++ b) = (lines_got a ++ lines_got b)%list.
Proof. apply flat_map_app. Qed.

Lemma texts_app a b : texts (a ++ b) = (texts a ++ texts b)%list.
Proof. apply flat_map_app. Qed.

Lemma spawned_app a b : spawned (a ++ b) = (spawned a ++ spawned b)%list.
Proof. apply flat_map_app. Qed.

Lemma sent_io tr : sent tr = sent (io tr).
Proof.
  induction tr as [|e tr IH]; [reflexivity|].
  destruct e; cbn; first [exact IH | f_equal; exact IH].
Qed.

Lemma lines_got_io tr : lines_got tr = lines_got (io tr).
Proof.
  induction tr as [|e tr IH]; [reflexivity|].
  destruct e; cbn; first [exact IH | f_equal; exact IH].
Qed.

Lemma spawned_io tr : spawned tr = spawned (io tr).
Proof.
  induction tr as [|e tr IH]; [reflexivity|].
  destruct e; cbn; first [exact IH | f_equal; exact IH].
Qed.

Lemma io_debug t d : io (debug_events t d) = [].
Proof. unfold debug_events. now destruct (debug t). Qed.

Lemma texts_debug t d : texts (debug_events t d) = [].
Proof. unfold debug_events. now destruct (debug t). Qed.

Lemma io_server_log buf : io (server_log buf) = [].
Proof.
  unfold server_log. induction (split_after_LF buf "") as [|l ls IH].
  - reflexivity.
  - cbn [flat_map]. rewrite io_app, IH.
    now destruct (String.eqb (trim_LF l) "").
Qed.

Lemma io_cons e tr : io (e :: tr) = if is_io e then e :: io tr else io tr.
Proof. reflexivity. Qed.

Lemma texts_cons e tr :
  texts (e :: tr) = (match e with Text s => [s] | _ => [] end ++ texts tr)%list.
Proof. reflexivity. Qed.

Lemma io_nil : io [] = [].
Proof. reflexivity. Qed.

Lemma texts_nil : texts [] = [].
Proof. reflexivity. Qed.

Create Rewrite HintDb trace.
#[local] Hint Rewrite io_app texts_app io_debug texts_debug io_server_log
  io_cons texts_cons io_nil texts_nil app_nil_r : trace.

(** Projections of a trace built from known pieces. *)
Ltac trace_simpl :=
  cbn [fst snd]; autorewrite with trace; cbn [app is_io]; try reflexivity.

(** ** The loop body *)

Lemma io_notification_events msg line : io (notification_events msg line) = [].
Proof.
  unfold notification_events.
  destruct (obj_get "method" msg) as [[]|]; try reflexivity.
  destruct (String.eqb s "notifications/message"); try reflexivity.
  destruct (obj_get "params" msg) as [[]|]; reflexivity.
Qed.

Lemma handle_line_verdict t id line :
  fst (handle_line t id line) = verdict id line.
Proof.
  unfold handle_line, verdict, message_of, response_of.
  rewrite raw_not_empty.
  destruct (syntax line) as [v|]; [|reflexivity].
  destruct (decode_message v) as [msg|]; [|reflexivity].
  destruct (is_notification msg); [reflexivity|].
  destruct (decode_response v) as [r|]; [|reflexivity].
  destruct (Response.Error r) as [e|]; simpl.
  - now rewrite orb_true_r.
  - rewrite orb_false_r. now destruct (Response.ID r =? id).
Qed.

Lemma handle_line_texts t id line :
  texts (snd (handle_line t id line)) = printed line.
Proof.
  unfold handle_line, printed, message_of.
  rewrite raw_not_empty.
  destruct (syntax line) as [v|]; [|trace_simpl].
  destruct (decode_message v) as [msg|]; [|trace_simpl].
  destruct (is_notification msg); [trace_simpl|].
  destruct (decode_response v) as [r|]; [|trace_simpl].
  destruct ((Response.ID r =? id) || is_some (Response.Error r)); [|trace_simpl].
  destruct (Response.Error r); trace_simpl.
Qed.

Lemma handle_line_io t id line : io (snd (handle_line t id line)) = [].
Proof.
  unfold handle_line.
  rewrite raw_not_empty.
  destruct (syntax line) as [v|]; [|trace_simpl].
  destruct (decode_message v) as [msg|]; [|trace_simpl].
  destruct (is_notification msg).
  - trace_simpl. apply io_notification_events.
  - destruct (decode_response v) as [r|]; [|trace_simpl].
    destruct ((Response.ID r =? id) || is_some (Response.Error r));
      [|trace_simpl].
    destruct (Response.Error r); trace_simpl.
Qed.

Lemma read_events_app t id p a b :
  read_events t id p (a ++ b) = (read_events t id p a ++ read_events t id p b)%list.
Proof. apply flat_map_app. Qed.

Lemma io_read_events t id p seen :
  io (read_events t id p seen) = map (Got p) seen.
Proof.
  induction seen as [|l ls IH]; [reflexivity|].
  change (read_events t id p (l :: ls))
    with (([Got p l] ++ snd (handle_line t id l)) ++ read_events t id p ls)%list.
  rewrite !io_app, handle_line_io, IH. reflexivity.
Qed.

Lemma texts_read_events t id p seen :
  texts (read_events t id p seen) = flat_map printed seen.
Proof.
  induction seen as [|l ls IH]; [reflexivity|].
  change (read_events t id p (l :: ls))
    with (([Got p l] ++ snd (handle_line t id l)) ++ read_events t id p ls)%list.
  rewrite !texts_app, handle_line_texts, IH. reflexivity.
Qed.

Lemma lines_got_map_Got p seen : lines_got (map (Got p) seen) = seen.
Proof. induction seen as [|l ls IH]; cbn; [|f_equal; exact IH]; reflexivity. Qed.

Lemma sent_map_Got p seen : sent (map (Got p) seen) = [].
Proof. induction seen as [|l ls IH]; cbn; auto. Qed.

Lemma spawned_map_Got p seen : spawned (map (Got p) seen) = [].
Proof. induction seen as [|l ls IH]; cbn; auto. Qed.

#[local] Hint Rewrite io_read_events texts_read_events lines_got_map_Got
  sent_map_Got spawned_map_Got : trace.

(** ** The read loop *)

Lemma read_chunk_spec t id p lines o ev :
  read_chunk t id p lines = (o, ev) ->
  match o with
  | Some r =>
      exists skipped line rest,
        lines = (skipped ++ line :: rest)%list /\ passed id skipped
        /\ verdict id line = Stop r
        /\ ev = read_events t id p (skipped ++ [line])
  | None => passed id lines /\ ev = read_events t id p lines
  end.
Proof.
  revert o ev. induction lines as [|l ls IH]; intros o ev H.
  - inversion H; subst. split; [constructor | reflexivity].
  - cbn [read_chunk] in H.
    pose proof (handle_line_verdict t id l) as V.
    destruct (handle_line t id l) as [s e] eqn:E. cbn [fst] in V.
    destruct s as [|r].
    + destruct (read_chunk t id p ls) as [o' ev'] eqn:R.
      inversion H; subst o ev; clear H.
      specialize (IH _ _ eq_refl).
      destruct o' as [r|].
      * destruct IH as (sk & line & rest & -> & Hp & Hv & ->).
        exists (l :: sk), line, rest. repeat split; auto.
        -- constructor; auto.
        -- unfold read_events. cbn [app flat_map]. now rewrite E.
      * destruct IH as (Hp & ->). split.
        -- constructor; auto.
        -- unfold read_events. cbn [flat_map]. now rewrite E.
    + inversion H; subst o ev; clear H.
      exists [], l, ls. repeat split; auto.
      * constructor.
      * unfold read_events. cbn [app flat_map]. rewrite E. cbn [snd].
        now rewrite app_nil_r.
Qed.

Lemma passed_app id a b : passed id a -> passed id b -> passed id (a ++ b).
Proof. unfold passed. intros. apply Forall_app. now split. Qed.

Lemma read_loop_spec t id p cause out buf r rest buf' ev :
  read_loop t id p cause out buf = (r, rest, buf', ev) ->
  (exists skipped line more,
      lines_of out = (skipped ++ line :: more)%list /\ passed id skipped
      /\ verdict id line = Stop r
      /\ ev = read_events t id p (skipped ++ [line])
      /\ buf' ++ late_stderr rest = buf ++ late_stderr out)
  \/ (passed id (lines_of out) /\ r = Fail (ErrRead cause)
      /\ ev = (read_events t id p (lines_of out) ++ [ReadFailed p])%list
      /\ rest = [] /\ buf' = buf ++ late_stderr out).
Proof.
  revert buf r rest buf' ev.
  induction out as [|[chunk|bytes] tl IH]; intros buf r rest buf' ev H.
  - injection H as Hr Hrest Hbuf Hev. subst r rest buf' ev.
    right. repeat split; try constructor.
    cbn. now rewrite append_nil_r.
  - cbn [read_loop] in H.
    destruct (read_chunk t id p chunk) as [o e] eqn:C.
    apply read_chunk_spec in C. destruct o as [r0|].
    + injection H as Hr Hrest Hbuf Hev. subst r0 rest buf' ev.
      destruct C as (sk & line & rs & -> & Hp & Hv & ->).
      left. exists sk, line, (rs ++ lines_of tl)%list. repeat split; auto.
      cbn [lines_of]. now rewrite <- app_assoc.
    + destruct C as (Hp & ->).
      destruct (read_loop t id p cause tl buf) as [[[r1 rest1] buf1] ev1] eqn:L.
      injection H as Hr Hrest Hbuf Hev. subst r1 rest1 buf1 ev.
      destruct (IH _ _ _ _ _ L) as
        [(sk & line & more & E & Hp' & Hv & -> & Hb)
        |(Hp' & -> & -> & -> & ->)].
      * left. exists (chunk ++ sk)%list, line, more. repeat split; auto.
        -- cbn [lines_of]. rewrite E. now rewrite app_assoc.
        -- now apply passed_app.
        -- now rewrite <- app_assoc, (read_events_app _ _ _ chunk).
      * right. repeat split; auto.
        -- cbn [lines_of]. now apply passed_app.
        -- cbn [lines_of]. now rewrite read_events_app, app_assoc.
  - cbn [read_loop] in H.
    destruct (IH _ _ _ _ _ H) as
      [(sk & line & more & E & Hp' & Hv & -> & Hb)
      |(Hp' & -> & -> & -> & ->)].
    + left. exists sk, line, more. repeat split; auto.
      cbn [late_stderr]. now rewrite Hb, append_assoc.
    + right. repeat split; auto. cbn [late_stderr]. now rewrite append_assoc.
Qed.

(** The first line that stops the loop is determined by the stream. *)
Lemma first_stop_unique id (sk sk' : list Line) line line' more more' r r' :
  (sk ++ line :: more)%list = (sk' ++ line' :: more')%list ->
  passed id sk -> passed id sk' ->
  verdict id line = Stop r -> verdict id line' = Stop r' ->
  sk = sk' /\ line = line' /\ more = more'.
Proof.
  revert sk'. induction sk as [|a sk IH]; intros [|a' sk'] E P P' V V'.
  - inversion E. auto.
  - inversion E; subst. inversion P'; subst. congruence.
  - inversion E; subst. inversion P; subst. congruence.
  - inversion E; subst. inversion P; inversion P'; subst.
    destruct (IH sk' H1) as (-> & -> & ->); auto.
Qed.

Lemma passed_no_stop id (sk : list Line) line more r :
  passed id (sk ++ line :: more) -> verdict id line = Stop r -> False.
Proof.
  intros P V. apply Forall_app in P as [_ P]. inversion P; subst. congruence.
Qed.

(** The read loop on a stream with a line that stops it. *)
Lemma read_loop_stops t id p cause out buf skipped line more r :
  lines_of out = (skipped ++ line :: more)%list ->
  passed id skipped -> verdict id line = Stop r ->
  exists rest buf',
    read_loop t id p cause out buf
    = (r, rest, buf', read_events t id p (skipped ++ [line]))
    /\ buf' ++ late_stderr rest = buf ++ late_stderr out.
Proof.
  intros E P V.
  destruct (read_loop t id p cause out buf) as [[[r1 rest1] buf1] ev1] eqn:L.
  destruct (read_loop_spec _ _ _ _ _ _ _ _ _ _ L) as
    [(sk & l & m & E' & P' & V' & -> & Hb)|(P' & _)].
  - rewrite E in E'.
    destruct (first_stop_unique _ _ _ _ _ _ _ _ _ E' P P' V V') as (-> & -> & ->).
    exists rest1, buf1. split; [|assumption]. congruence.
  - rewrite E in P'. destruct (passed_no_stop _ _ _ _ _ P' V).
Qed.

Lemma read_chunk_stops t id p chunk :
  is_some (fst (read_chunk t id p chunk)) = existsb (stops id) chunk.
Proof.
  induction chunk as [|l ls IH]; [reflexivity|].
  cbn [read_chunk existsb]. unfold stops at 1.
  rewrite <- (handle_line_verdict t).
  destruct (handle_line t id l) as [[|r] ev]; cbn [fst].
  - destruct (read_chunk t id p ls) as [o ev']. cbn [fst] in *. exact IH.
  - reflexivity.
Qed.

Lemma read_loop_rest t id p cause out buf r rest buf' ev :
  read_loop t id p cause out buf = (r, rest, buf', ev) ->
  rest = after_answer id out.
Proof.
  revert buf r rest buf' ev.
  induction out as [|[chunk|bytes] tl IH]; intros buf r rest buf' ev H.
  - now injection H as _ <- _ _.
  - cbn [read_loop after_answer] in *.
    rewrite <- (read_chunk_stops t id p).
    destruct (read_chunk t id p chunk) as [[r0|] e]; cbn [fst is_some].
    + now injection H as _ <- _ _.
    + destruct (read_loop t id p cause tl buf) as [[[r1 rest1] buf1] ev1] eqn:L.
      injection H as _ <- _ _. eapply IH; eauto.
  - cbn [read_loop after_answer] in *. eapply IH; eauto.
Qed.

(** ** The operations on the child, one by one *)

Lemma verdict_fail_any_id id id' line e :
  verdict id line = Stop (Fail e) -> verdict id' line = Stop (Fail e).
Proof.
  unfold verdict.
  destruct (message_of line) as [msg|]; [|auto].
  destruct (is_notification msg); [discriminate|].
  destruct (response_of line) as [r|]; [|auto].
  destruct (Response.Error r); [auto|].
  destruct (Response.ID r =? id); discriminate.
Qed.

Lemma sendRequest_spec t c req w e c' w' tr :
  sendRequest t c req w = ((e, c'), w', tr) ->
  w' = w /\ texts tr = []
  /\ io tr = match e with None => [Sent (pid c) req] | Some _ => [] end
  /\ match e with
     | None => c' = wrote c /\ stdin_plan c (writes c) = Written
     | Some (ErrMarshal _) => c' = c
     | Some (ErrWrite _) | Some (ErrFlush _) => c' = wrote c
     | Some _ => False
     end.
Proof.
  unfold sendRequest, bind, debugf, emit, ret. intros H.
  destruct (Request.Params req);
    try (destruct (stdin_plan c (writes c)) eqn:P);
    injection H as <- <- <- <-; repeat split; trace_simpl; auto.
Qed.

Lemma sendRequest_written t c req w :
  (forall why, Request.Params req <> Unencodable why) ->
  stdin_plan c (writes c) = Written ->
  exists tr, sendRequest t c req w = ((None, wrote c), w, tr)
             /\ io tr = [Sent (pid c) req] /\ texts tr = [].
Proof.
  intros Henc Hw.
  destruct (sendRequest t c req w) as [[[e c'] w'] tr] eqn:E.
  pose proof (sendRequest_spec _ _ _ _ _ _ _ _ E) as (-> & Ht & Hio & Hc).
  unfold sendRequest, bind, debugf, emit, ret in E.
  destruct (Request.Params req) eqn:P; try (exfalso; exact (Henc _ eq_refl));
    rewrite Hw in E; injection E as <- <- <-;
    (eexists; split; [reflexivity|]); split; trace_simpl.
Qed.

Lemma readResponse_spec t c w r c' w' tr :
  readResponse t c w = ((r, c'), w', tr) ->
  let id := wrap64 (nextID t - 1) in
  w' = w
  /\ ((exists skipped line more rest buf,
         lines_of (output c) = (skipped ++ line :: more)%list
         /\ passed id skipped /\ verdict id line = Stop r
         /\ tr = read_events t id (pid c) (skipped ++ [line])
         /\ c' = after_read c rest buf
         /\ buf ++ late_stderr rest = stderr_at_exit c)
      \/ (passed id (lines_of (output c))
          /\ r = Fail (ErrRead (stdout_end c))
          /\ tr = (read_events t id (pid c) (lines_of (output c))
                   ++ [ReadFailed (pid c)])%list
          /\ c' = after_read c [] (stderr_at_exit c))).
Proof.
  unfold readResponse. intros H.
  destruct (read_loop t (wrap64 (nextID t - 1)) (pid c) (stdout_end c)
              (output c) (stderrBuf c)) as [[[r1 rest] buf] ev] eqn:L.
  injection H as <- <- <- <-. split; [reflexivity|].
  destruct (read_loop_spec _ _ _ _ _ _ _ _ _ _ L) as
    [(sk & line & more & E & P & V & -> & Hb)|(P & -> & -> & -> & ->)].
  - left. exists sk, line, more, rest, buf. repeat split; auto.
  - right. repeat split; auto.
Qed.

Lemma printStderr_spec t c w c' w' tr :
  printStderr t c w = (c', w', tr) ->
  w' = w /\ io tr = []
  /\ c' = (if showServerLogs t then set_stderrBuf c "" else c)
  /\ tr = (if showServerLogs t then server_log (stderrBuf c) else []).
Proof.
  unfold printStderr. intros H.
  destruct (showServerLogs t); cbn [negb] in H.
  - destruct (String.eqb (stderrBuf c) "") eqn:E.
    + apply String.eqb_eq in E. injection H as <- <- <-.
      rewrite E. repeat split. destruct c; cbn in *. now subst.
    + injection H as <- <- <-. repeat split. apply io_server_log.
  - injection H as <- <- <-. repeat split.
Qed.

Lemma closeProcess_spec t c w e w' tr :
  closeProcess t c w = (e, w', tr) ->
  w' = w /\ texts tr = []
  /\ match process t with
     | Some _ => e = None /\ tr = []
     | None =>
         match exit_plan c with
         | Exits waitErr =>
             io tr = [StdinClosed (pid c);
                      Waited (pid c) waitErr (stderr_at_exit c)]
             /\ e = match waitErr with
                    | Some why =>
                        if String.eqb (stderr_at_exit c) "" then None
                        else Some (ErrCommand why)
                    | None => None
                    end
         | StillRunning =>
             io tr = [StdinClosed (pid c); Killed (pid c)] /\ e = None
         end
     end.
Proof.
  unfold closeProcess, bind, debugf, emit, ret. intros H.
  destruct (process t).
  - injection H as <- <- <-. repeat split.
  - destruct (exit_plan c) as [[why|]|].
    + destruct (String.eqb (stderr_at_exit c) ""); cbn [negb] in H;
        injection H as <- <- <-; repeat split; trace_simpl.
    + injection H as <- <- <-; repeat split; trace_simpl.
    + injection H as <- <- <-; repeat split; trace_simpl.
Qed.

Lemma setupCommand_spec t w r w' tr :
  setupCommand t w = (r, w', tr) ->
  texts tr = []
  /\ match command t with
     | [] => r = Fail ErrNoCommand /\ w' = w /\ tr = []
     | _ :: _ =>
         w' = mkWorld (env_debug w) (launch w) (S (attempts w))
         /\ match launch w (attempts w) with
            | NoStdinPipe why => r = Fail (ErrStdinPipe why) /\ io tr = []
            | NoStdoutPipe why => r = Fail (ErrStdoutPipe why) /\ io tr = []
            | NoStart why => r = Fail (ErrStart why) /\ io tr = []
            | Starts out out_end plan exit =>
                r = Ok (mkChild (attempts w) out out_end plan 0 exit "")
                /\ io tr = [Spawned (attempts w)]
            end
     end.
Proof.
  unfold setupCommand, bind, debugf, ret. intros H.
  destruct (command t).
  - injection H as <- <- <-. repeat split.
  - destruct (launch w (attempts w)); injection H as <- <- <-;
      repeat split; trace_simpl.
Qed.

(** ** The shape of the handshake *)

Lemma same_command_refl c : same_command c c.
Proof. repeat split. Qed.

Lemma same_command_trans a b c :
  same_command a b -> same_command b c -> same_command a c.
Proof. unfold same_command. intuition congruence. Qed.

Lemma same_command_wrote c : same_command c (wrote c).
Proof. repeat split. Qed.

Lemma same_command_after_read c rest buf : same_command c (after_read c rest buf).
Proof. repeat split. Qed.

Lemma same_command_set_stderrBuf c buf : same_command c (set_stderrBuf c buf).
Proof. repeat split. Qed.

Create HintDb shape.
#[local] Hint Resolve same_command_refl same_command_wrote
  same_command_after_read same_command_set_stderrBuf : shape.

Lemma sendRequest_shape t c req w e c' w' tr :
  sendRequest t c req w = ((e, c'), w', tr) ->
  w' = w /\ same_command c c' /\ output c' = output c
  /\ stderrBuf c' = stderrBuf c
  /\ io tr = match e with None => [Sent (pid c) req] | Some _ => [] end
  /\ match e with Some err => send_error err | None => True end.
Proof.
  intros H. apply sendRequest_spec in H as (-> & _ & Hio & Hc).
  destruct e as [[]|]; try contradiction;
    first [subst c' | destruct Hc as [-> _]];
    repeat split; auto.
Qed.

Lemma readResponse_rest t c w r c' w' tr :
  readResponse t c w = ((r, c'), w', tr) ->
  output c' = after_answer (wrap64 (nextID t - 1)) (output c).
Proof.
  unfold readResponse. intros H.
  destruct (read_loop t (wrap64 (nextID t - 1)) (pid c) (stdout_end c)
              (output c) (stderrBuf c)) as [[[r1 rest] buf] ev] eqn:L.
  injection H as _ <- _ _. cbn. eapply read_loop_rest; eauto.
Qed.

Lemma readResponse_shape t c w r c' w' tr :
  readResponse t c w = ((r, c'), w', tr) ->
  w' = w /\ same_command c c' /\ stderr_at_exit c' = stderr_at_exit c
  /\ reading (wrap64 (nextID t - 1)) (pid c) (io tr) r.
Proof.
  intros H. apply readResponse_spec in H as (-> & H).
  destruct H as [(sk & line & more & rest & buf & E & P & V & -> & -> & Hb)
                |(P & -> & -> & ->)].
  - repeat split; auto. rewrite io_read_events. now constructor.
  - repeat split.
    + unfold stderr_at_exit at 1. cbn. now rewrite append_nil_r.
    + rewrite io_app, io_read_events. now constructor.
Qed.

Lemma printStderr_shape t c w c' w' tr :
  printStderr t c w = (c', w', tr) ->
  w' = w /\ same_command c c' /\ output c' = output c /\ io tr = []
  /\ stderrBuf c' = (if showServerLogs t then "" else stderrBuf c).
Proof.
  intros H. apply printStderr_spec in H as (-> & Hio & -> & _).
  destruct (showServerLogs t); repeat split; auto.
Qed.

Lemma initialize_shape t c w e t' c' w' tr :
  initialize t c w = ((e, t', c'), w', tr) ->
  w' = w /\ t' = set_nextID t (wrap64 (nextID t + 1)) /\ same_command c c'
  /\ handshake (nextID t) (pid c) (io tr) e.
Proof.
  unfold initialize, bind, ret. intros H.
  set (t1 := set_nextID t (wrap64 (nextID t + 1))) in *.
  destruct (sendRequest t1 c (initRequest (nextID t)) w)
    as [[[e1 c1] w1] tr1] eqn:S1.
  apply sendRequest_shape in S1 as (-> & Sc1 & _ & _ & Hio1 & He1).
  destruct e1 as [e1|].
  { injection H as <- <- <- <- <-. repeat split; try apply Sc1.
    trace_simpl. rewrite Hio1. now constructor. }
  destruct (readResponse t1 c1 w) as [[[r c2] w2] tr2] eqn:R.
  apply readResponse_shape in R as (-> & Sc2 & _ & Hrd).
  change (wrap64 (nextID t1 - 1)) with (expected (nextID t)) in Hrd.
  assert (Hp : pid c1 = pid c) by apply Sc1. rewrite Hp in Hrd.
  pose proof (same_command_trans _ _ _ Sc1 Sc2) as Sc12.
  destruct r as [r|e2].
  2:{ injection H as <- <- <- <- <-. repeat split; try apply Sc12.
      trace_simpl. rewrite Hio1. cbn [app]. now constructor. }
  destruct (sendRequest t1 c2 initNotification w)
    as [[[e3 c3] w3] tr3] eqn:S3.
  apply sendRequest_shape in S3 as (-> & Sc3 & _ & _ & Hio3 & He3).
  pose proof (same_command_trans _ _ _ Sc12 Sc3) as Sc.
  assert (Hp2 : pid c2 = pid c) by apply Sc12. rewrite Hp2 in Hio3.
  destruct e3 as [e3|]; injection H as <- <- <- <- <-;
    repeat split; try apply Sc; trace_simpl; rewrite Hio1, Hio3; cbn [app].
  - rewrite app_nil_r. econstructor; eassumption.
  - econstructor; eassumption.
Qed.

(** ** The shape of a call *)

Lemma keep_nextID t p : nextID (keep t p) = nextID t.
Proof. unfold keep. now destruct (process t). Qed.

Lemma keep_process t p :
  process (keep t p) = match process t with Some _ => Some p | None => None end.
Proof. unfold keep. now destruct (process t) eqn:E. Qed.

Lemma ensure_initialized_shape t c0 b w x t1 w1 tr :
  ensure_initialized t c0 b w = ((x, t1), w1, tr) ->
  w1 = w
  /\ ((b = true /\ x = Ok c0
       /\ t1 = keep t (mkProcess (Some c0) true) /\ io tr = [])
      \/ (b = false
          /\ exists e c1,
              handshake (nextID t) (pid c0) (io tr) e
              /\ same_command c0 c1
              /\ x = match e with Some err => Fail err | None => Ok c1 end
              /\ t1 = keep (set_nextID t (wrap64 (nextID t + 1)))
                           (mkProcess (Some c1) (negb (is_some e))))).
Proof.
  unfold ensure_initialized, bind, ret, debugf. intros H.
  destruct b.
  - injection H as <- <- <- <-. split; [reflexivity|].
    left. repeat split. trace_simpl.
  - destruct (initialize t c0 w) as [[[[e t2] c2] w2] tr2] eqn:I.
    apply initialize_shape in I as (-> & -> & Sc & Hs).
    destruct (printStderr (set_nextID t (wrap64 (nextID t + 1))) c2 w)
      as [[c3 w3] tr3] eqn:P.
    apply printStderr_shape in P as (-> & Sc3 & _ & Hio3 & _).
    pose proof (same_command_trans _ _ _ Sc Sc3) as Sc'.
    assert (Hio : forall d,
               io (tr2 ++ tr3 ++ debug_events
                     (set_nextID t (wrap64 (nextID t + 1))) d ++ []) = io tr2)
      by (intros d; trace_simpl; now rewrite Hio3, ?app_nil_r).
    destruct e as [e|]; injection H as <- <- <- <-;
      (split; [reflexivity|]); right; (split; [reflexivity|]);
      [exists (Some e), c3 | exists None, c3];
      rewrite Hio; repeat split; try apply Sc'; auto.
Qed.

Lemma ensure_session_shape t w x t1 w1 tr :
  ensure_session t w = ((x, t1), w1, tr) ->
  let p0 := default (mkProcess None false) (process t) in
  (exists e, x = Fail e /\ spawn_error e /\ t1 = t /\ io tr = []
             /\ cmd p0 = None
             /\ (command t = [] -> e = ErrNoCommand /\ w1 = w)
             /\ (command t <> [] ->
                 w1 = bump w /\ e <> ErrNoCommand
                 /\ forall o oe pl ex,
                     launch w (attempts w) <> Starts o oe pl ex))
  \/ (exists c0 S,
         session_start t w c0 w1 S
         /\ ((isInitializeSent p0 = true /\ x = Ok c0
              /\ t1 = keep t (mkProcess (Some c0) true) /\ io tr = S)
             \/ (isInitializeSent p0 = false
                 /\ exists e c1 hs,
                     handshake (nextID t) (pid c0) hs e
                     /\ io tr = (S ++ hs)%list
                     /\ same_command c0 c1
                     /\ x = match e with Some err => Fail err | None => Ok c1 end
                     /\ t1 = keep (set_nextID t (wrap64 (nextID t + 1)))
                                  (mkProcess (Some c1) (negb (is_some e)))))).
Proof.
  unfold ensure_session, bind, ret, debugf. intros H.
  set (p0 := default (mkProcess None false) (process t)) in *.
  assert (Htail :
    forall c0 w0 S tr0 tr',
      session_start t w c0 w0 S -> io tr0 = S ->
      ensure_initialized t c0 (isInitializeSent p0) w0 = (x, t1, w1, tr') ->
      tr = (tr0 ++ debug_events t DbgStartInit ++ tr')%list ->
      exists c0 S,
        session_start t w c0 w1 S
        /\ ((isInitializeSent p0 = true /\ x = Ok c0
             /\ t1 = keep t (mkProcess (Some c0) true) /\ io tr = S)
            \/ (isInitializeSent p0 = false
                /\ exists e c1 hs,
                    handshake (nextID t) (pid c0) hs e
                    /\ io tr = (S ++ hs)%list
                    /\ same_command c0 c1
                    /\ x = match e with Some err => Fail err | None => Ok c1 end
                    /\ t1 = keep (set_nextID t (wrap64 (nextID t + 1)))
                                 (mkProcess (Some c1) (negb (is_some e)))))).
  { intros c0 w0 S tr0 tr' Hstart Htr0 E ->. exists c0, S.
    apply ensure_initialized_shape in E as (-> & E).
    split; [assumption|].
    destruct E as [(Eb & -> & -> & Hio)|(Eb & e & c1 & Hs & Sc & -> & ->)].
    - left. repeat split; auto. trace_simpl. now rewrite Htr0, Hio, app_nil_r.
    - right. split; [assumption|]. exists e, c1, (io tr').
      repeat split; auto; try apply Sc. trace_simpl. now rewrite Htr0. }
  destruct (cmd p0) as [c|] eqn:Ec.
  - right.
    destruct (ensure_initialized t c (isInitializeSent p0) w)
      as [[[x' t'] w'] tr'] eqn:E'.
    injection H as <- <- <- <-.
    apply (Htail c w [] [] tr'); auto.
    unfold p0 in Ec. destruct (process t) as [pr|] eqn:Ep; [|discriminate].
    now apply start_kept with pr.
  - destruct (setupCommand t w) as [[x0 w0] tr0] eqn:E0.
    apply setupCommand_spec in E0 as (_ & E0).
    destruct (command t) eqn:Ecmd.
    + destruct E0 as (-> & -> & ->). injection H as <- <- <- <-.
      left. exists ErrNoCommand. repeat split; try congruence.
    + destruct E0 as (-> & E0).
      destruct (launch w (attempts w)) eqn:El; destruct E0 as (-> & Hio);
        try (injection H as <- <- <- <-; left; eexists;
             repeat split; trace_simpl; try rewrite Hio; try reflexivity;
             try discriminate; congruence).
      right. fold (bump w) in H.
      destruct (ensure_initialized t
                  (mkChild (attempts w) out out_end plan 0 exit "")
                  (isInitializeSent p0) (bump w))
        as [[[x' t'] w'] tr'] eqn:E'.
      injection H as <- <- <- <-.
      apply (Htail _ _ _ tr0 tr'
               (start_spawn t w _ _ _ _ Ec ltac:(congruence) El) Hio E').
      reflexivity.
Qed.

Lemma closeProcess_ending t c0 c r w e w' tr :
  closeProcess t c w = (e, w', tr) ->
  same_command c0 c ->
  w' = w
  /\ ending t c0 r (stderr_at_exit c) (io tr)
       (match e with Some err => Fail err | None => Ok (Response.Result r) end).
Proof.
  intros H (Hp & Hx & _). apply closeProcess_spec in H as (-> & _ & H).
  split; [reflexivity|].
  destruct (process t) as [pr|] eqn:Ep.
  - destruct H as (-> & ->). now apply ending_kept with pr.
  - rewrite Hx in H. rewrite Hp in H.
    destruct (exit_plan c0) as [[why|]|] eqn:Ex; destruct H as (-> & ->).
    + destruct (String.eqb (stderr_at_exit c) "") eqn:Eb.
      * apply String.eqb_eq in Eb. now apply ending_exit_quiet.
      * apply String.eqb_neq in Eb. now apply ending_exit_error.
    + now apply ending_exit_ok.
    + now apply ending_timeout.
Qed.

Lemma exchange_shape m p t c w out t2 w2 tr :
  exchange m p t c w = ((out, t2), w2, tr) ->
  let n := nextID t in
  let req := Request.mk "2.0" m n p in
  w2 = w
  /\ (exists c', same_command c c'
                 /\ t2 = keep (set_nextID t (wrap64 (n + 1)))
                              (mkProcess (Some c') true))
  /\ ((exists e, out = Fail e /\ send_error e /\ io tr = [])
      \/ (exists rd e, out = Fail e /\ reading (expected n) (pid c) rd (Fail e)
                       /\ io tr = Sent (pid c) req :: rd)
      \/ (exists rd r buf fin,
             reading (expected n) (pid c) rd (Ok r)
             /\ ending t c r buf fin out
             /\ io tr = (Sent (pid c) req :: rd ++ fin)%list
             /\ buf = (if showServerLogs t
                       then late_stderr (after_answer (expected n) (output c))
                       else stderr_at_exit c))).
Proof.
  unfold exchange, bind, ret. intros H.
  set (t1 := set_nextID t (wrap64 (nextID t + 1))) in *.
  destruct (sendRequest t1 c (Request.mk "2.0" m (nextID t) p) w)
    as [[[e1 c1] w1] tr1] eqn:S1.
  apply sendRequest_shape in S1 as (-> & Sc1 & Ho1 & Hb1 & Hio1 & He1).
  destruct e1 as [e1|].
  { injection H as <- <- <- <-. split; [reflexivity|]. split.
    - exists c1. split; [assumption | reflexivity].
    - left. exists e1. repeat split; auto. trace_simpl. now rewrite Hio1. }
  destruct (readResponse t1 c1 w) as [[[r c2] w2'] tr2] eqn:R.
  pose proof (readResponse_rest _ _ _ _ _ _ _ R) as Hrest.
  apply readResponse_shape in R as (-> & Sc2 & Hse & Hrd).
  change (wrap64 (nextID t1 - 1)) with (expected (nextID t)) in Hrd, Hrest.
  assert (Hp : pid c1 = pid c) by apply Sc1. rewrite Hp in Hrd.
  pose proof (same_command_trans _ _ _ Sc1 Sc2) as Sc12.
  destruct (printStderr t1 c2 w) as [[c3 w3] tr3] eqn:P.
  apply printStderr_shape in P as (-> & Sc3 & Ho3 & Hio3 & Hb3).
  pose proof (same_command_trans _ _ _ Sc12 Sc3) as Sc.
  destruct r as [r|e2].
  2:{ injection H as <- <- <- <-. split; [reflexivity|]. split.
      - exists c3. split; [assumption | reflexivity].
      - right. left. exists (io tr2), e2. repeat split; auto.
        trace_simpl. now rewrite Hio1, Hio3, app_nil_r. }
  destruct (closeProcess t1 c3 w) as [[e3 w4] tr4] eqn:C.
  apply (closeProcess_ending t1 c c3 r) in C as (-> & Hend); [|assumption].
  assert (Hend' : ending t c r (stderr_at_exit c3) (io tr4)
                    (match e3 with
                     | Some err => Fail err
                     | None => Ok (Response.Result r)
                     end)).
  { inversion Hend; subst; econstructor; eassumption. }
  assert (Hout : out = match e3 with
                       | Some err => Fail err
                       | None => Ok (Response.Result r)
                       end /\ t2 = keep t1 (mkProcess (Some c3) true)
                 /\ w2 = w /\ tr = (tr1 ++ tr2 ++ tr3 ++ tr4 ++ [])%list).
  { destruct e3; injection H as <- <- <- <-; repeat split. }
  destruct Hout as (-> & -> & -> & ->).
  split; [reflexivity|]. split.
  - exists c3. split; [assumption | reflexivity].
  - right. right. exists (io tr2), r, (stderr_at_exit c3), (io tr4).
    repeat split; auto.
    + trace_simpl. now rewrite Hio1, Hio3.
    + change (showServerLogs t1) with (showServerLogs t) in Hb3.
      unfold stderr_at_exit in *. rewrite Hb3, Ho3.
      destruct (showServerLogs t).
      * now rewrite Hrest, Ho1.
      * rewrite Hse. now rewrite Ho1, Hb1.
Qed.

Lemma Execute_shape m p t w out t' w' tr :
  Execute m p t w = ((out, t'), w', tr) ->
  exists x t1 tr0 tr1,
    ensure_session t w = ((x, t1), w', tr0) /\ tr = (tr0 ++ tr1)%list
    /\ match x with
       | Fail e => out = Fail e /\ t' = t1 /\ tr1 = []
       | Ok c => exchange m p t1 c w' = ((out, t'), w', tr1)
       end.
Proof.
  unfold Execute, bind, ret. intros H.
  destruct (ensure_session t w) as [[[x t1] w1] tr0] eqn:E.
  destruct x as [c|e].
  - destruct (exchange m p t1 c w1) as [[[o t2] w2] tr1] eqn:X.
    injection H as <- <- <- <-.
    pose proof (exchange_shape _ _ _ _ _ _ _ _ _ X) as (-> & _).
    exists (Ok c), t1, tr0, tr1. auto.
  - injection H as <- <- <- <-. exists (Fail e), t1, tr0, []. auto.
Qed.

(** ** What the lines read say about the result *)

Lemma lines_got_map_Got_app p seen tl :
  lines_got (map (Got p) seen ++ tl) = (seen ++ lines_got tl)%list.
Proof. now rewrite lines_got_app, lines_got_map_Got. Qed.

Lemma reading_no_sent id p rd r : reading id p rd r -> sent rd = [].
Proof.
  intros [sk line r' _ _|sk cause _]; [apply sent_map_Got|].
  now rewrite sent_app, sent_map_Got.
Qed.

Lemma reading_no_spawn id p rd r : reading id p rd r -> spawned rd = [].
Proof.
  intros [sk line r' _ _|sk cause _]; [apply spawned_map_Got|].
  now rewrite spawned_app, spawned_map_Got.
Qed.

Lemma passed_not_stop id id' sk (line : Line) e :
  passed id sk -> In line sk -> verdict id' line = Stop (Fail e) -> False.
Proof.
  intros P I V. unfold passed in P. rewrite List.Forall_forall in P.
  specialize (P _ I). apply (verdict_fail_any_id _ id) in V. congruence.
Qed.

(** A line that makes the loop fail is the last one read, and the loop
    returns its error. *)
Lemma reading_stop_fail id id' p rd r line e :
  reading id p rd r -> In line (lines_got rd) ->
  verdict id' line = Stop (Fail e) -> r = Fail e.
Proof.
  intros [sk l r' P V|sk cause P] I V'.
  - rewrite lines_got_map_Got in I. apply in_app_or in I as [I|[<-|[]]].
    + destruct (passed_not_stop _ _ _ _ _ P I V').
    + apply (verdict_fail_any_id _ id) in V'. congruence.
  - rewrite lines_got_app, lines_got_map_Got in I. cbn in I.
    rewrite app_nil_r in I. destruct (passed_not_stop _ _ _ _ _ P I V').
Qed.

Lemma reading_ok_last id p rd r :
  reading id p rd (Ok r) ->
  exists sk line, lines_got rd = (sk ++ [line])%list /\ passed id sk
                  /\ verdict id line = Stop (Ok r).
Proof.
  intros H. inversion H as [sk l r' P V|]; subst.
  exists sk, l. now rewrite lines_got_map_Got.
Qed.

Lemma handshake_stop_fail n p hs e id' line err :
  handshake n p hs e -> In line (lines_got hs) ->
  verdict id' line = Stop (Fail err) -> e = Some (ErrInitResponse err).
Proof.
  intros H I V. destruct H as [e1 _|rd e2 R|rd r e3 R _|rd r R]; cbn in I.
  - destruct I.
  - injection (reading_stop_fail _ _ _ _ _ _ _ R I V) as ->. reflexivity.
  - discriminate (reading_stop_fail _ _ _ _ _ _ _ R I V).
  - change (Sent p (initRequest n) :: rd ++ [Sent p initNotification])%list
      with ([Sent p (initRequest n)] ++ rd ++ [Sent p initNotification])%list in I.
    rewrite !lines_got_app in I. cbn in I. rewrite app_nil_r in I.
    discriminate (reading_stop_fail _ _ _ _ _ _ _ R I V).
Qed.

Lemma session_start_no_lines t w c w' S :
  session_start t w c w' S -> lines_got S = [] /\ sent S = [].
Proof. intros []; split; reflexivity. Qed.

Lemma ending_no_lines t c r buf fin out :
  ending t c r buf fin out -> lines_got fin = [] /\ sent fin = [].
Proof. intros []; split; reflexivity. Qed.

Lemma ending_not_other t c r buf fin out e :
  ending t c r buf fin out -> out = Fail e -> exists why, e = ErrCommand why.
Proof.
  intros En Ho. destruct En; try discriminate. injection Ho as <-. eauto.
Qed.

(** Whenever a line read during a call makes its read loop fail with [e],
    the call returns [e], wrapped when the handshake was being done. *)
Lemma Execute_stop_fail m p t w out t' w' tr id line e :
  Execute m p t w = ((out, t'), w', tr) ->
  In line (lines_got tr) -> verdict id line = Stop (Fail e) ->
  out = Fail e \/ out = Fail (ErrInitResponse e).
Proof.
  intros H I V.
  apply Execute_shape in H as (x & t1 & tr0 & tr1 & E & -> & H).
  rewrite lines_got_app in I.
  pose proof (ensure_session_shape _ _ _ _ _ _ E) as Hs. cbv zeta in Hs.
  destruct Hs as [(e0 & -> & _ & -> & Hio & _)
                 |(c0 & S & Hst & [(_ & -> & -> & Hio)
                                  |(_ & e1 & c1 & hs & Hh & Hio & Sc & -> & ->)])].
  - destruct H as (-> & _ & ->). rewrite (lines_got_io tr0), Hio in I.
    destruct I.
  - apply exchange_shape in H as (_ & _ & H). cbv zeta in H.
    rewrite (lines_got_io tr0), Hio, (lines_got_io tr1) in I.
    destruct (session_start_no_lines _ _ _ _ _ Hst) as (HS & _).
    rewrite HS in I. cbn [app] in I.
    destruct H as [(e2 & -> & _ & Hio1)
                  |[(rd & e2 & -> & R & Hio1)
                   |(rd & r & buf & fin & R & En & Hio1 & _)]];
      rewrite Hio1 in I; cbn in I.
    + destruct I.
    + left. injection (reading_stop_fail _ _ _ _ _ _ _ R I V) as ->.
      reflexivity.
    + rewrite lines_got_app in I.
      destruct (ending_no_lines _ _ _ _ _ _ En) as (Hf & _).
      rewrite Hf, app_nil_r in I.
      discriminate (reading_stop_fail _ _ _ _ _ _ _ R I V).
  - rewrite (lines_got_io tr0), Hio, lines_got_app in I.
    destruct (session_start_no_lines _ _ _ _ _ Hst) as (HS & _).
    rewrite HS in I. cbn [app] in I.
    destruct e1 as [e1|].
    + destruct H as (-> & _ & ->). cbn in I. rewrite app_nil_r in I.
      injection (handshake_stop_fail _ _ _ _ _ _ _ Hh I V) as ->. now right.
    + apply exchange_shape in H as (_ & _ & H). cbv zeta in H.
      apply in_app_or in I as [I|I].
      { discriminate (handshake_stop_fail _ _ _ _ _ _ _ Hh I V). }
      rewrite (lines_got_io tr1) in I.
      destruct H as [(e2 & -> & _ & Hio1)
                    |[(rd & e2 & -> & R & Hio1)
                     |(rd & r & buf & fin & R & En & Hio1 & _)]];
        rewrite Hio1 in I; cbn in I.
      * destruct I.
      * left. injection (reading_stop_fail _ _ _ _ _ _ _ R I V) as ->.
        reflexivity.
      * rewrite lines_got_app in I.
        destruct (ending_no_lines _ _ _ _ _ _ En) as (Hf & _).
        rewrite Hf, app_nil_r in I.
        discriminate (reading_stop_fail _ _ _ _ _ _ _ R I V).
Qed.

(** ** The verdict on a line, by what the line is *)

Lemma plain_not_notification line : plain line = true -> notification line = false.
Proof.
  unfold plain, notification. destruct (message_of line); [|discriminate].
  now destruct (is_notification l).
Qed.

Lemma plain_iff line :
  plain line = true
  <-> exists msg, message_of line = Some msg /\ is_notification msg = false.
Proof.
  unfold plain. destruct (message_of line) as [msg|].
  - destruct (is_notification msg) eqn:E; cbn [negb]; split.
    + discriminate.
    + intros (m' & H & H'). injection H as <-. congruence.
    + intros _. eauto.
    + reflexivity.
  - split; [discriminate|]. intros (? & ? & _). discriminate.
Qed.

Lemma verdict_ok_iff id line r :
  verdict id line = Stop (Ok r)
  <-> plain line = true /\ response_of line = Some r
      /\ Response.ID r = id /\ Response.Error r = None.
Proof.
  unfold verdict, plain. split.
  - destruct (message_of line) as [msg|]; [|discriminate].
    destruct (is_notification msg); [discriminate|].
    destruct (response_of line) as [r'|]; [|discriminate].
    destruct (Response.Error r') eqn:Ee; [discriminate|].
    destruct (Response.ID r' =? id) eqn:Ei; [|discriminate].
    intros H. injection H as <-. apply Z.eqb_eq in Ei. auto.
  - intros (Hn & Hr & Hi & He).
    destruct (message_of line) as [msg|]; [|discriminate].
    destruct (is_notification msg); [discriminate|].
    rewrite Hr, He. apply Z.eqb_eq in Hi. now rewrite Hi.
Qed.


Lemma verdict_next_iff id line :
  verdict id line = Next
  <-> notification line = true
      \/ (plain line = true
          /\ exists r, response_of line = Some r /\ Response.Error r = None
                       /\ Response.ID r <> id).
Proof.
  unfold verdict, notification, plain. split.
  - destruct (message_of line) as [msg|]; [|discriminate].
    destruct (is_notification msg); [now left|].
    destruct (response_of line) as [r'|]; [|discriminate].
    destruct (Response.Error r') eqn:Ee; [discriminate|].
    destruct (Response.ID r' =? id) eqn:Ei; [discriminate|].
    intros _. right. split; [reflexivity|]. exists r'.
    apply Z.eqb_neq in Ei. auto.
  - intros [Hn|(Hp & r & Hr & He & Hi)].
    + destruct (message_of line) as [msg|]; [|discriminate]. now rewrite Hn.
    + destruct (message_of line) as [msg|]; [|discriminate].
      destruct (is_notification msg); [discriminate|].
      rewrite Hr, He. apply Z.eqb_neq in Hi. now rewrite Hi.
Qed.

(** The verdict on a line that the generic decoding refuses, or that is
    plain and that the decoding as a [Response] refuses. *)
Lemma verdict_refused_iff id line e :
  verdict id line = Stop (Fail e)
  <-> (message_of line = None
       /\ e = ErrUnmarshalMessage (json_err line) (raw line))
      \/ (plain line = true /\ response_of line = None
          /\ e = ErrUnmarshalResponse (json_err line) (raw line))
      \/ (plain line = true
          /\ exists r err, response_of line = Some r
                           /\ Response.Error r = Some err
                           /\ e = ErrRPC (Code err) (Message err)).
Proof.
  unfold verdict, plain. split.
  - destruct (message_of line) as [msg|];
      [|intros H; injection H as <-; left; auto].
    destruct (is_notification msg); [discriminate|].
    destruct (response_of line) as [r|];
      [|intros H; injection H as <-; right; left; auto].
    destruct (Response.Error r) as [err|] eqn:Ee.
    + intros H. injection H as <-. right. right. split; [reflexivity|].
      exists r, err. auto.
    + destruct (Response.ID r =? id); discriminate.
  - intros [(Hm & ->)|[(Hp & Hr & ->)|(Hp & r & err & Hr & He & ->)]].
    + now rewrite Hm.
    + destruct (message_of line) as [msg|]; [|discriminate].
      destruct (is_notification msg); [discriminate|]. now rewrite Hr.
    + destruct (message_of line) as [msg|]; [|discriminate].
      destruct (is_notification msg); [discriminate|]. now rewrite Hr, He.
Qed.

(** *** The two decodings on some lines

    Where [float64] ends; a number out of range under a key that is no
    field of [Response] is refused by the generic decoding and by it alone,
    so that the loop neither passes over the line nor takes an error from
    it; a key that matches a field by folding only. *)

Example float64_range :
  float64_ok (2 ^ 1024 - 2 ^ 971) 0 = true
  /\ float64_ok (2 ^ 1024 - 2 ^ 970) 0 = false
  /\ float64_ok 17976931348623157 292 = true
  /\ float64_ok 18 307 = false
  /\ float64_ok (-1) 999 = false
  /\ float64_ok 1 (-999) = true.
Proof. vm_compute. repeat split. Qed.

Example out_of_range_number_is_refused :
  response_of out_of_range_reply = Some (Response.mk (Some []) None "2.0" 99)
  /\ message_of out_of_range_reply = None
  /\ verdict 2 out_of_range_reply
     = Stop (Fail (ErrUnmarshalMessage (json_err out_of_range_reply)
                                       (raw out_of_range_reply)))
  /\ verdict 2 out_of_range_error
     = Stop (Fail (ErrUnmarshalMessage (json_err out_of_range_error)
                                       (raw out_of_range_error)))
  /\ notification out_of_range_log = false
  /\ fst (fst (fst (Execute "ping" Nil (mkStdio None ["srv"] 1 false false)
                      (world_of overflowing_server (Exits None)))))
     = Fail (ErrUnmarshalMessage (json_err out_of_range_log)
                                 (raw out_of_range_log)).
Proof. vm_compute. repeat split. Qed.

Example keys_are_folded :
  field_is "result" "Result" = true
  /\ field_is "result" long_s_result = true
  /\ field_is "result" "results" = false
  /\ decode_response (JObj [(long_s_result, JObj [("pong", JBool true)]);
                            ("ID", JInt 2)])
     = Some (Response.mk (Some [("pong", JBool true)]) None "" 2)
  /\ decode_response (JObj [("result", JObj [("n", JReal 1 999)])]) = None.
Proof. vm_compute. repeat split. Qed.

Lemma ensure_session_nextID_ok t w x t1 w1 tr :
  ensure_session t w = ((x, t1), w1, tr) ->
  int64_ok (nextID t) = true -> int64_ok (nextID t1) = true.
Proof.
  intros E Hn. apply ensure_session_shape in E. cbv zeta in E.
  destruct E as [(e0 & _ & _ & -> & _)
                |(c0 & S & _ & [(_ & _ & -> & _)
                               |(_ & e1 & c1 & hs & _ & _ & _ & _ & ->)])];
    rewrite ?keep_nextID; auto. cbn. apply wrap64_ok.
Qed.


(** ** Where a read failure stands in the trace *)

Lemma no_read_failure_nil : no_read_failure [].
Proof. intros q []. Qed.

Lemma no_read_failure_app a b :
  no_read_failure a -> no_read_failure b -> no_read_failure (a ++ b).
Proof. intros A B q I. apply in_app_or in I as [I|I]; [eapply A | eapply B]; eauto. Qed.

Lemma no_read_failure_cons e l :
  (forall q, e <> ReadFailed q) -> no_read_failure l -> no_read_failure (e :: l).
Proof. intros E L q [I|I]; [eapply E | eapply L]; eauto. Qed.

Lemma no_read_failure_Got p seen : no_read_failure (map (Got p) seen).
Proof.
  intros q I. apply in_map_iff in I as (l & E & _). discriminate.
Qed.

#[local] Hint Resolve no_read_failure_nil no_read_failure_app
  no_read_failure_Got : shape.

(** In a trace whose only read failure is its last event, nothing follows
    a read failure. *)
Lemma read_failure_is_last (L pre post : list event) p q :
  no_read_failure L ->
  (L ++ [ReadFailed p])%list = (pre ++ ReadFailed q :: post)%list -> post = [].
Proof.
  intros HL E. destruct post as [|z post0]; [reflexivity|]. exfalso.
  destruct (exists_last (l := z :: post0)) as (post' & y & Ey); [discriminate|].
  rewrite Ey in E.
  change (pre ++ ReadFailed q :: post' ++ [y])%list
    with (pre ++ (ReadFailed q :: post') ++ [y])%list in E.
  rewrite app_assoc in E. apply app_inj_tail in E as [E _].
  apply (HL q). rewrite E. apply in_or_app. right. now left.
Qed.

Lemma reading_read_failure id p rd r :
  reading id p rd r ->
  no_read_failure rd
  \/ exists L cause, rd = (L ++ [ReadFailed p])%list /\ no_read_failure L
                     /\ r = Fail (ErrRead cause).
Proof.
  intros [sk line r' _ _|sk cause _].
  - left. auto with shape.
  - right. exists (map (Got p) sk), cause. auto with shape.
Qed.

Lemma reading_ok_no_read_failure id p rd r :
  reading id p rd (Ok r) -> no_read_failure rd.
Proof.
  intros H. destruct (reading_read_failure _ _ _ _ H) as [|(L & c & _ & _ & E)];
    [assumption | discriminate].
Qed.

Lemma session_start_no_read_failure t w c w' S :
  session_start t w c w' S -> no_read_failure S.
Proof.
  intros []; [apply no_read_failure_nil|].
  intros q [I|[]]. discriminate.
Qed.

Lemma ending_no_read_failure t c r buf fin out :
  ending t c r buf fin out -> no_read_failure fin.
Proof.
  intros []; intros q I; cbn in I; intuition discriminate.
Qed.

(** The io of a call: no read failed, or the call ends on the failed read
    and returns its error. *)
Definition fails_on_read (l : list event) (out : outcome) : Prop :=
  no_read_failure l
  \/ exists L p cause,
      l = (L ++ [ReadFailed p])%list /\ no_read_failure L
      /\ (out = Fail (ErrRead cause)
          \/ out = Fail (ErrInitResponse (ErrRead cause))).

Lemma exchange_fails_on_read m p t c w out t2 w2 tr :
  exchange m p t c w = ((out, t2), w2, tr) ->
  no_read_failure (io tr)
  \/ exists L cause, io tr = (L ++ [ReadFailed (pid c)])%list
                     /\ no_read_failure L /\ out = Fail (ErrRead cause).
Proof.
  intros H. apply exchange_shape in H as (_ & _ & H). cbv zeta in H.
  destruct H as [(e2 & -> & _ & ->)
                |[(rd & e2 & -> & R & ->)
                 |(rd & r & buf & fin & R & En & -> & _)]].
  - left. apply no_read_failure_nil.
  - destruct (reading_read_failure _ _ _ _ R) as [N|(L & cause & -> & N & Er)].
    + left. apply no_read_failure_cons; [discriminate | assumption].
    + injection Er as ->.
      right. exists (Sent (pid c) (Request.mk "2.0" m (nextID t) p) :: L), cause.
      repeat split. apply no_read_failure_cons; [discriminate | assumption].
  - left. apply no_read_failure_cons; [discriminate|].
    apply no_read_failure_app.
    + eapply reading_ok_no_read_failure; eauto.
    + eapply ending_no_read_failure; eauto.
Qed.

Lemma handshake_fails_on_read n p hs e :
  handshake n p hs e ->
  no_read_failure hs
  \/ exists L cause, hs = (L ++ [ReadFailed p])%list /\ no_read_failure L
                     /\ e = Some (ErrInitResponse (ErrRead cause)).
Proof.
  intros [e1 _|rd e2 R|rd r e3 R _|rd r R].
  - left. apply no_read_failure_nil.
  - destruct (reading_read_failure _ _ _ _ R) as [N|(L & cause & -> & N & Er)].
    + left. apply no_read_failure_cons; [discriminate | assumption].
    + injection Er as ->.
      right. exists (Sent p (initRequest n) :: L), cause.
      repeat split. apply no_read_failure_cons; [discriminate | assumption].
  - left. apply no_read_failure_cons; [discriminate|].
    eapply reading_ok_no_read_failure; eauto.
  - left. apply no_read_failure_cons; [discriminate|].
    apply no_read_failure_app; [eapply reading_ok_no_read_failure; eauto|].
    intros q [I|[]]. discriminate.
Qed.

Lemma Execute_fails_on_read m p t w out t' w' tr :
  Execute m p t w = ((out, t'), w', tr) -> fails_on_read (io tr) out.
Proof.
  intros H.
  apply Execute_shape in H as (x & t1 & tr0 & tr1 & E & -> & H).
  rewrite io_app.
  pose proof (ensure_session_shape _ _ _ _ _ _ E) as Hs. cbv zeta in Hs.
  destruct Hs as [(e0 & -> & _ & -> & Hio & _)
                 |(c0 & S & Hst & [(_ & -> & -> & Hio)
                                  |(_ & e1 & c1 & hs & Hh & Hio & Sc & -> & ->)])].
  - destruct H as (-> & _ & ->). rewrite Hio. left. apply no_read_failure_nil.
  - rewrite Hio. pose proof (session_start_no_read_failure _ _ _ _ _ Hst) as NS.
    destruct (exchange_fails_on_read _ _ _ _ _ _ _ _ _ H)
      as [N|(L & cause & -> & N & ->)].
    + left. now apply no_read_failure_app.
    + right. exists (S ++ L)%list, (pid c0), cause. rewrite app_assoc.
      repeat split; auto. now apply no_read_failure_app.
  - rewrite Hio. pose proof (session_start_no_read_failure _ _ _ _ _ Hst) as NS.
    destruct (handshake_fails_on_read _ _ _ _ Hh) as [N|(L & cause & -> & N & ->)].
    + destruct e1 as [e1|].
      * destruct H as (-> & _ & ->). rewrite app_nil_r. left.
        now apply no_read_failure_app.
      * destruct (exchange_fails_on_read _ _ _ _ _ _ _ _ _ H)
          as [N'|(L' & cause & -> & N' & ->)].
        -- left. repeat apply no_read_failure_app; auto.
        -- right. exists ((S ++ hs) ++ L')%list, (pid c1), cause.
           rewrite app_assoc. repeat split; auto.
           repeat apply no_read_failure_app; auto.
    + destruct H as (-> & _ & ->). rewrite app_nil_r. right.
      exists (S ++ L)%list, (pid c0), cause. rewrite app_assoc.
      repeat split; auto. now apply no_read_failure_app.
Qed.

(** ** When the command is started *)

Lemma reading_no_spawn_io id p rd r : reading id p rd r -> spawned rd = [].
Proof. apply reading_no_spawn. Qed.

Lemma spawned_Sent p r l : spawned (Sent p r :: l) = spawned l.
Proof. reflexivity. Qed.

Lemma handshake_no_spawn n p hs e : handshake n p hs e -> spawned hs = [].
Proof.
  intros [e1 _|rd e2 R|rd r e3 R _|rd r R];
    rewrite ?spawned_Sent, ?spawned_app, ?(reading_no_spawn _ _ _ _ R);
    reflexivity.
Qed.

Lemma ending_no_spawn t c r buf fin out :
  ending t c r buf fin out -> spawned fin = [].
Proof. intros []; reflexivity. Qed.

Lemma exchange_no_spawn m p t c w out t2 w2 tr :
  exchange m p t c w = ((out, t2), w2, tr) -> spawned tr = [].
Proof.
  intros H. apply exchange_shape in H as (_ & _ & H). cbv zeta in H.
  rewrite spawned_io.
  destruct H as [(e2 & -> & _ & ->)
                |[(rd & e2 & -> & R & ->)
                 |(rd & r & buf & fin & R & En & -> & _)]];
    rewrite ?spawned_Sent, ?spawned_app, ?(reading_no_spawn _ _ _ _ R),
      ?(ending_no_spawn _ _ _ _ _ _ En); reflexivity.
Qed.

(** A call starts the command at most once, before anything else, and only
    when the session it works on holds none. *)
Lemma Execute_spawn_shape m p t w out t' w' tr :
  Execute m p t w = ((out, t'), w', tr) ->
  (exists e, out = Fail e /\ spawn_error e /\ io tr = [] /\ t' = t
             /\ cmd (default (mkProcess None false) (process t)) = None
             /\ (command t = [] -> e = ErrNoCommand /\ w' = w)
             /\ (command t <> [] ->
                 w' = bump w /\ e <> ErrNoCommand
                 /\ forall o oe pl ex,
                     launch w (attempts w) <> Starts o oe pl ex))
  \/ (exists c0 S rest,
         session_start t w c0 w' S /\ io tr = (S ++ rest)%list
         /\ spawned rest = []
         /\ (isInitializeSent (default (mkProcess None false) (process t)) = false ->
             (rest = [] /\ exists e, out = Fail (ErrInitRequest e))
             \/ exists rest', rest = Sent (pid c0) (initRequest (nextID t)) :: rest')).
Proof.
  intros H.
  apply Execute_shape in H as (x & t1 & tr0 & tr1 & E & -> & H).
  rewrite io_app.
  pose proof (ensure_session_shape _ _ _ _ _ _ E) as Hs. cbv zeta in Hs.
  destruct Hs as [(e0 & -> & Hsp & -> & Hio & Hc & H0 & H1)
                 |(c0 & S & Hst & [(Hi & -> & -> & Hio)
                                  |(_ & e1 & c1 & hs & Hh & Hio & Sc & -> & ->)])].
  - destruct H as (-> & -> & ->). left. exists e0. rewrite Hio.
    repeat split; auto; now apply H0 || apply H1.
  - right. exists c0, S, (io tr1). rewrite Hio. repeat split; auto.
    + rewrite <- spawned_io. eapply exchange_no_spawn; eauto.
    + intros Hf. congruence.
  - right. exists c0, S, (hs ++ io tr1)%list. rewrite Hio, app_assoc.
    repeat split; auto.
    + rewrite spawned_app, (handshake_no_spawn _ _ _ _ Hh).
      destruct e1; [destruct H as (_ & _ & ->); reflexivity|].
      rewrite <- spawned_io. eapply exchange_no_spawn; eauto.
    + intros _. destruct Hh as [e1' _|rd e2 R|rd r e3 R _|rd r R].
      * left. destruct H as (-> & _ & ->). split; [reflexivity | eauto].
      * right. eexists. reflexivity.
      * right. eexists. reflexivity.
      * right. eexists. reflexivity.
Qed.



(** ** How a call ends *)

Lemma calm_nil : calm [].
Proof. constructor. Qed.

Lemma calm_app a b : calm a -> calm b -> calm (a ++ b).
Proof. intros A B. apply Forall_app. now split. Qed.

Lemma calm_Got p seen : calm (map (Got p) seen).
Proof. apply List.Forall_forall. intros e I. apply in_map_iff in I as (l & <- & _). exact I. Qed.

Lemma calm_Sent p r l : calm l -> calm (Sent p r :: l).
Proof. intros H. constructor; [exact I | exact H]. Qed.

Lemma reading_calm id p rd r : reading id p rd r -> calm rd.
Proof.
  intros [sk line r' _ _|sk cause _]; [apply calm_Got|].
  apply calm_app; [apply calm_Got|]. constructor; [exact I | constructor].
Qed.

Lemma handshake_calm n p hs e : handshake n p hs e -> calm hs.
Proof.
  intros [e1 _|rd e2 R|rd r e3 R _|rd r R]; try apply calm_nil;
    apply calm_Sent; try solve [eapply reading_calm; eauto].
  apply calm_app; [eapply reading_calm; eauto|].
  apply calm_Sent, calm_nil.
Qed.

Lemma session_start_calm t w c w' S : session_start t w c w' S -> calm S.
Proof. intros []; [apply calm_nil|]. constructor; [exact I | constructor]. Qed.

Lemma calm_no_wait l q we buf : calm l -> ~ In (Waited q we buf) l.
Proof.
  intros C I. unfold calm in C. rewrite List.Forall_forall in C.
  exact (C _ I).
Qed.

Lemma calm_no_close l q : calm l -> ~ In (StdinClosed q) l.
Proof.
  intros C I. unfold calm in C. rewrite List.Forall_forall in C.
  exact (C _ I).
Qed.

Lemma calm_no_kill l q : calm l -> ~ In (Killed q) l.
Proof.
  intros C I. unfold calm in C. rewrite List.Forall_forall in C.
  exact (C _ I).
Qed.

Lemma verdict_fail_not_command id line e :
  verdict id line = Stop (Fail e) -> ~ command_error e.
Proof.
  unfold verdict.
  destruct (message_of line) as [msg|]; [|intros H; injection H as <-; auto].
  destruct (is_notification msg); [discriminate|].
  destruct (response_of line) as [r|]; [|intros H; injection H as <-; auto].
  destruct (Response.Error r); [intros H; injection H as <-; auto|].
  destruct (Response.ID r =? id); discriminate.
Qed.

Lemma reading_fail_not_command id p rd e :
  reading id p rd (Fail e) -> ~ command_error e.
Proof.
  intros H. inversion H as [sk line r' P V|sk cause P]; subst.
  - eapply verdict_fail_not_command; eauto.
  - auto.
Qed.

Lemma send_error_not_command e : send_error e -> ~ command_error e.
Proof. destruct e; cbn; auto. Qed.

Lemma spawn_error_not_command e : spawn_error e -> ~ command_error e.
Proof. destruct e; cbn; auto. Qed.

Lemma handshake_error_not_command n p hs e :
  handshake n p hs (Some e) -> ~ command_error e.
Proof. intros H. inversion H; subst; cbn; auto. Qed.

Lemma ensure_session_flags t w x t1 w1 tr :
  ensure_session t w = ((x, t1), w1, tr) ->
  showServerLogs t1 = showServerLogs t /\ command t1 = command t
  /\ debug t1 = debug t
  /\ (process t = None -> process t1 = None)
  /\ (forall pr, process t = Some pr -> exists pr', process t1 = Some pr').
Proof.
  intros E. apply ensure_session_shape in E. cbv zeta in E.
  destruct E as [(e0 & _ & _ & -> & _)
                |(c0 & S & _ & [(_ & _ & -> & _)
                               |(_ & e1 & c1 & hs & _ & _ & _ & _ & ->)])];
    unfold keep; destruct (process t) eqn:Ep; cbn; rewrite ?Ep;
    repeat split; eauto; try discriminate.
Qed.

Lemma ensure_session_child t w c t1 w1 tr :
  ensure_session t w = ((Ok c, t1), w1, tr) ->
  exists c0 S hs,
    session_start t w c0 w1 S /\ same_command c0 c
    /\ io tr = (S ++ hs)%list /\ calm hs.
Proof.
  intros E. apply ensure_session_shape in E. cbv zeta in E.
  destruct E as [(e0 & E & _)
                |(c0 & S & Hst & [(_ & E & -> & Hio)
                                 |(_ & e1 & c1 & hs & Hh & Hio & Sc & E & ->)])].
  - discriminate.
  - injection E as ->. exists c0, S, []. rewrite app_nil_r.
    repeat split; auto. apply calm_nil.
  - destruct e1; [discriminate|]. injection E as ->.
    exists c0, S, hs. repeat split; auto; try apply Sc.
    eapply handshake_calm; eauto.
Qed.

Lemma ending_mode t t1 c r buf fin out :
  (process t = None -> process t1 = None) ->
  (forall pr, process t = Some pr -> exists pr', process t1 = Some pr') ->
  ending t1 c r buf fin out -> ending t c r buf fin out.
Proof.
  intros HN HS En.
  destruct (process t) as [pr|] eqn:Ep.
  - destruct (HS _ eq_refl) as (pr' & Ep').
    inversion En; subst; try congruence. now apply ending_kept with pr.
  - specialize (HN eq_refl). inversion En; subst; try congruence;
      econstructor; eauto.
Qed.

(** A call either fails before it has an answer, with no error of the
    command's exit and nothing done to end the child, or it gets its
    answer from the last line it read and ends as [ending] says. *)
Lemma Execute_ending m p t w out t' w' tr :
  Execute m p t w = ((out, t'), w', tr) ->
  (calm (io tr) /\ exists e, out = Fail e /\ ~ command_error e)
  \/ (exists c t1 tr0 pre r buf fin sk line,
         ensure_session t w = ((Ok c, t1), w', tr0)
         /\ io tr = (pre ++ fin)%list /\ calm pre
         /\ ending t c r buf fin out
         /\ buf = (if showServerLogs t
                   then late_stderr (after_answer (expected (nextID t1)) (output c))
                   else stderr_at_exit c)
         /\ lines_got tr = (sk ++ [line])%list
         /\ verdict (expected (nextID t1)) line = Stop (Ok r)
         /\ last (sent tr) = Some (Request.mk "2.0" m (nextID t1) p)).
Proof.
  intros H.
  apply Execute_shape in H as (x & t1 & tr0 & tr1 & E & -> & H).
  pose proof (ensure_session_flags _ _ _ _ _ _ E) as (Hlog & _ & _ & HN & HS).
  destruct x as [c|e].
  - destruct (ensure_session_child _ _ _ _ _ _ E)
      as (c0 & S & hs & Hst & Sc & Hio0 & Hhs).
    assert (C0 : calm (io tr0))
      by (rewrite Hio0; apply calm_app;
          [eapply session_start_calm; eauto | assumption]).
    pose proof (exchange_shape _ _ _ _ _ _ _ _ _ H) as (_ & _ & X).
    cbv zeta in X. rewrite io_app.
    destruct X as [(e2 & -> & He & ->)
                  |[(rd & e2 & -> & R & ->)
                   |(rd & r & buf & fin & R & En & Hio1 & Hbuf)]].
    + left. split; [now rewrite app_nil_r|].
      exists e2. split; [reflexivity|]. now apply send_error_not_command.
    + left. split.
      * apply calm_app; [assumption|]. apply calm_Sent. eapply reading_calm; eauto.
      * exists e2. split; [reflexivity|]. eapply reading_fail_not_command; eauto.
    + right. apply reading_ok_last in R as Hl.
      destruct Hl as (sk & line & Hl & _ & V).
      destruct (ending_no_lines _ _ _ _ _ _ En) as (Hfl & Hfs).
      exists c, t1, tr0,
        (io tr0 ++ Sent (pid c) (Request.mk "2.0" m (nextID t1) p) :: rd)%list,
        r, buf, fin, (lines_got tr0 ++ sk)%list, line.
      rewrite Hlog in Hbuf.
      repeat split; auto.
      * rewrite Hio1. rewrite <- app_assoc. reflexivity.
      * apply calm_app; [assumption|]. apply calm_Sent.
        eapply reading_calm; eauto.
      * eapply ending_mode; eauto.
      * rewrite lines_got_app, (lines_got_io tr1), Hio1.
        change (Sent (pid c) (Request.mk "2.0" m (nextID t1) p) :: rd ++ fin)%list
          with ([Sent (pid c) (Request.mk "2.0" m (nextID t1) p)] ++ rd ++ fin)%list.
        rewrite !lines_got_app, Hl, Hfl. cbn. now rewrite app_nil_r, app_assoc.
      * rewrite sent_app, (sent_io tr1), Hio1.
        change (Sent (pid c) (Request.mk "2.0" m (nextID t1) p) :: rd ++ fin)%list
          with ([Sent (pid c) (Request.mk "2.0" m (nextID t1) p)] ++ rd ++ fin)%list.
        rewrite !sent_app, (reading_no_sent _ _ _ _ R), Hfs. cbn.
        now rewrite last_snoc.
  - destruct H as (-> & _ & ->). rewrite app_nil_r. left.
    apply ensure_session_shape in E. cbv zeta in E.
    destruct E as [(e0 & E & Hsp & _ & Hio & _)
                  |(c0 & S & Hst & [(_ & E & _)
                                   |(_ & e1 & c1 & hs & Hh & Hio & Sc & E & _)])].
    + injection E as <-. rewrite Hio. split; [apply calm_nil|].
      exists e. split; [reflexivity|]. now apply spawn_error_not_command.
    + discriminate.
    + destruct e1 as [e1|]; [|discriminate]. injection E as <-.
      rewrite Hio. split.
      * apply calm_app; [eapply session_start_calm | eapply handshake_calm]; eauto.
      * exists e. split; [reflexivity|].
        eapply handshake_error_not_command; eauto.
Qed.

Lemma in_io e tr : In e tr -> is_io e = true -> In e (io tr).
Proof. intros I H. apply filter_In. now split. Qed.

Lemma io_in e tr : In e (io tr) -> In e tr.
Proof. intros I. now apply filter_In in I. Qed.

(** In ephemeral mode, what a call returns once it has seen the child exit,
    and where a command error comes from. *)
Lemma Execute_waited m p t w out t' w' tr :
  process t = None ->
  Execute m p t w = ((out, t'), w', tr) ->
  forall q waitErr buf,
    In (Waited q waitErr buf) tr ->
    exists line r,
      last (lines_got tr) = Some line /\ response_of line = Some r
      /\ out = match waitErr with
               | Some why =>
                   if String.eqb buf "" then Ok (Response.Result r)
                   else Fail (ErrCommand why)
               | None => Ok (Response.Result r)
               end.
Proof.
  intros Hp H q waitErr buf I.
  apply in_io in I; [|reflexivity].
  destruct (Execute_ending _ _ _ _ _ _ _ _ H)
    as [(C & _)|(c & t1 & tr0 & pre & r & buf' & fin & sk & line
                 & _ & Hio & Cpre & En & _ & Hl & V & _)].
  - destruct (calm_no_wait _ _ _ _ C I).
  - rewrite Hio in I. apply in_app_or in I as [I|I];
      [destruct (calm_no_wait _ _ _ _ Cpre I)|].
    apply verdict_ok_iff in V as (_ & Hr & _).
    exists line, r. rewrite Hl, last_snoc.
    split; [reflexivity|]. split; [assumption|].
    inversion En as [pr Hk|Hn Hx|why Hn Hx Hb|why Hn Hx Hb|Hn Hx];
      subst; try congruence;
      cbn in I; destruct I as [I|[I|[]]]; try discriminate;
      injection I as <- <- <-; try reflexivity.
    apply String.eqb_neq in Hb. now rewrite Hb.
Qed.

Lemma Execute_command_error m p t w out t' w' tr why :
  Execute m p t w = ((out, t'), w', tr) ->
  out = Fail (ErrCommand why) ->
  exists q buf, In (Waited q (Some why) buf) tr /\ buf <> "".
Proof.
  intros H ->.
  destruct (Execute_ending _ _ _ _ _ _ _ _ H)
    as [(_ & e & E & Hn)|(c & t1 & tr0 & pre & r & buf' & fin & sk & line
                          & _ & Hio & Cpre & En & _)].
  - injection E as <-. destruct (Hn I).
  - inversion En; subst. exists (pid c), buf'. split; [|assumption].
    apply io_in. rewrite Hio. apply in_or_app. right. right. now left.
Qed.

(** ** Notifications before the answer *)

Lemma printed_log line : log_notification line = true -> printed line = log_text line.
Proof.
  unfold log_notification, printed, log_text, log_of, notification_events.
  destruct (message_of line) as [msg|]; [|discriminate].
  destruct (is_notification msg); [|discriminate]. cbn [andb].
  destruct (obj_get "method" msg) as [[| | | |method| |]|]; try discriminate.
  intros ->. destruct (obj_get "params" msg) as [[]|]; reflexivity.
Qed.

Lemma log_notification_is_notification line :
  log_notification line = true -> notification line = true.
Proof.
  unfold log_notification, notification.
  destruct (message_of line) as [msg|]; [|discriminate].
  now destruct (is_notification msg).
Qed.

Lemma printed_answer line : notification line = false -> printed line = [].
Proof.
  unfold notification, printed.
  destruct (message_of line) as [msg|]; [|reflexivity]. now intros ->.
Qed.

Lemma notifications_passed id lines :
  Forall (fun l => notification l = true) lines -> passed id lines.
Proof.
  intros H. unfold passed. eapply List.Forall_impl; [|exact H].
  intros l Hl. apply verdict_next_iff. now left.
Qed.

Lemma flat_map_printed_logs lines :
  Forall (fun l => log_notification l = true) lines ->
  flat_map printed lines = flat_map log_text lines.
Proof.
  induction 1 as [|l ls Hl _ IH]; [reflexivity|].
  cbn [flat_map]. now rewrite IH, printed_log.
Qed.

(** An exchange whose request goes out and whose stream holds an answer
    after lines that the loop passes over. *)
Lemma exchange_answered m p t c w skipped answer r more :
  (forall why, p <> Unencodable why) ->
  stdin_plan c (writes c) = Written ->
  lines_of (output c) = (skipped ++ answer :: more)%list ->
  passed (expected (nextID t)) skipped ->
  verdict (expected (nextID t)) answer = Stop (Ok r) ->
  exists out t2 tr fin buf shown,
    exchange m p t c w = ((out, t2), w, tr)
    /\ io tr = (Sent (pid c) (Request.mk "2.0" m (nextID t) p)
                :: map (Got (pid c)) (skipped ++ [answer]) ++ fin)%list
    /\ ending t c r buf fin out
    /\ buf = (if showServerLogs t
              then late_stderr (after_answer (expected (nextID t)) (output c))
              else stderr_at_exit c)
    /\ texts tr = (flat_map printed (skipped ++ [answer]) ++ shown)%list
    /\ (showServerLogs t = false -> shown = []).
Proof.
  intros Henc Hw Hl Hp Hv.
  unfold exchange, bind, ret.
  set (t1 := set_nextID t (wrap64 (nextID t + 1))).
  destruct (sendRequest_written t1 c (Request.mk "2.0" m (nextID t) p) w)
    as (tr1 & E1 & Hio1 & Ht1); [exact Henc | exact Hw|].
  rewrite E1.
  destruct (read_loop_stops t1 (expected (nextID t)) (pid (wrote c))
              (stdout_end (wrote c)) (output (wrote c)) (stderrBuf (wrote c))
              skipped answer more (Ok r) Hl Hp Hv)
    as (rest & buf2 & EL & Hb).
  pose proof (read_loop_rest _ _ _ _ _ _ _ _ _ _ EL) as Hrest.
  unfold readResponse.
  change (wrap64 (nextID t1 - 1)) with (expected (nextID t)).
  rewrite EL.
  set (c2 := after_read (wrote c) rest buf2).
  destruct (printStderr t1 c2 w) as [[c3 w3] tr3] eqn:P.
  pose proof (printStderr_spec _ _ _ _ _ _ P) as (-> & Hio3 & Hc3 & Htr3).
  change (showServerLogs t1) with (showServerLogs t) in Hc3, Htr3.
  destruct (closeProcess t1 c3 w) as [[e3 w4] tr4] eqn:C.
  pose proof (closeProcess_spec _ _ _ _ _ _ C) as (_ & Ht4 & _).
  assert (Sc : same_command c c3).
  { subst c3. destruct (showServerLogs t); repeat split. }
  apply (closeProcess_ending t1 c c3 r) in C as (-> & Hend); [|exact Sc].
  assert (Hend' : ending t c r (stderr_at_exit c3) (io tr4)
                    (match e3 with
                     | Some err => Fail err
                     | None => Ok (Response.Result r)
                     end)).
  { inversion Hend; subst; econstructor; eassumption. }
  exists (match e3 with Some err => Fail err | None => Ok (Response.Result r) end),
    (keep t1 (mkProcess (Some c3) true)),
    (tr1 ++ read_events t1 (expected (nextID t)) (pid c) (skipped ++ [answer])
         ++ tr3 ++ tr4 ++ [])%list,
    (io tr4), (stderr_at_exit c3), (texts tr3).
  split; [destruct e3; reflexivity|].
  split; [trace_simpl; now rewrite Hio1, Hio3|].
  split; [exact Hend'|].
  split.
  - unfold stderr_at_exit. subst c3. cbn in Hrest, Hb.
    destruct (showServerLogs t); cbn.
    + now rewrite Hrest.
    + exact Hb.
  - split.
    + trace_simpl. now rewrite Ht1, Ht4, app_nil_r.
    + intros Hs. rewrite Hs in Htr3. now subst tr3.
Qed.

(** ** The identifiers that a call sends *)

Lemma sent_ids_app a b : sent_ids (a ++ b) = (sent_ids a ++ sent_ids b)%list.
Proof. unfold sent_ids. now rewrite sent_app, List.filter_app, map_app. Qed.

Lemma sent_ids_io tr : sent_ids tr = sent_ids (io tr).
Proof. unfold sent_ids. now rewrite sent_io. Qed.

Lemma sent_ids_no_sent l : sent l = [] -> sent_ids l = [].
Proof. unfold sent_ids. now intros ->. Qed.

Lemma sent_ids_Sent p r l :
  sent_ids (Sent p r :: l)
  = ((if carries_id r then [Request.ID r] else []) ++ sent_ids l)%list.
Proof. unfold sent_ids. cbn. now destruct (carries_id r). Qed.

Lemma session_start_ids t w c w' S : session_start t w c w' S -> sent_ids S = [].
Proof. intros []; reflexivity. Qed.

Lemma reading_ids id p rd r : reading id p rd r -> sent_ids rd = [].
Proof. intros R. apply sent_ids_no_sent. eapply reading_no_sent; eauto. Qed.

Lemma ending_ids t c r buf fin out : ending t c r buf fin out -> sent_ids fin = [].
Proof. intros []; reflexivity. Qed.

Lemma carries_id_pos m n p : 1 <= n -> carries_id (Request.mk "2.0" m n p) = true.
Proof. intros H. unfold carries_id. cbn. apply negb_true_iff, Z.eqb_neq. lia. Qed.

Lemma handshake_ids n p hs e :
  1 <= n -> handshake n p hs e ->
  sent_ids hs = match e with
                | Some (ErrInitRequest _) => []
                | _ => [n]
                end.
Proof.
  intros Hn [e1 _|rd e2 R|rd r e3 R _|rd r R]; [reflexivity| | |];
    rewrite sent_ids_Sent, ?sent_ids_app, (reading_ids _ _ _ _ R);
    unfold initRequest; rewrite carries_id_pos by assumption; reflexivity.
Qed.

(** What a call does to the counter and which identifiers it sends: the
    identifiers from the counter on, as far as it got. *)
Lemma Execute_ids m p t w out t' w' tr :
  1 <= nextID t -> nextID t + 2 < 2 ^ 63 ->
  Execute m p t w = ((out, t'), w', tr) ->
  exists k,
    (k <= 2)%nat
    /\ nextID t <= nextID t' <= nextID t + 2
    /\ sent_ids tr = count_from (nextID t) k
    /\ nextID t + Z.of_nat k <= nextID t'
    /\ (is_ok out = true -> nextID t' = nextID t + Z.of_nat k)
    /\ (is_ok out = true ->
        exists n, last (sent tr) = Some (Request.mk "2.0" m n p)
                  /\ nextID t' = n + 1
                  /\ n = nextID t
                         + (if isInitializeSent
                                 (default (mkProcess None false) (process t))
                            then 0 else 1)).
Proof.
  intros Hn Hb H.
  assert (W1 : wrap64 (nextID t + 1) = nextID t + 1) by (apply wrap64_id; lia).
  assert (W2 : wrap64 (nextID t + 1 + 1) = nextID t + 2)
    by (rewrite wrap64_id; lia).
  apply Execute_shape in H as (x & t1 & tr0 & tr1 & E & -> & H).
  rewrite sent_ids_app, sent_app, (sent_ids_io tr0), (sent_ids_io tr1).
  pose proof (ensure_session_shape _ _ _ _ _ _ E) as Hs. cbv zeta in Hs.
  destruct Hs as [(e0 & -> & _ & -> & Hio & _)
                 |(c0 & S & Hst & [(Hi & -> & -> & Hio)
                                  |(Hi & e1 & c1 & hs & Hh & Hio & Sc & -> & ->)])].
  - destruct H as (-> & -> & ->). rewrite Hio. exists 0%nat.
    repeat split; cbn; try lia; discriminate.
  - rewrite Hio, (session_start_ids _ _ _ _ _ Hst). cbn [app].
    pose proof (exchange_shape _ _ _ _ _ _ _ _ _ H) as (_ & (c' & _ & ->) & X).
    cbv zeta in X. rewrite !keep_nextID in *. cbn [nextID set_nextID] in *.
    rewrite W1.
    destruct X as [(e2 & -> & _ & Hio1)
                  |[(rd & e2 & -> & R & Hio1)
                   |(rd & r & buf & fin & R & En & Hio1 & _)]]; rewrite Hio1.
    + exists 0%nat. repeat split; cbn; try lia; discriminate.
    + exists 1%nat. rewrite sent_ids_Sent, (reading_ids _ _ _ _ R).
      rewrite carries_id_pos by assumption.
      repeat split; cbn; try lia; discriminate.
    + exists 1%nat. rewrite sent_ids_Sent, sent_ids_app,
        (reading_ids _ _ _ _ R), (ending_ids _ _ _ _ _ _ En).
      rewrite carries_id_pos by assumption.
      repeat split; cbn; try lia.
      intros _. exists (nextID t). rewrite Hi. split; [|lia].
      rewrite (sent_io tr1), Hio1.
      destruct (ending_no_lines _ _ _ _ _ _ En) as (_ & Hfs).
      destruct (session_start_no_lines _ _ _ _ _ Hst) as (_ & HS).
      rewrite (sent_io tr0), Hio, HS.
      change (Sent (pid c0) (Request.mk "2.0" m (nextID t) p) :: rd ++ fin)%list
        with ([Sent (pid c0) (Request.mk "2.0" m (nextID t) p)] ++ rd ++ fin)%list.
      rewrite !sent_app, (reading_no_sent _ _ _ _ R), Hfs. reflexivity.
  - rewrite Hio, sent_ids_app, (session_start_ids _ _ _ _ _ Hst). cbn [app].
    rewrite (handshake_ids _ _ _ _ Hn Hh).
    destruct e1 as [e1|].
    + destruct H as (-> & -> & ->). rewrite keep_nextID. cbn [nextID set_nextID].
      rewrite W1.
      assert (Hk : exists k, (k <= 1)%nat
                 /\ match e1 with ErrInitRequest _ => [] | _ => [nextID t] end
                    = count_from (nextID t) k).
      { destruct e1; (exists 0%nat; split; [lia | reflexivity])
                     || (exists 1%nat; split; [lia | reflexivity]). }
      destruct Hk as (k & Hk & ->). exists k.
      repeat split; cbn [is_ok]; try lia; try discriminate.
      cbn. apply app_nil_r.
    + pose proof (exchange_shape _ _ _ _ _ _ _ _ _ H) as (_ & (c' & _ & ->) & X).
      cbv zeta in X. rewrite !keep_nextID in *. cbn [nextID set_nextID] in *.
      rewrite W1 in *. rewrite W2.
      destruct X as [(e2 & -> & _ & Hio1)
                    |[(rd & e2 & -> & R & Hio1)
                     |(rd & r & buf & fin & R & En & Hio1 & _)]]; rewrite Hio1.
      * exists 1%nat. repeat split; cbn; try lia; discriminate.
      * exists 2%nat. rewrite sent_ids_Sent, (reading_ids _ _ _ _ R).
        rewrite carries_id_pos by lia.
        repeat split; cbn; try lia; discriminate.
      * exists 2%nat. rewrite sent_ids_Sent, sent_ids_app,
          (reading_ids _ _ _ _ R), (ending_ids _ _ _ _ _ _ En).
        rewrite carries_id_pos by lia.
        repeat split; cbn; try lia.
        intros _. exists (nextID t + 1). rewrite Hi. split; [|lia].
        rewrite (sent_io tr1), Hio1.
        destruct (ending_no_lines _ _ _ _ _ _ En) as (_ & Hfs).
        change (Sent (pid c1) (Request.mk "2.0" m (nextID t + 1) p) :: rd ++ fin)%list
          with ([Sent (pid c1) (Request.mk "2.0" m (nextID t + 1) p)] ++ rd ++ fin)%list.
        rewrite !sent_app, (reading_no_sent _ _ _ _ R), Hfs. cbn.
        now rewrite last_snoc.
Qed.

(** ** The identifiers of a program *)

Lemma count_from_bounds n k :
  Forall (fun i => n <= i < n + Z.of_nat k) (count_from n k).
Proof.
  revert n. induction k as [|k IH]; intros n; [constructor|].
  cbn [count_from]. constructor; [lia|].
  eapply List.Forall_impl; [|apply IH]. cbn beta. intros i Hi. lia.
Qed.

Lemma count_from_sorted n k : StronglySorted Z.lt (count_from n k).
Proof.
  revert n. induction k as [|k IH]; intros n; [constructor|].
  cbn [count_from]. constructor; [apply IH|].
  eapply List.Forall_impl; [|apply count_from_bounds]. cbn beta. intros i Hi. lia.
Qed.

Lemma count_from_app n a b :
  count_from n (a + b) = (count_from n a ++ count_from (n + Z.of_nat a) b)%list.
Proof.
  revert n. induction a as [|a IH]; intros n.
  - cbn. now rewrite Z.add_0_r.
  - cbn [count_from Nat.add app]. rewrite IH. do 3 f_equal. lia.
Qed.

Lemma sorted_app_between (a b : list Z) lo mid hi :
  StronglySorted Z.lt a -> StronglySorted Z.lt b ->
  Forall (fun i => lo <= i < mid) a -> Forall (fun i => mid <= i < hi) b ->
  StronglySorted Z.lt (a ++ b).
Proof.
  intros Sa Sb Fa Fb. induction Sa as [|x a Sa IH Hx]; [exact Sb|].
  cbn [app]. inversion Fa as [|? ? Hx' Fa']; subst.
  constructor; [now apply IH|].
  apply Forall_app. split; [exact Hx|].
  eapply List.Forall_impl; [|exact Fb]. cbn beta. intros i Hi. lia.
Qed.

Lemma nextID_SetCloseAfterExecute t v : nextID (SetCloseAfterExecute t v) = nextID t.
Proof. now destruct v. Qed.

Lemma run_ids calls :
  forall t w outs t' w' tr,
    1 <= nextID t ->
    nextID t + 2 * Z.of_nat (length calls) < 2 ^ 63 ->
    run calls t w = ((outs, t'), w', tr) ->
    nextID t <= nextID t' <= nextID t + 2 * Z.of_nat (length calls)
    /\ StronglySorted Z.lt (sent_ids tr)
    /\ Forall (fun i => nextID t <= i < nextID t') (sent_ids tr)
    /\ (Forall (fun o => is_ok o = true) outs ->
        sent_ids tr = count_from (nextID t) (Z.to_nat (nextID t' - nextID t))).
Proof.
  induction calls as [|[m p|v|v] calls IH]; intros t w outs t' w' tr Hn Hb H.
  - injection H as <- <- <- <-. cbn. repeat split; try lia; try constructor.
    intros _. now rewrite Z.sub_diag.
  - cbn [run] in H. unfold bind, ret in H. cbn [length] in Hb.
    destruct (Execute m p t w) as [[[o t1] w1] tr1] eqn:E.
    destruct (run calls t1 w1) as [[[os t2] w2] tr2] eqn:R.
    injection H as <- <- <- <-.
    assert (Hb1 : nextID t + 2 < 2 ^ 63) by lia.
    destruct (Execute_ids _ _ _ _ _ _ _ _ Hn Hb1 E)
      as (k & Hk & Hr & Hids & Hlo & Hok & _).
    assert (Hn1 : 1 <= nextID t1) by lia.
    assert (Hb2 : nextID t1 + 2 * Z.of_nat (length calls) < 2 ^ 63) by lia.
    destruct (IH _ _ _ _ _ _ Hn1 Hb2 R) as (Hr2 & S2 & F2 & Hok2).
    rewrite app_nil_r, sent_ids_app.
    assert (F1 : Forall (fun i => nextID t <= i < nextID t1) (sent_ids tr1)).
    { rewrite Hids. eapply List.Forall_impl; [|apply count_from_bounds].
      cbn beta. intros i Hi. lia. }
    split; [cbn [length]; lia|]. split; [|split].
    + eapply sorted_app_between; eauto. rewrite Hids. apply count_from_sorted.
    + apply Forall_app. split.
      * eapply List.Forall_impl; [|exact F1]. cbn beta. intros i Hi. lia.
      * eapply List.Forall_impl; [|exact F2]. cbn beta. intros i Hi. lia.
    + intros Hall. inversion Hall as [|? ? Ho Hos]; subst.
      rewrite (Hok2 Hos), Hids. specialize (Hok Ho).
      replace (Z.to_nat (nextID t2 - nextID t))
        with (k + Z.to_nat (nextID t2 - nextID t1))%nat by lia.
      rewrite count_from_app. do 2 f_equal. lia.
  - cbn [run] in H. cbn [length] in Hb.
    assert (Hn' : 1 <= nextID (SetCloseAfterExecute t v))
      by (rewrite nextID_SetCloseAfterExecute; lia).
    assert (Hb' : nextID (SetCloseAfterExecute t v)
                  + 2 * Z.of_nat (length calls) < 2 ^ 63)
      by (rewrite nextID_SetCloseAfterExecute; lia).
    destruct (IH _ _ _ _ _ _ Hn' Hb' H) as (H1 & H2 & H3 & H4).
    rewrite nextID_SetCloseAfterExecute in *. cbn [length].
    repeat split; auto; lia.
  - cbn [run] in H. cbn [length] in Hb.
    assert (Hn' : 1 <= nextID (SetShowServerLogs t v)) by exact Hn.
    assert (Hb' : nextID (SetShowServerLogs t v)
                  + 2 * Z.of_nat (length calls) < 2 ^ 63)
      by (cbn [nextID SetShowServerLogs]; lia).
    destruct (IH _ _ _ _ _ _ Hn' Hb' H) as (H1 & H2 & H3 & H4).
    cbn [nextID SetShowServerLogs] in *. cbn [length].
    repeat split; auto; lia.
Qed.

(** * The claims *)



(** C7.  A read of the child's standard output that fails, the end of the
    stream included, ends the call with the read error, and nothing more is
    done to the child (no other read, no request, no restart); and a line
    that the generic decoding refuses, or that is not a notification and
    that the decoding as a Response refuses, ends the call with an error
    whose text holds the line as it was read.  The generic decoding refuses
    a line that is not JSON, one that is neither an object nor null, and
    one that holds, at any depth, a number that does not become a
    [float64]. *)
Theorem C7_read_and_parse_failures_are_fatal m p t w out t' w' tr :
  Execute m p t w = ((out, t'), w', tr) ->
  (forall pre q post,
      io tr = (pre ++ ReadFailed q :: post)%list ->
      post = []
      /\ exists cause,
          out = Fail (ErrRead cause)
          \/ out = Fail (ErrInitResponse (ErrRead cause)))
  /\ (forall line,
         In line (lines_got tr) ->
         message_of line = None
         \/ (notification line = false /\ response_of line = None) ->
         exists err, out = Fail err /\ contains (error_text err) (raw line))
  /\ (forall line,
         message_of line = None
         <-> match syntax line with
             | None => True
             | Some v =>
                 converts v = false
                 \/ match v with JObj _ | JNull => False | _ => True end
             end).
Proof.
  intros H. split; [|split]; cycle 2.
  { intros line. unfold message_of, decode_message.
    destruct (syntax line) as [v|]; [|tauto].
    destruct v; try (split; [auto|reflexivity]).
    - split; [discriminate|]. intros [D|[]]. discriminate.
    - destruct (converts (JObj members)); split; try discriminate; auto.
      intros [D|[]]. discriminate. }
  - intros pre q post E.
    destruct (Execute_fails_on_read _ _ _ _ _ _ _ _ H)
      as [N|(L & p0 & cause & EL & N & Ho)].
    + exfalso. apply (N q). rewrite E. apply in_or_app. right. now left.
    + rewrite EL in E. split; [|eauto].
      eapply read_failure_is_last; eauto.
  - intros line I Hbad.
    assert (V : exists e, verdict 0 line = Stop (Fail e)
                          /\ forall pre, contains (pre ++ error_text e) (raw line)).
    { unfold verdict, notification in *.
      destruct Hbad as [Hm|(Hn & Hr)].
      - rewrite Hm. eexists. split; [reflexivity|]. intros pre.
        apply contains_prefixed. cbn [error_text].
        exists ("error unmarshaling message: " ++ json_err line ++ ", response: "), "".
        now rewrite append_nil_r, !append_assoc.
      - destruct (message_of line) as [msg|].
        + rewrite Hn, Hr. eexists. split; [reflexivity|]. intros pre.
          apply contains_prefixed. cbn [error_text].
          exists ("error unmarshaling response: " ++ json_err line ++ ", response: "), "".
          now rewrite append_nil_r, !append_assoc.
        + eexists. split; [reflexivity|]. intros pre.
          apply contains_prefixed. cbn [error_text].
          exists ("error unmarshaling message: " ++ json_err line ++ ", response: "), "".
          now rewrite append_nil_r, !append_assoc. }
    destruct V as (e & V & Hc).
    destruct (Execute_stop_fail _ _ _ _ _ _ _ _ _ _ _ H I V) as [->| ->];
      eexists; (split; [reflexivity|]).
    + apply (Hc "").
    + apply (Hc "init response failed: ").
Qed.

(** A server that writes a line that is not JSON after the handshake: the
    call fails and the text of the error holds the line. *)
Lemma C7_witness :
  exists err,
    fst (fst (fst (Execute "ping" Nil (fresh ["srv"])
                     (world_of garbling_server (Exits None)))))
    = Fail err
    /\ contains (error_text err) ("Listening on stdio" ++ LF).
Proof.
  destruct (Execute "ping" Nil (fresh ["srv"])
              (world_of garbling_server (Exits None)))
    as [[[out t'] w'] tr] eqn:E.
  destruct (C7_read_and_parse_failures_are_fatal _ _ _ _ _ _ _ _ E)
    as (_ & H & _).
  apply (H (junk "Listening on stdio"
              "invalid character 'L' looking for beginning of value")).
  - vm_compute in E. injection E as _ _ _ <-. vm_compute. auto.
  - left. reflexivity.
Defined.



(** C9.  [SetCloseAfterExecute(false)] puts a new session with no command
    and no handshake in the place of the kept one, whatever that one was,
    and does nothing to the child of the old one (no event: its standard
    input is not closed, it is not killed); the next [Execute] then starts
    the command again and begins with the [initialize] request. *)
Theorem C9_fresh_session_on_every_set_false t :
  let t' := SetCloseAfterExecute t false in
  process t' = Some (mkProcess None false)
  /\ command t' = command t /\ nextID t' = nextID t
  /\ debug t' = debug t /\ showServerLogs t' = showServerLogs t
  /\ (forall w, run [CallSetCloseAfterExecute false] t w = (([], t'), w, []))
  /\ (forall m p w out t'' w' tr o oe pl ex,
         command t <> [] ->
         launch w (attempts w) = Starts o oe pl ex ->
         Execute m p t' w = ((out, t''), w', tr) ->
         exists rest,
           io tr = Spawned (attempts w) :: rest
           /\ ((rest = [] /\ exists e, out = Fail (ErrInitRequest e))
               \/ exists rest',
                   rest = Sent (attempts w) (initRequest (nextID t)) :: rest')).
Proof.
  cbv zeta. repeat split.
  intros m p w out t'' w' tr o oe pl ex Hne El H.
  apply Execute_spawn_shape in H
    as [(e & -> & Hsp & Hio & -> & Hc & H0 & H1)
       |(c0 & S & rest & Hst & Hio & Hsr & Hinit)].
  - destruct (H1 Hne) as (_ & _ & Hl). destruct (Hl _ _ _ _ El).
  - destruct Hst as [pr c Hp Hcmd|o' oe' pl' ex' Hcmd _ El'].
    + cbn in Hp. injection Hp as <-. discriminate.
    + exists rest. split; [exact Hio|]. apply Hinit. reflexivity.
Qed.

(** On a transport whose kept session is live and initialized, after
    [SetCloseAfterExecute(false)] the next call starts a second child and
    sends it [initialize] with the next identifier. *)
Lemma C9_witness :
  process live_transport
  = Some (mkProcess (Some (mkChild 0 [] "EOF" always_written 3 (Exits None) ""))
                    true)
  /\ exists rest,
      io (snd (Execute "ping" Nil (SetCloseAfterExecute live_transport false)
                 live_world))
      = Spawned 1 :: Sent 1 (initRequest 3) :: rest.
Proof.
  split; [reflexivity|].
  destruct (Execute "ping" Nil (SetCloseAfterExecute live_transport false)
              live_world) as [[[out t''] w'] tr] eqn:E.
  destruct (C9_fresh_session_on_every_set_false live_transport)
    as (_ & _ & _ & _ & _ & _ & H).
  destruct (H "ping" Nil live_world out t'' w' tr
              echo_server "EOF" always_written (Exits None))
    as (rest & Hio & [(-> & e & ->)|(rest' & ->)]).
  - discriminate.
  - reflexivity.
  - exact E.
  - vm_compute in E. discriminate.
  - exists rest'. exact Hio.
Defined.

(** C2, as stated, fails: the call below read the answer to its request,
    with the result [{"pong":true}], and [Execute] returned the error of
    the command's exit, not that result. *)
Lemma C2_counterexample :
  last (lines_got (snd (Execute "ping" Nil (fresh ["srv"]) crashing_world)))
  = Some (reply 2 [("pong", JBool true)])
  /\ fst (fst (fst (Execute "ping" Nil (fresh ["srv"]) crashing_world)))
     = Fail (ErrCommand "exit status 1")
  /\ fst (fst (fst (Execute "ping" Nil (fresh ["srv"]) crashing_world)))
     <> Ok (Some [("pong", JBool true)]).
Proof. vm_compute. repeat split. discriminate. Qed.

(** C2, amended.  In ephemeral mode [closeProcess] returns a command error
    when [cmd.Wait()] returns an error within the second and the buffer
    behind the standard error is not empty, and no error when the wait
    error is nil or the buffer is empty; [Execute] returns that error in
    the place of the result it had read, and the result otherwise. *)
Theorem C2_exit_error_replaces_result m p t w out t' w' tr :
  process t = None ->
  Execute m p t w = ((out, t'), w', tr) ->
  (forall c w0 waitErr,
      exit_plan c = Exits waitErr ->
      fst (fst (closeProcess t c w0))
      = match waitErr with
        | Some why =>
            if String.eqb (stderr_at_exit c) "" then None
            else Some (ErrCommand why)
        | None => None
        end)
  /\ (forall q waitErr buf,
         In (Waited q waitErr buf) tr ->
         exists line r,
           last (lines_got tr) = Some line /\ response_of line = Some r
           /\ out = match waitErr with
                    | Some why =>
                        if String.eqb buf "" then Ok (Response.Result r)
                        else Fail (ErrCommand why)
                    | None => Ok (Response.Result r)
                    end)
  /\ (forall why,
         out = Fail (ErrCommand why) ->
         exists q buf, In (Waited q (Some why) buf) tr /\ buf <> "").
Proof.
  intros Hp H. split; [|split].
  - intros c w0 waitErr Hx.
    destruct (closeProcess t c w0) as [[e w1] tr1] eqn:C.
    apply closeProcess_spec in C as (_ & _ & C).
    rewrite Hp, Hx in C. destruct C as (_ & ->). reflexivity.
  - exact (Execute_waited _ _ _ _ _ _ _ _ Hp H).
  - intros why. exact (Execute_command_error _ _ _ _ _ _ _ _ why H).
Qed.

(** At a server that exits cleanly, the wait error is nil and the result
    is returned, whatever the server wrote to its standard error. *)
Lemma C2_witness :
  fst (fst (fst (Execute "ping" Nil (fresh ["srv"])
                   (world_of crashing_server (Exits None)))))
  = Ok (Some [("pong", JBool true)]).
Proof.
  destruct (Execute "ping" Nil (fresh ["srv"])
              (world_of crashing_server (Exits None)))
    as [[[out t'] w'] tr] eqn:E.
  destruct (C2_exit_error_replaces_result
              "ping" Nil (fresh ["srv"]) _ out t' w' tr eq_refl E)
    as (_ & H & _).
  destruct (H 0%nat None ("warming up" ++ LF)) as (line & r & Hl & Hr & ->).
  - vm_compute in E. injection E as _ _ _ <-. vm_compute. auto 10.
  - vm_compute in E. injection E as _ _ _ <-.
    vm_compute in Hl. injection Hl as <-.
    vm_compute in Hr. injection Hr as <-. reflexivity.
Defined.

(** C6.  In ephemeral mode, when the child has not exited within the second
    after its standard input was closed, the call kills it, returns no
    error for it, and returns the result it had read. *)
Theorem C6_timeout_kills_and_returns_result m p t w out t' w' tr o oe pl :
  process t = None ->
  launch w (attempts w) = Starts o oe pl StillRunning ->
  Execute m p t w = ((out, t'), w', tr) ->
  (forall why, out <> Fail (ErrCommand why))
  /\ (forall q waitErr buf, ~ In (Waited q waitErr buf) tr)
  /\ (forall q,
         In (StdinClosed q) tr ->
         q = attempts w
         /\ (exists pre, io tr = (pre ++ [StdinClosed q; Killed q])%list
                         /\ calm pre)
         /\ exists line r,
             last (lines_got tr) = Some line /\ response_of line = Some r
             /\ out = Ok (Response.Result r))
  /\ (forall res, out = Ok res -> In (Killed (attempts w)) tr).
Proof.
  intros Hp Hl H.
  destruct (Execute_ending _ _ _ _ _ _ _ _ H)
    as [(C & e & -> & Hn)|(c & t1 & tr0 & pre & r & buf' & fin & sk & line
                           & E & Hio & Cpre & En & _ & Hg & V & _)].
  - repeat split.
    + intros why E. injection E as ->. apply Hn. exact I.
    + intros q we buf I. apply in_io in I; [|reflexivity].
      destruct (calm_no_wait _ _ _ _ C I).
    + apply in_io in H0; [|reflexivity]. destruct (calm_no_close _ _ C H0).
    + apply in_io in H0; [|reflexivity]. destruct (calm_no_close _ _ C H0).
    + apply in_io in H0; [|reflexivity]. destruct (calm_no_close _ _ C H0).
    + discriminate.
  - destruct (ensure_session_child _ _ _ _ _ _ E)
      as (c0 & S & hs & Hst & (Hpid & Hexit & _) & _).
    assert (Hc : pid c = attempts w /\ exit_plan c = StillRunning).
    { destruct Hst as [pr c0 Hpr _|o' oe' pl' ex' _ _ El]; [congruence|].
      rewrite Hl in El. injection El as <- <- <- <-. cbn in *. auto. }
    destruct Hc as (Hpc & Hxc).
    apply verdict_ok_iff in V as (_ & Hr & _).
    inversion En; subst; try congruence. rewrite Hpc in *.
    repeat split.
    + discriminate.
    + intros q we buf I. apply in_io in I; [|reflexivity].
      rewrite Hio in I. apply in_app_or in I as [I|I].
      * destruct (calm_no_wait _ _ _ _ Cpre I).
      * cbn in I. intuition discriminate.
    + apply in_io in H2; [|reflexivity]. rewrite Hio in H2.
      apply in_app_or in H2 as [I|I].
      * destruct (calm_no_close _ _ Cpre I).
      * cbn in I. destruct I as [I|[I|[]]]; congruence.
    + apply in_io in H2; [|reflexivity]. rewrite Hio in H2.
      apply in_app_or in H2 as [I|I].
      * destruct (calm_no_close _ _ Cpre I).
      * cbn in I. destruct I as [I|[I|[]]]; try discriminate.
        injection I as <-. exists pre. auto.
    + exists line, r. rewrite Hg, last_snoc. auto.
    + intros res _. apply io_in. rewrite Hio. apply in_or_app.
      right. right. now left.
Qed.

(** The stub server that lingers after its standard input is closed: it is
    killed and the call returns the result of [ping]. *)
Lemma C6_witness :
  fst (fst (fst (Execute "ping" Nil (fresh ["srv"]) lingering_world)))
  = Ok (Some [("pong", JBool true)])
  /\ In (Killed 0) (snd (Execute "ping" Nil (fresh ["srv"]) lingering_world)).
Proof.
  destruct (Execute "ping" Nil (fresh ["srv"]) lingering_world)
    as [[[out t'] w'] tr] eqn:E.
  destruct (C6_timeout_kills_and_returns_result
              "ping" Nil (fresh ["srv"]) lingering_world out t' w' tr
              echo_server "EOF" always_written eq_refl eq_refl E)
    as (_ & _ & Hc & Hk).
  destruct (Hc 0%nat) as (_ & _ & line & r & Hl & Hr & ->).
  - vm_compute in E. injection E as _ _ _ <-. vm_compute. auto 10.
  - split.
    + vm_compute in E. injection E as _ _ _ <-.
      vm_compute in Hl. injection Hl as <-.
      vm_compute in Hr. injection Hr as <-. reflexivity.
    + cbn [snd]. eapply Hk. reflexivity.
Defined.

(** C10.  With the server logs shown, [printStderr] empties the buffer
    behind the standard error (and prints what it held) between the read
    of the response and [closeProcess]; so in ephemeral mode the buffer that
    [closeProcess] looks at holds only what the child wrote after the read
    in which the response came, a command error is returned only when that
    is not empty, and an exit with an error whose output was all printed
    before ends the call as a success. *)
Theorem C10_logs_drain_before_close m p t w c t1 w1 tr0 out t' w' tr :
  showServerLogs t = true ->
  process t = None ->
  ensure_session t w = ((Ok c, t1), w1, tr0) ->
  Execute m p t w = ((out, t'), w', tr) ->
  let late := late_stderr (after_answer (expected (nextID t1)) (output c)) in
  (forall c0 w0,
      printStderr t c0 w0 = (set_stderrBuf c0 "", w0, server_log (stderrBuf c0)))
  /\ (forall q waitErr buf, In (Waited q waitErr buf) tr -> buf = late)
  /\ (forall why, out = Fail (ErrCommand why) -> late <> "")
  /\ (late = "" ->
      forall q waitErr buf,
        In (Waited q waitErr buf) tr ->
        exists line r,
          last (lines_got tr) = Some line /\ response_of line = Some r
          /\ out = Ok (Response.Result r)).
Proof.
  intros Hlog Hp E H late.
  assert (Hbuf : forall q waitErr buf, In (Waited q waitErr buf) tr -> buf = late).
  { intros q waitErr buf I. apply in_io in I; [|reflexivity].
    destruct (Execute_ending _ _ _ _ _ _ _ _ H)
      as [(C & _)|(c' & t1' & tr0' & pre & r & buf' & fin & sk & line
                   & E' & Hio & Cpre & En & Hb & _)].
    - destruct (calm_no_wait _ _ _ _ C I).
    - assert (w' = w1) by (apply Execute_shape in H
                             as (? & ? & ? & ? & E2 & _); congruence).
      subst w'. rewrite E in E'. injection E' as <- <- <-.
      rewrite Hlog in Hb. fold late in Hb.
      rewrite Hio in I. apply in_app_or in I as [I|I];
        [destruct (calm_no_wait _ _ _ _ Cpre I)|].
      inversion En; subst; try congruence;
        cbn in I; destruct I as [I|[I|[]]]; try discriminate;
        now injection I as _ _ <-. }
  split; [|split; [exact Hbuf|split]].
  - intros c0 w0. unfold printStderr. rewrite Hlog. cbn [negb].
    destruct (String.eqb (stderrBuf c0) "") eqn:Eb; [|reflexivity].
    apply String.eqb_eq in Eb. rewrite Eb. destruct c0; cbn in *. now subst.
  - intros why Ho.
    destruct (Execute_command_error _ _ _ _ _ _ _ _ why H Ho)
      as (q & buf & I & Hne).
    now rewrite <- (Hbuf _ _ _ I).
  - intros Hlate q waitErr buf I.
    pose proof (Hbuf _ _ _ I) as ->.
    destruct (Execute_waited _ _ _ _ _ _ _ _ Hp H _ _ _ I)
      as (line & r & Hl & Hr & Ho).
    exists line, r. split; [assumption|]. split; [assumption|].
    rewrite Ho. destruct waitErr; [|reflexivity].
    apply String.eqb_eq in Hlate. now rewrite Hlate.
Qed.

(** The server that failed the call of the counterexample to C2 does not
    fail it when the server logs are shown: what it wrote to its standard
    error was printed and dropped before the end of the call. *)
Lemma C10_witness :
  fst (fst (fst (Execute "ping" Nil (SetShowServerLogs (fresh ["srv"]) true)
                   crashing_world)))
  = Ok (Some [("pong", JBool true)])
  /\ texts (snd (Execute "ping" Nil (SetShowServerLogs (fresh ["srv"]) true)
                   crashing_world))
     = ["[>] warming up" ++ LF].
Proof.
  split; [|reflexivity].
  destruct (ensure_session (SetShowServerLogs (fresh ["srv"]) true) crashing_world)
    as [[[x t1] w1] tr0] eqn:E.
  destruct x as [c|e]; [|vm_compute in E; discriminate].
  destruct (Execute "ping" Nil (SetShowServerLogs (fresh ["srv"]) true)
              crashing_world) as [[[out t'] w'] tr] eqn:X.
  destruct (C10_logs_drain_before_close
              "ping" Nil (SetShowServerLogs (fresh ["srv"]) true) crashing_world
              c t1 w1 tr0 out t' w' tr eq_refl eq_refl E X)
    as (_ & _ & _ & H).
  destruct (H ltac:(vm_compute in E; injection E as <- <- _ _; reflexivity)
              0%nat (Some "exit status 1") "")
    as (line & r & Hl & Hr & ->).
  - vm_compute in X. injection X as _ _ _ <-. vm_compute. auto 10.
  - vm_compute in X. injection X as _ _ _ <-.
    vm_compute in Hl. injection Hl as <-.
    vm_compute in Hr. injection Hr as <-. reflexivity.
Defined.
(** * Further properties of the transport *)

(** ** Identifiers *)

Lemma sorted_NoDup (l : list Z) : StronglySorted Z.lt l -> List.NoDup l.
Proof.
  induction 1 as [|x l S IH Hx]; constructor; [|exact IH].
  intros I. rewrite List.Forall_forall in Hx. specialize (Hx _ I). lia.
Qed.

(** What a call leaves of the session the transport keeps. *)
Lemma Execute_process m p t w out t' w' tr :
  Execute m p t w = ((out, t'), w', tr) ->
  (process t = None -> process t' = None)
  /\ (forall pr, process t = Some pr ->
        exists pr', process t' = Some pr'
          /\ (is_ok out = true ->
              isInitializeSent pr' = true /\ cmd pr' <> None)).
Proof.
  intros H. apply Execute_shape in H as (x & t1 & tr0 & tr1 & E & -> & H).
  pose proof (ensure_session_flags _ _ _ _ _ _ E) as (_ & _ & _ & HN & HS).
  destruct x as [c|e].
  - apply exchange_shape in H as (_ & (c' & _ & ->) & _).
    split.
    + intros Hp. rewrite keep_process. cbn [process set_nextID].
      now rewrite (HN Hp).
    + intros pr Hp. destruct (HS _ Hp) as (pr' & Hp').
      rewrite keep_process. cbn [process set_nextID]. rewrite Hp'.
      eexists. split; [reflexivity|]. intros _. cbn. split; [reflexivity|discriminate].
  - destruct H as (-> & -> & _). split; [exact HN|].
    intros pr Hp. destruct (HS _ Hp) as (pr' & Hp').
    exists pr'. split; [exact Hp'|]. discriminate.
Qed.

(** X1.  The identifiers of a transport start at 1 and are never reset:
    whatever the calls made on a transport that [NewStdio] returned
    ([Execute] with any outcome, [SetCloseAfterExecute],
    [SetShowServerLogs]), the identifiers of the requests that went out are
    strictly increasing, so none is used twice, also across the children of
    ephemeral sessions; all lie from 1 up to the counter that is left; and
    when every call succeeded they are 1, 2, 3, ... without a gap, the
    handshakes taking identifiers like the other requests. *)
Theorem identifiers_increase command calls w t0 w0 tr0 outs t' w' tr :
  2 * Z.of_nat (length calls) < 2 ^ 63 - 1 ->
  NewStdio command w = (t0, w0, tr0) ->
  run calls t0 w0 = ((outs, t'), w', tr) ->
  nextID t0 = 1
  /\ StronglySorted Z.lt (sent_ids tr)
  /\ List.NoDup (sent_ids tr)
  /\ Forall (fun i => 1 <= i < nextID t') (sent_ids tr)
  /\ (Forall (fun o => is_ok o = true) outs ->
      sent_ids tr = count_from 1 (Z.to_nat (nextID t' - 1))).
Proof.
  intros Hb HN H. unfold NewStdio in HN. injection HN as <- <- <-.
  assert (H1 : 1 <= nextID (mkStdio None command 1 (env_debug w) false))
    by (cbn; lia).
  assert (H2 : nextID (mkStdio None command 1 (env_debug w) false)
               + 2 * Z.of_nat (length calls) < 2 ^ 63) by (cbn; lia).
  destruct (run_ids calls _ _ _ _ _ _ H1 H2 H) as (_ & S & F & A).
  cbn [nextID] in *.
  split; [reflexivity|]. split; [exact S|]. split; [now apply sorted_NoDup|].
  split; assumption.
Qed.

Lemma identifiers_increase_witness :
  sent_ids (snd (run two_pings (fresh ["srv"]) echo_world)) = [1; 2; 3; 4].
Proof.
  destruct (run two_pings (fresh ["srv"]) echo_world)
    as [[[outs t'] w'] tr] eqn:E.
  destruct (identifiers_increase ["srv"] two_pings echo_world
              (fresh ["srv"]) echo_world [] outs t' w' tr)
    as (_ & _ & _ & _ & H).
  - cbn. lia.
  - reflexivity.
  - exact E.
  - cbn [snd]. rewrite H.
    + vm_compute in E. injection E as _ <- _ _. reflexivity.
    + vm_compute in E. injection E as <- _ _ _.
      repeat constructor.
Defined.

(** X2.  From one successful call to the next, the identifier of the
    method request grows by two on an ephemeral transport (each call has a
    handshake of its own, which takes an identifier) and by one on a
    transport that keeps its session. *)
Theorem method_identifier_step m1 p1 m2 p2 t w r1 t1 w1 tr1 r2 t2 w2 tr2 :
  1 <= nextID t -> nextID t + 4 < 2 ^ 63 ->
  Execute m1 p1 t w = ((Ok r1, t1), w1, tr1) ->
  Execute m2 p2 t1 w1 = ((Ok r2, t2), w2, tr2) ->
  exists n1 n2,
    last (sent tr1) = Some (Request.mk "2.0" m1 n1 p1)
    /\ last (sent tr2) = Some (Request.mk "2.0" m2 n2 p2)
    /\ n2 = n1 + match process t with None => 2 | Some _ => 1 end.
Proof.
  intros Hn Hb E1 E2.
  assert (Hb1 : nextID t + 2 < 2 ^ 63) by lia.
  destruct (Execute_ids _ _ _ _ _ _ _ _ Hn Hb1 E1)
    as (k1 & _ & Hr1 & _ & _ & _ & A1).
  destruct (A1 eq_refl) as (n1 & L1 & N1 & _).
  assert (Hn2 : 1 <= nextID t1) by lia.
  assert (Hb2 : nextID t1 + 2 < 2 ^ 63) by lia.
  destruct (Execute_ids _ _ _ _ _ _ _ _ Hn2 Hb2 E2)
    as (k2 & _ & _ & _ & _ & _ & A2).
  destruct (A2 eq_refl) as (n2 & L2 & _ & I2).
  exists n1, n2. split; [exact L1|]. split; [exact L2|].
  destruct (Execute_process _ _ _ _ _ _ _ _ E1) as (PN & PS).
  destruct (process t) as [pr|] eqn:Hp.
  - destruct (PS _ eq_refl) as (pr' & Hp' & Hi).
    destruct (Hi eq_refl) as (Hi' & _).
    rewrite Hp' in I2. change (default _ (Some pr')) with pr' in I2.
    rewrite Hi' in I2. lia.
  - rewrite (PN eq_refl) in I2. cbn in I2. lia.
Qed.

Lemma method_identifier_step_witness :
  exists t1 w1 tr1 t2 w2 tr2,
    Execute "ping" Nil (fresh ["srv"]) echo_world
    = ((Ok (Some [("pong", JBool true)]), t1), w1, tr1)
    /\ Execute "ping" Nil t1 w1 = ((Ok (Some [("pong", JBool true)]), t2), w2, tr2)
    /\ last (sent tr1) = Some (Request.mk "2.0" "ping" 2 Nil)
    /\ last (sent tr2) = Some (Request.mk "2.0" "ping" 4 Nil).
Proof.
  destruct (Execute "ping" Nil (fresh ["srv"]) echo_world)
    as [[[o1 t1] w1] tr1] eqn:E1.
  destruct (Execute "ping" Nil t1 w1) as [[[o2 t2] w2] tr2] eqn:E2.
  assert (O1 : o1 = Ok (Some [("pong", JBool true)]))
    by (vm_compute in E1; now injection E1 as <- _ _ _).
  assert (O2 : o2 = Ok (Some [("pong", JBool true)])).
  { vm_compute in E1. injection E1 as _ <- <- _.
    vm_compute in E2. now injection E2 as <- _ _ _. }
  subst o1 o2.
  destruct (method_identifier_step "ping" Nil "ping" Nil (fresh ["srv"])
              echo_world (Some [("pong", JBool true)]) t1 w1 tr1
              (Some [("pong", JBool true)]) t2 w2 tr2)
    as (n1 & n2 & L1 & L2 & N); [cbn; lia | cbn; lia | exact E1 | exact E2 |].
  exists t1, w1, tr1, t2, w2, tr2.
  split; [reflexivity|]. split; [exact E2|].
  assert (n1 = 2).
  { vm_compute in E1. injection E1 as _ _ <-. vm_compute in L1.
    now injection L1 as <-. }
  subst n1. cbn in N. subst n2. split; assumption.
Defined.

(** ** The handshake on a kept session *)

Lemma sent_Sent p r l : sent (Sent p r :: l) = r :: sent l.
Proof. reflexivity. Qed.

Lemma ending_kept_inv t c r buf fin out pr :
  process t = Some pr -> ending t c r buf fin out ->
  fin = [] /\ out = Ok (Response.Result r).
Proof. intros Hp E. inversion E; subst; try congruence; auto. Qed.

Lemma exchange_kept_ok m p t c w res t2 w2 tr pr :
  process t = Some pr ->
  exchange m p t c w = ((Ok res, t2), w2, tr) ->
  exists rd r,
    io tr = Sent (pid c) (Request.mk "2.0" m (nextID t) p) :: rd
    /\ reading (expected (nextID t)) (pid c) rd (Ok r)
    /\ w2 = w /\ nextID t2 = wrap64 (nextID t + 1).
Proof.
  intros Hp H. apply exchange_shape in H.
  destruct H as (-> & (c' & _ & ->)
                 & [(e & D & _)|[(rd & e & D & _)|(rd & r & buf & fin & R & En & Hio & _)]]);
    try discriminate.
  destruct (ending_kept_inv _ _ _ _ _ _ _ Hp En) as (-> & _).
  exists rd, r. rewrite app_nil_r in Hio. rewrite keep_nextID.
  repeat split; assumption.
Qed.

Lemma session_start_kept t w c w1 S pr c0 :
  process t = Some pr -> cmd pr = Some c0 -> session_start t w c w1 S ->
  c = c0 /\ w1 = w /\ S = [].
Proof.
  intros Hp Hc SS. inversion SS as [pr0 c1 Hp0 Hc0|? ? ? ? Hnone]; subst.
  - split; [congruence|auto].
  - rewrite Hp in Hnone. change (default _ (Some pr)) with pr in Hnone.
    congruence.
Qed.

Lemma session_start_spawned t w c w1 S :
  cmd (default (mkProcess None false) (process t)) = None ->
  session_start t w c w1 S ->
  exists out oe pl ex,
    launch w (attempts w) = Starts out oe pl ex
    /\ c = mkChild (attempts w) out oe pl 0 ex ""
    /\ w1 = bump w /\ S = [Spawned (attempts w)].
Proof.
  intros Hnone SS. inversion SS as [pr0 c1 Hp0 Hc0|out oe pl ex _ _ HL]; subst.
  - rewrite Hp0 in Hnone. change (default _ (Some pr0)) with pr0 in Hnone.
    congruence.
  - exists out, oe, pl, ex. auto.
Qed.

Lemma Execute_on_initialized m p t w res t' w' tr pr c :
  process t = Some pr -> cmd pr = Some c -> isInitializeSent pr = true ->
  Execute m p t w = ((Ok res, t'), w', tr) ->
  sent tr = [Request.mk "2.0" m (nextID t) p] /\ spawned tr = [] /\ w' = w
  /\ nextID t' = wrap64 (nextID t + 1).
Proof.
  intros Hp Hc Hi H.
  apply Execute_shape in H as (x & t1 & tr0 & tr1 & E & -> & H).
  pose proof (ensure_session_shape _ _ _ _ _ _ E) as Sh. cbn zeta in Sh.
  rewrite Hp in Sh. change (default _ (Some pr)) with pr in Sh.
  destruct Sh as [(e & _ & _ & _ & _ & Hn & _)
                 |(c0 & S & SS & [(_ & -> & -> & Hio)|(Hi' & _)])];
    try congruence.
  destruct (session_start_kept _ _ _ _ _ _ _ Hp Hc SS) as (-> & -> & ->).
  assert (Hk : process (keep t (mkProcess (Some c) true))
               = Some (mkProcess (Some c) true))
    by (rewrite keep_process, Hp; reflexivity).
  destruct (exchange_kept_ok _ _ _ _ _ _ _ _ _ _ Hk H)
    as (rd & r & Hio1 & R & _ & Hn).
  rewrite keep_nextID in *.
  rewrite sent_io, spawned_io, io_app, Hio, Hio1. cbn [app].
  rewrite sent_Sent, spawned_Sent, (reading_no_sent _ _ _ _ R),
    (reading_no_spawn _ _ _ _ R).
  repeat split; assumption.
Qed.

Lemma Execute_first_on_kept m p t w res t' w' tr pr :
  process t = Some pr -> cmd pr = None -> isInitializeSent pr = false ->
  Execute m p t w = ((Ok res, t'), w', tr) ->
  exists rd r rd2 r2,
    io tr = (Spawned (attempts w)
             :: Sent (attempts w) (initRequest (nextID t))
             :: rd ++ Sent (attempts w) initNotification
             :: Sent (attempts w)
                     (Request.mk "2.0" m (wrap64 (nextID t + 1)) p)
             :: rd2)%list
    /\ reading (expected (nextID t)) (attempts w) rd (Ok r)
    /\ reading (expected (wrap64 (nextID t + 1))) (attempts w) rd2 (Ok r2)
    /\ w' = bump w /\ nextID t' = wrap64 (wrap64 (nextID t + 1) + 1).
Proof.
  intros Hp Hc Hi H.
  apply Execute_shape in H as (x & t1 & tr0 & tr1 & E & -> & H).
  pose proof (ensure_session_shape _ _ _ _ _ _ E) as Sh. cbn zeta in Sh.
  rewrite Hp in Sh. change (default _ (Some pr)) with pr in Sh.
  destruct Sh as [(e & -> & _)
                 |(c0 & S & SS & [(Hi' & _)
                                 |(_ & e & c1 & hs & HS & Hio & SC & -> & ->)])];
    try congruence.
  { destruct H as (D & _). discriminate. }
  destruct e as [e|]; [destruct H as (D & _); discriminate|].
  destruct (session_start_spawned _ _ _ _ _
              ltac:(rewrite Hp; exact Hc) SS)
    as (out & oe & pl & ex & HL & -> & -> & ->).
  destruct SC as (Hpid & _). cbn [pid] in Hpid, HS.
  inversion HS as [| | |rd r R]; subst.
  assert (Hk : process (keep (set_nextID t (wrap64 (nextID t + 1)))
                             (mkProcess (Some c1) true))
               = Some (mkProcess (Some c1) true))
    by (rewrite keep_process; cbn [process set_nextID]; rewrite Hp;
        reflexivity).
  destruct (exchange_kept_ok _ _ _ _ _ _ _ _ _ _ Hk H)
    as (rd2 & r2 & Hio1 & R2 & _ & Hn).
  rewrite keep_nextID in *. cbn [nextID set_nextID] in *.
  rewrite Hpid in *.
  exists rd, r, rd2, r2. rewrite io_app, Hio, Hio1. cbn [app].
  rewrite <- app_assoc. cbn [app].
  repeat split; assumption.
Qed.

Lemma requests_ids_length n calls :
  length (requests n calls) = length calls.
Proof. revert n. induction calls; intros n; cbn; [|rewrite IHcalls]; reflexivity. Qed.

Lemma run_on_initialized calls :
  forall t w outs t' w' tr pr c,
    process t = Some pr -> cmd pr = Some c -> isInitializeSent pr = true ->
    1 <= nextID t -> nextID t + Z.of_nat (length calls) < 2 ^ 63 ->
    run (executes calls) t w = ((outs, t'), w', tr) ->
    Forall (fun o => is_ok o = true) outs ->
    sent tr = requests (nextID t) calls /\ spawned tr = [] /\ w' = w
    /\ nextID t' = nextID t + Z.of_nat (length calls).
Proof.
  induction calls as [|[m p] calls IH];
    intros t w outs t' w' tr pr c Hp Hc Hi Hn Hb H Hall.
  - injection H as <- <- <- <-. cbn. repeat split. lia.
  - cbn [executes map fst snd run] in H. fold (executes calls) in H.
    unfold bind, ret in H. cbn [length] in Hb.
    destruct (Execute m p t w) as [[[o t1] w1] tr1] eqn:E.
    destruct (run (executes calls) t1 w1) as [[[os t2] w2] tr2] eqn:R.
    injection H as <- <- <- <-.
    inversion Hall as [|? ? Ho Hos]; subst.
    destruct o as [res|]; [|discriminate].
    destruct (Execute_on_initialized _ _ _ _ _ _ _ _ _ _ Hp Hc Hi E)
      as (Hs & Hsp & -> & Hn1).
    rewrite wrap64_id in Hn1 by lia.
    destruct (Execute_process _ _ _ _ _ _ _ _ E) as (_ & PS).
    destruct (PS _ Hp) as (pr' & Hp' & Hi').
    destruct (Hi' eq_refl) as (Hi1 & Hc1).
    destruct (cmd pr') as [c'|] eqn:Hc'; [|congruence].
    assert (Hn2 : 1 <= nextID t1) by lia.
    assert (Hb2 : nextID t1 + Z.of_nat (length calls) < 2 ^ 63) by lia.
    destruct (IH _ _ _ _ _ _ _ _ Hp' Hc' Hi1 Hn2 Hb2 R Hos)
      as (Hs2 & Hsp2 & -> & Hn3).
    rewrite app_nil_r, sent_app, spawned_app, Hs, Hsp, Hs2, Hsp2, Hn1.
    cbn [requests fst snd app length]. repeat split. lia.
Qed.

(** X3.  On a session that the transport keeps, as
    [SetCloseAfterExecute(false)] installs it, a sequence of calls to
    [Execute] that all succeed starts the command once and goes through the
    handshake once, before everything else: what goes out is the request
    [initialize], then, after its response was read, the notification
    [notifications/initialized], which carries no identifier, then one
    request for each call, with consecutive identifiers. *)
Theorem handshake_once_on_kept_session t w calls outs t' w' tr :
  process t = Some (mkProcess None false) ->
  1 <= nextID t -> nextID t + 1 + Z.of_nat (length calls) < 2 ^ 63 ->
  calls <> [] ->
  run (executes calls) t w = ((outs, t'), w', tr) ->
  Forall (fun o => is_ok o = true) outs ->
  sent tr = initRequest (nextID t) :: initNotification
            :: requests (nextID t + 1) calls
  /\ carries_id initNotification = false
  /\ spawned tr = [attempts w]
  /\ nextID t' = nextID t + 1 + Z.of_nat (length calls)
  /\ exists rd r rest,
      io tr = (Spawned (attempts w)
               :: Sent (attempts w) (initRequest (nextID t))
               :: rd ++ Sent (attempts w) initNotification :: rest)%list
      /\ reading (expected (nextID t)) (attempts w) rd (Ok r).
Proof.
  intros Hp Hn Hb Hne H Hall.
  destruct calls as [|[m p] calls]; [congruence|]. clear Hne.
  cbn [executes map fst snd run] in H. fold (executes calls) in H.
  unfold bind, ret in H. cbn [length] in Hb.
  destruct (Execute m p t w) as [[[o t1] w1] tr1] eqn:E.
  destruct (run (executes calls) t1 w1) as [[[os t2] w2] tr2] eqn:R.
  injection H as <- <- <- <-.
  inversion Hall as [|? ? Ho Hos]; subst.
  destruct o as [res|]; [|discriminate].
  destruct (Execute_first_on_kept _ _ _ _ _ _ _ _ _ Hp eq_refl eq_refl E)
    as (rd & r & rd2 & r2 & Hio & Rd & Rd2 & -> & Hn1).
  rewrite (wrap64_id (nextID t + 1)) in Hn1, Hio, Rd2 by lia.
  rewrite wrap64_id in Hn1 by lia.
  destruct (Execute_process _ _ _ _ _ _ _ _ E) as (_ & PS).
  destruct (PS _ Hp) as (pr' & Hp' & Hi').
  destruct (Hi' eq_refl) as (Hi1 & Hc1).
  destruct (cmd pr') as [c'|] eqn:Hc'; [|congruence].
  assert (Hn2 : 1 <= nextID t1) by lia.
  assert (Hb2 : nextID t1 + Z.of_nat (length calls) < 2 ^ 63) by lia.
  destruct (run_on_initialized _ _ _ _ _ _ _ _ _ Hp' Hc' Hi1 Hn2 Hb2 R Hos)
    as (Hs2 & Hsp2 & _ & Hn3).
  rewrite app_nil_r.
  assert (Hs1 : sent tr1 = [initRequest (nextID t); initNotification;
                            Request.mk "2.0" m (nextID t + 1) p]).
  { rewrite sent_io, Hio. cbn [sent flat_map app].
    fold (sent (rd ++ Sent (attempts w) initNotification
                :: Sent (attempts w) (Request.mk "2.0" m (nextID t + 1) p)
                :: rd2)).
    rewrite sent_app, !sent_Sent, (reading_no_sent _ _ _ _ Rd),
      (reading_no_sent _ _ _ _ Rd2). reflexivity. }
  assert (Hsp1 : spawned tr1 = [attempts w]).
  { rewrite spawned_io, Hio. cbn [spawned flat_map app].
    fold (spawned (rd ++ Sent (attempts w) initNotification
                   :: Sent (attempts w) (Request.mk "2.0" m (nextID t + 1) p)
                   :: rd2)).
    rewrite spawned_app, !spawned_Sent, (reading_no_spawn _ _ _ _ Rd),
      (reading_no_spawn _ _ _ _ Rd2). reflexivity. }
  split.
  { rewrite sent_app, Hs1, Hs2, Hn1. reflexivity. }
  split; [reflexivity|]. split.
  { now rewrite spawned_app, Hsp1, Hsp2. }
  split; [cbn [length]; lia|].
  exists rd, r. eexists. split; [|exact Rd].
  rewrite io_app, Hio. cbn [app]. rewrite <- app_assoc. cbn [app].
  reflexivity.
Qed.

Lemma handshake_once_on_kept_session_witness :
  sent (snd (run (executes [("ping", Nil); ("ping", Nil)]) kept_transport
               (world_of lasting_server (Exits None))))
  = [initRequest 1; initNotification;
     Request.mk "2.0" "ping" 2 Nil; Request.mk "2.0" "ping" 3 Nil].
Proof.
  destruct (run (executes [("ping", Nil); ("ping", Nil)]) kept_transport
              (world_of lasting_server (Exits None)))
    as [[[outs t'] w'] tr] eqn:E.
  destruct (handshake_once_on_kept_session kept_transport
              (world_of lasting_server (Exits None))
              [("ping", Nil); ("ping", Nil)] outs t' w' tr)
    as (H & _).
  - reflexivity.
  - cbn. lia.
  - cbn. lia.
  - discriminate.
  - exact E.
  - vm_compute in E. injection E as <- _ _ _. repeat constructor.
  - exact H.
Defined.

(** ** Notifications *)

(** The call below reads two [notifications/message] lines and then the
    answer to its request; one line only is printed (the first notification
    has no object for [params]), and [Execute] returns the error of the
    command's exit, not the result of the answer. *)
Example noisy_call :
  lines_got (snd (Execute "ping" Nil (fresh ["srv"]) noisy_world))
  = [reply 1 []; bare_log; log_line "warning" "slow disk";
     reply 2 [("pong", JBool true)]]
  /\ log_notification bare_log = true
  /\ log_notification (log_line "warning" "slow disk") = true
  /\ texts (snd (Execute "ping" Nil (fresh ["srv"]) noisy_world))
     = [notification_text "warning" "slow disk"]
  /\ fst (fst (fst (Execute "ping" Nil (fresh ["srv"]) noisy_world)))
     = Fail (ErrCommand "exit status 1").
Proof. vm_compute. repeat split. Qed.

(** X4.  When the stream that the read loop of a call works on
    holds N [notifications/message] lines and then the Response that
    matches the request, whatever N, all of them lines that the generic
    decoding accepts: every notification is passed over (none is taken as
    the answer); each one whose [params] is an object is printed, tagged by
    its level (error, warning, alert and info have a tag of their own, any
    other level is its own tag), and the others print nothing; and
    [Execute] returns the result of the matching Response, unless the
    session is ephemeral and its end reports the error of the command's
    exit.  A line that the generic decoding refuses (one that holds a
    number too large for a [float64], say) is no notification, whatever
    its members: the loop returns an error on it. *)
Theorem notifications_before_the_answer
    m p t w c t1 w1 tr0 logs answer r more :
  ensure_session t w = ((Ok c, t1), w1, tr0) ->
  (forall why, p <> Unencodable why) ->
  stdin_plan c (writes c) = Written ->
  int64_ok (nextID t) = true ->
  lines_of (output c) = (logs ++ answer :: more)%list ->
  Forall (fun l => log_notification l = true) logs ->
  plain answer = true ->
  response_of answer = Some r ->
  Response.ID r = nextID t1 ->
  Response.Error r = None ->
  (forall t0 id line,
      notification line = true -> fst (handle_line t0 id line) = Next)
  /\ (forall t0 id line,
         message_of line = None ->
         notification line = false
         /\ fst (handle_line t0 id line)
            = Stop (Fail (ErrUnmarshalMessage (json_err line) (raw line))))
  /\ (forall level data,
         notification_text level data
         = ESC ++ "[" ++ fst (severity_tag level) ++ "m["
               ++ snd (severity_tag level) ++ "] " ++ data
               ++ ESC ++ "[0m" ++ LF)
  /\ exists out t' tr1 fin shown,
      Execute m p t w = ((out, t'), w1, (tr0 ++ tr1)%list)
      /\ io tr1 = (Sent (pid c) (Request.mk "2.0" m (nextID t1) p)
                   :: map (Got (pid c)) (logs ++ [answer]) ++ fin)%list
      /\ texts tr1 = (flat_map log_text logs ++ shown)%list
      /\ (showServerLogs t = false -> shown = [])
      /\ (out = Ok (Response.Result r)
          \/ exists why buf,
              process t = None /\ exit_plan c = Exits (Some why)
              /\ fin = [StdinClosed (pid c); Waited (pid c) (Some why) buf]
              /\ buf <> "" /\ out = Fail (ErrCommand why))
      /\ (process t <> None -> out = Ok (Response.Result r)).
Proof.
  intros E Henc Hw Hn Hl Hlogs Hpl Hr Hid He.
  pose proof (plain_not_notification _ Hpl) as Hnot.
  split; [|split; [|split]].
  - intros t0 id line Hline. rewrite handle_line_verdict.
    apply verdict_next_iff. now left.
  - intros t0 id line Hm. rewrite handle_line_verdict.
    unfold notification, verdict. now rewrite Hm.
  - intros level data. unfold notification_text, severity_tag.
    destruct (String.eqb level "error"); [reflexivity|].
    destruct (String.eqb level "warning"); [reflexivity|].
    destruct (String.eqb level "alert"); [reflexivity|].
    destruct (String.eqb level "info"); reflexivity.
  - pose proof (ensure_session_nextID_ok _ _ _ _ _ _ E Hn) as Hn1.
    pose proof (ensure_session_flags _ _ _ _ _ _ E) as (Hlog & _ & _ & HN & HS).
    assert (Hpass : passed (expected (nextID t1)) logs).
    { apply notifications_passed. eapply List.Forall_impl; [|exact Hlogs].
      intros l. apply log_notification_is_notification. }
    assert (Hv : verdict (expected (nextID t1)) answer = Stop (Ok r)).
    { apply verdict_ok_iff. rewrite (expected_is_sent _ Hn1). auto. }
    destruct (exchange_answered m p t1 c w1 logs answer r more Henc Hw Hl Hpass Hv)
      as (out & t2 & tr & fin & buf & shown & X & Hio & En & _ & Ht & Hs).
    exists out, t2, tr, fin, shown.
    apply (ending_mode t t1) in En; [|assumption|assumption].
    rewrite Hlog in Hs.
    split.
    { unfold Execute, bind. rewrite E, X. reflexivity. }
    split; [exact Hio|]. split.
    { rewrite Ht, flat_map_app. cbn [flat_map].
      rewrite (printed_answer _ Hnot), (flat_map_printed_logs _ Hlogs).
      now rewrite !app_nil_r. }
    split; [exact Hs|]. split.
    + inversion En; subst; auto. right. exists why, buf. auto.
    + intros Hp. inversion En; subst; auto; congruence.
Qed.

(** The scenario of the specification: the stub server warns of a slow disk
    before it answers [ping]; one line tagged as a warning is printed and
    the call returns [{"pong":true}]. *)
Lemma notifications_before_the_answer_witness :
  exists t' w' tr,
    Execute "ping" Nil (fresh ["srv"]) (world_of warning_server (Exits None))
    = ((Ok (Some [("pong", JBool true)]), t'), w', tr)
    /\ texts tr = [ESC ++ "[33m[WARNING] slow disk" ++ ESC ++ "[0m" ++ LF].
Proof.
  destruct (ensure_session (fresh ["srv"]) (world_of warning_server (Exits None)))
    as [[[x t1] w1] tr0] eqn:E.
  destruct x as [c|e]; [|vm_compute in E; discriminate].
  assert (Ec : c = mkChild 0 [Out [log_line "warning" "slow disk"];
                              Out [reply 2 [("pong", JBool true)]]]
                       "EOF" always_written 2 (Exits None) ""
               /\ nextID t1 = 2 /\ texts tr0 = []).
  { vm_compute in E. injection E as <- <- _ <-. repeat split. }
  destruct Ec as (Ec & Hn1 & Ht0).
  destruct (notifications_before_the_answer
              "ping" Nil (fresh ["srv"]) (world_of warning_server (Exits None))
              c t1 w1 tr0 [log_line "warning" "slow disk"]
              (reply 2 [("pong", JBool true)])
              (Response.mk (Some [("pong", JBool true)]) None "2.0" 2) [] E)
    as (_ & _ & _ & out & t' & tr1 & fin & shown & X & _ & Ht & Hs & Ho & _);
    try (subst c; reflexivity); try discriminate.
  - constructor; [reflexivity | constructor].
  - now rewrite Hn1.
  - exists t', w1, (tr0 ++ tr1)%list. split.
    + rewrite X. destruct Ho as [->|(why & buf & _ & Hx & _)];
        [reflexivity|]. subst c. discriminate.
    + rewrite texts_app, Ht0, Ht, (Hs eq_refl). reflexivity.
Defined.

(** ** When the child is closed *)

Lemma calm_io_no_closing tr :
  calm (io tr) -> Forall (fun e => closes e = false) tr.
Proof.
  intros C. apply List.Forall_forall. intros e I.
  destruct (closes e) eqn:Ec; [exfalso|reflexivity].
  assert (Io : In e (io tr)) by (apply in_io; [exact I|now destruct e]).
  unfold calm in C. rewrite List.Forall_forall in C. specialize (C _ Io).
  now destruct e.
Qed.

Lemma Execute_on_kept_never_closes m p t w out t' w' tr :
  process t <> None ->
  Execute m p t w = ((out, t'), w', tr) ->
  Forall (fun e => closes e = false) tr
  /\ (forall why, out <> Fail (ErrCommand why))
  /\ process t' <> None.
Proof.
  intros Hp H.
  destruct (process t) as [pr|] eqn:Ep; [clear Hp|congruence].
  destruct (Execute_process _ _ _ _ _ _ _ _ H) as (_ & PS).
  destruct (PS _ Ep) as (pr' & Hp' & _).
  destruct (Execute_ending _ _ _ _ _ _ _ _ H)
    as [(C & e & -> & Hne)
       |(c & t1 & tr0 & pre & r & buf & fin & sk & line
         & _ & Hio & C & En & _)].
  - split; [now apply calm_io_no_closing|]. split; [|congruence].
    intros why D. injection D as ->. now apply Hne.
  - destruct (ending_kept_inv _ _ _ _ _ _ _ Ep En) as (-> & ->).
    rewrite app_nil_r in Hio. rewrite <- Hio in C.
    split; [now apply calm_io_no_closing|]. split; [discriminate|congruence].
Qed.

(** X5.  A transport that keeps its session never closes the standard
    input of its child, never waits for its exit and never kills it, and
    no call fails with a command error: whatever the calls and their
    outcomes, as long as [SetCloseAfterExecute(true)] is not among them. *)
Theorem kept_session_is_never_closed calls :
  forall t w outs t' w' tr,
    process t <> None ->
    ~ In (CallSetCloseAfterExecute true) calls ->
    run calls t w = ((outs, t'), w', tr) ->
    Forall (fun e => closes e = false) tr
    /\ Forall (fun o => forall why, o <> Fail (ErrCommand why)) outs
    /\ process t' <> None.
Proof.
  induction calls as [|[m p|v|v] calls IH]; intros t w outs t' w' tr Hp Hno H.
  - injection H as <- <- <- <-. repeat split; [constructor|constructor|exact Hp].
  - cbn [run] in H. unfold bind, ret in H.
    destruct (Execute m p t w) as [[[o t1] w1] tr1] eqn:E.
    destruct (run calls t1 w1) as [[[os t2] w2] tr2] eqn:R.
    injection H as <- <- <- <-.
    destruct (Execute_on_kept_never_closes _ _ _ _ _ _ _ _ Hp E)
      as (F1 & O1 & Hp1).
    destruct (IH _ _ _ _ _ _ Hp1 ltac:(intros I; apply Hno; now right) R)
      as (F2 & O2 & Hp2).
    rewrite app_nil_r. split; [|split; [constructor|]]; try assumption.
    apply Forall_app. split; assumption.
  - cbn [run] in H. destruct v.
    + exfalso. apply Hno. now left.
    + apply (IH _ _ _ _ _ _) in H; [exact H|discriminate|].
      intros I. apply Hno. now right.
  - cbn [run] in H.
    apply (IH _ _ _ _ _ _) in H; [exact H|exact Hp|].
    intros I. apply Hno. now right.
Qed.

Lemma kept_session_is_never_closed_witness :
  Forall (fun e => closes e = false)
         (snd (run (executes [("ping", Nil); ("ping", Nil)]) kept_transport
                 (world_of lasting_server (Exits (Some "exit status 1"))))).
Proof.
  destruct (run (executes [("ping", Nil); ("ping", Nil)]) kept_transport
              (world_of lasting_server (Exits (Some "exit status 1"))))
    as [[[outs t'] w'] tr] eqn:E.
  destruct (kept_session_is_never_closed
              (executes [("ping", Nil); ("ping", Nil)]) kept_transport
              (world_of lasting_server (Exits (Some "exit status 1")))
              outs t' w' tr) as (H & _).
  - discriminate.
  - cbn. intros [D|[D|[]]]; discriminate.
  - exact E.
  - exact H.
Defined.

(** X6.  A call that fails with anything but a command error returns
    before [closeProcess]: it neither closes the standard input of the
    child, nor waits for it, nor kills it, on an ephemeral transport too,
    where the child that the call started is then left running. *)
Theorem failed_call_leaves_the_child m p t w e t' w' tr :
  Execute m p t w = ((Fail e, t'), w', tr) ->
  (forall why, e <> ErrCommand why) ->
  Forall (fun ev => closes ev = false) tr.
Proof.
  intros H Hne.
  destruct (Execute_ending _ _ _ _ _ _ _ _ H)
    as [(C & _)
       |(c & t1 & tr0 & pre & r & buf & fin & sk & line
         & _ & Hio & C & En & _)].
  - now apply calm_io_no_closing.
  - inversion En; subst. now destruct (Hne why).
Qed.

Lemma failed_call_leaves_the_child_witness :
  spawned (snd (Execute "ping" Nil (fresh ["srv"])
                  (world_of garbling_server (Exits None)))) = [0%nat]
  /\ Forall (fun ev => closes ev = false)
            (snd (Execute "ping" Nil (fresh ["srv"])
                    (world_of garbling_server (Exits None)))).
Proof.
  split; [reflexivity|].
  destruct (Execute "ping" Nil (fresh ["srv"])
              (world_of garbling_server (Exits None)))
    as [[[out t'] w'] tr] eqn:E.
  destruct out as [res|e]; [vm_compute in E; discriminate|].
  apply (failed_call_leaves_the_child "ping" Nil (fresh ["srv"])
           (world_of garbling_server (Exits None)) e t' w' tr E).
  intros why ->. vm_compute in E. discriminate.
Defined.

(** ** A handshake that failed *)

Lemma verdict_fail_not_init id line e :
  verdict id line = Stop (Fail e) -> ~ init_error e.
Proof.
  unfold verdict.
  destruct (message_of line) as [msg|]; [|intros H; injection H as <-; auto].
  destruct (is_notification msg); [discriminate|].
  destruct (response_of line) as [r|]; [|intros H; injection H as <-; auto].
  destruct (Response.Error r); [intros H; injection H as <-; auto|].
  destruct (Response.ID r =? id); discriminate.
Qed.

Lemma reading_fail_not_init id p rd e :
  reading id p rd (Fail e) -> ~ init_error e.
Proof.
  intros H. inversion H as [sk line r' P V|sk cause P]; subst.
  - eapply verdict_fail_not_init; eauto.
  - auto.
Qed.

Lemma exchange_fail_not_init m p t c w e t2 w2 tr :
  exchange m p t c w = ((Fail e, t2), w2, tr) -> ~ init_error e.
Proof.
  intros H. apply exchange_shape in H as (_ & _ & H). cbv zeta in H.
  destruct H as [(e2 & D & Hs & _)
                |[(rd & e2 & D & R & _)
                 |(rd & r & buf & fin & R & En & _)]].
  - injection D as ->. now destruct e2.
  - injection D as ->. eapply reading_fail_not_init; eauto.
  - inversion En; subst. auto.
Qed.

(** X7.  When the handshake fails on a session that the transport keeps,
    the session keeps its child and stays uninitialized, and the identifier
    of the failed [initialize] is spent: whatever the next call, it starts
    no command and begins with a new [initialize] on the same child, under
    the next identifier (or fails to write it). *)
Theorem failed_handshake_is_retried m p t pr w e t' w' tr :
  process t = Some pr ->
  Execute m p t w = ((Fail e, t'), w', tr) ->
  init_error e ->
  exists c',
    process t' = Some (mkProcess (Some c') false)
    /\ nextID t' = wrap64 (nextID t + 1)
    /\ forall m2 p2 w2 out2 t2 w2' tr2,
        Execute m2 p2 t' w2 = ((out2, t2), w2', tr2) ->
        spawned tr2 = [] /\ w2' = w2
        /\ ((io tr2 = [] /\ exists e2, out2 = Fail (ErrInitRequest e2))
            \/ exists rest,
                io tr2 = Sent (pid c') (initRequest (nextID t')) :: rest).
Proof.
  intros Hp H Hi.
  apply Execute_shape in H as (x & t1 & tr0 & tr1 & E & -> & H).
  pose proof (ensure_session_shape _ _ _ _ _ _ E) as Sh. cbv zeta in Sh.
  destruct Sh as [(e0 & -> & Hsp & _)
                 |(c0 & S & SS & [(_ & -> & -> & _)
                                 |(_ & e1 & c1 & hs & HS & _ & _ & -> & ->)])].
  - destruct H as (D & _). injection D as ->. now destruct e0.
  - now destruct (exchange_fail_not_init _ _ _ _ _ _ _ _ _ H).
  - destruct e1 as [e1|];
      [|now destruct (exchange_fail_not_init _ _ _ _ _ _ _ _ _ H)].
    destruct H as (D & -> & _). injection D as ->.
    exists c1. cbn [is_some negb].
    assert (Hp' : process (keep (set_nextID t (wrap64 (nextID t + 1)))
                                (mkProcess (Some c1) false))
                  = Some (mkProcess (Some c1) false))
      by (rewrite keep_process; cbn [process set_nextID]; now rewrite Hp).
    split; [exact Hp'|]. split; [now rewrite keep_nextID|].
    intros m2 p2 w2 out2 t2 w2' tr2 H2.
    destruct (Execute_spawn_shape _ _ _ _ _ _ _ _ H2)
      as [(e2 & _ & _ & _ & _ & Hc & _)|(c2 & S2 & rest & SS2 & Hio & Hsp & Hr)];
      rewrite Hp' in *; change (default _ (Some ?x)) with x in *;
      cbn [cmd isInitializeSent] in *; [discriminate|].
    destruct (session_start_kept _ _ _ _ _ _ _ Hp' eq_refl SS2) as (-> & -> & ->).
    cbn [app] in Hio. split; [|split; [reflexivity|]].
    + now rewrite spawned_io, Hio.
    + destruct (Hr eq_refl) as [(-> & e2 & ->)|(rest' & ->)].
      * left. split; [exact Hio|eauto].
      * right. exists rest'. exact Hio.
Qed.

Lemma failed_handshake_is_retried_witness :
  exists e t' w' tr out2 t2 w2 tr2,
    Execute "ping" Nil kept_transport (world_of unready_server (Exits None))
    = ((Fail (ErrInitResponse e), t'), w', tr)
    /\ Execute "ping" Nil t' w' = ((out2, t2), w2, tr2)
    /\ spawned tr2 = []
    /\ sent tr2 = [initRequest 2; initNotification; Request.mk "2.0" "ping" 3 Nil].
Proof.
  destruct (Execute "ping" Nil kept_transport
              (world_of unready_server (Exits None)))
    as [[[out t'] w'] tr] eqn:E.
  destruct (Execute "ping" Nil t' w') as [[[out2 t2] w2] tr2] eqn:E2.
  assert (O : out = Fail (ErrInitResponse (ErrRPC (-32002) "not ready")))
    by (vm_compute in E; now injection E as <- _ _ _).
  subst out.
  destruct (failed_handshake_is_retried "ping" Nil kept_transport
              (mkProcess None false)
              (world_of unready_server (Exits None))
              (ErrInitResponse (ErrRPC (-32002) "not ready")) t' w' tr
              eq_refl E I) as (c' & _ & _ & H).
  destruct (H "ping" Nil w' out2 t2 w2 tr2 E2) as (Hs & _ & _).
  exists (ErrRPC (-32002) "not ready"), t', w', tr, out2, t2, w2, tr2.
  split; [reflexivity|]. split; [exact E2|]. split; [exact Hs|].
  vm_compute in E. injection E as <- <- _.
  vm_compute in E2. injection E2 as _ _ _ <-. reflexivity.
Defined.

(** ** The server's standard error *)

Lemma split_after_LF_line l rest cur :
  has_LF l = false ->
  split_after_LF (l ++ LF ++ rest) cur
  = (cur ++ l ++ LF) :: split_after_LF rest "".
Proof.
  revert cur. induction l as [|a l IH]; intros cur H.
  - reflexivity.
  - cbn [has_LF] in H. apply orb_false_iff in H as (Ha & Hl).
    cbn [append split_after_LF]. rewrite Ha, (IH _ Hl).
    now rewrite append_assoc.
Qed.

Lemma split_after_LF_tail l cur :
  has_LF l = false -> split_after_LF l cur = [cur ++ l].
Proof.
  revert cur. induction l as [|a l IH]; intros cur H.
  - cbn. now rewrite append_nil_r.
  - cbn [has_LF] in H. apply orb_false_iff in H as (Ha & Hl).
    cbn [split_after_LF]. rewrite Ha, (IH _ Hl). now rewrite append_assoc.
Qed.

Lemma trim_LF_line l : has_LF l = false -> trim_LF (l ++ LF) = l.
Proof.
  induction l as [|a l IH]; intros H; [reflexivity|].
  cbn [has_LF] in H. apply orb_false_iff in H as (Ha & Hl).
  cbn [append trim_LF]. rewrite Ha. cbn [andb]. now rewrite (IH Hl).
Qed.

Lemma trim_LF_none l : has_LF l = false -> trim_LF l = l.
Proof.
  induction l as [|a l IH]; intros H; [reflexivity|].
  cbn [has_LF] in H. apply orb_false_iff in H as (Ha & Hl).
  cbn [trim_LF]. rewrite Ha. cbn [andb]. now rewrite (IH Hl).
Qed.

Lemma split_joined ls tail :
  Forall (fun l => has_LF l = false) (ls ++ [tail]) ->
  split_after_LF (joined ls ++ tail) ""
  = (map (fun l : string => (l ++ LF)%string) ls ++ [tail])%list.
Proof.
  induction ls as [|l ls IH]; intros H.
  - apply Forall_app in H as (_ & H). inversion H as [|? ? Ht _]; subst.
    exact (split_after_LF_tail _ _ Ht).
  - cbn [app] in H. inversion H as [|? ? Hl H']; subst.
    cbn [joined map app]. rewrite !append_assoc.
    rewrite (split_after_LF_line _ _ _ Hl), (IH H'). reflexivity.
Qed.

Lemma server_log_lines ls tail :
  Forall (fun l => has_LF l = false) (ls ++ [tail]) ->
  server_log (joined ls ++ tail)
  = map log_event (List.filter nonempty (ls ++ [tail])).
Proof.
  intros H. unfold server_log. rewrite (split_joined _ _ H).
  set (f := fun line : string => _).
  assert (Hf1 : forall l, has_LF l = false ->
                  f (l ++ LF) = if nonempty l then [log_event l] else []).
  { intros l Hl. subst f. cbv beta zeta. rewrite (trim_LF_line _ Hl).
    unfold nonempty, log_event. destruct (String.eqb l ""); reflexivity. }
  assert (Hf2 : forall l, has_LF l = false ->
                  f l = if nonempty l then [log_event l] else []).
  { intros l Hl. subst f. cbv beta zeta. rewrite (trim_LF_none _ Hl).
    unfold nonempty, log_event. destruct (String.eqb l ""); reflexivity. }
  clearbody f.
  induction ls as [|l ls IH].
  - apply Forall_app in H as (_ & H). inversion H as [|? ? Ht _]; subst.
    cbn [map app flat_map List.filter]. rewrite (Hf2 _ Ht).
    destruct (nonempty tail); reflexivity.
  - cbn [app] in H. inversion H as [|? ? Hl H']; subst.
    cbn [map app flat_map List.filter]. rewrite (Hf1 _ Hl), (IH H').
    destruct (nonempty l); reflexivity.
Qed.

Lemma printStderr_shown t c w :
  showServerLogs t = true ->
  printStderr t c w = (set_stderrBuf c "", w, server_log (stderrBuf c)).
Proof.
  intros Hlog. unfold printStderr. rewrite Hlog. cbn [negb].
  destruct (String.eqb (stderrBuf c) "") eqn:Eb; [|reflexivity].
  apply String.eqb_eq in Eb. rewrite Eb. destruct c; cbn in *. now subst.
Qed.

(** X8.  When the server logs are shown, [printStderr] writes one line for
    each line of the buffer that is not empty, in order, with the prefix
    [[>] ], the text after the last newline being a line like the others,
    and leaves the buffer empty. *)
Theorem printStderr_prints_the_lines t c w ls tail :
  showServerLogs t = true ->
  Forall (fun l => has_LF l = false) (ls ++ [tail]) ->
  stderrBuf c = joined ls ++ tail ->
  printStderr t c w
  = (set_stderrBuf c "", w,
     map log_event (List.filter nonempty (ls ++ [tail]))).
Proof.
  intros Hlog Hls Hbuf.
  rewrite (printStderr_shown _ _ _ Hlog), Hbuf, (server_log_lines _ _ Hls).
  reflexivity.
Qed.

Lemma printStderr_prints_the_lines_witness :
  let c := mkChild 0 [] "EOF" always_written 0 (Exits None)
                   ("warming up" ++ LF ++ LF ++ "half") in
  printStderr (SetShowServerLogs (fresh ["srv"]) true) c
              (world_of [] (Exits None))
  = (set_stderrBuf c "", world_of [] (Exits None),
     [Text ("[>] warming up" ++ LF); Text ("[>] half" ++ LF)]).
Proof.
  exact (printStderr_prints_the_lines
           (SetShowServerLogs (fresh ["srv"]) true)
           (mkChild 0 [] "EOF" always_written 0 (Exits None)
                    ("warming up" ++ LF ++ LF ++ "half"))
           (world_of [] (Exits None)) ["warming up"; ""] "half"
           eq_refl
           ltac:(repeat constructor) eq_refl).
Defined.

Lemma sendRequest_stderr t c req w e c' w' tr :
  sendRequest t c req w = ((e, c'), w', tr) ->
  stderr_at_exit c' = stderr_at_exit c.
Proof.
  intros H. apply sendRequest_spec in H as (_ & _ & _ & H).
  destruct e as [[]|]; try contradiction; try (destruct H as (H & _));
    subst; reflexivity.
Qed.

Lemma readResponse_stderr t c w r c' w' tr :
  readResponse t c w = ((r, c'), w', tr) ->
  stderr_at_exit c' = stderr_at_exit c.
Proof.
  intros H. apply readResponse_spec in H as (_ & H). cbv zeta in H.
  destruct H as [(sk & line & more & rest & buf & _ & _ & _ & _ & -> & Hb)
                |(_ & _ & _ & ->)].
  - exact Hb.
  - unfold stderr_at_exit at 1. cbn. apply append_nil_r.
Qed.

Lemma printStderr_hidden t c w :
  showServerLogs t = false -> printStderr t c w = (c, w, []).
Proof. intros H. unfold printStderr. now rewrite H. Qed.

Lemma initialize_stderr t c w e t' c' w' tr :
  initialize t c w = ((e, t', c'), w', tr) ->
  stderr_at_exit c' = stderr_at_exit c.
Proof.
  unfold initialize, bind, ret. intros H.
  destruct (sendRequest _ c _ w) as [[[e1 c1] w1] tr1] eqn:S1.
  apply sendRequest_stderr in S1.
  destruct e1; [injection H as _ _ <- _ _; exact S1|].
  destruct (readResponse _ c1 w1) as [[[r c2] w2] tr2] eqn:R.
  apply readResponse_stderr in R.
  destruct r; [|injection H as _ _ <- _ _; congruence].
  destruct (sendRequest _ c2 _ w2) as [[[e3 c3] w3] tr3] eqn:S3.
  apply sendRequest_stderr in S3.
  destruct e3; injection H as _ _ <- _ _; congruence.
Qed.

(** On an ephemeral transport that hides the server logs, the child that
    a call works on after the handshake has written to its standard error,
    or will write to it, everything the started command writes there. *)
Lemma ensure_session_stderr t w c t1 w1 tr :
  process t = None -> showServerLogs t = false ->
  ensure_session t w = ((Ok c, t1), w1, tr) ->
  exists o oe pl ex,
    launch w (attempts w) = Starts o oe pl ex
    /\ stderr_at_exit c = late_stderr o.
Proof.
  intros Hp Hlog H. unfold ensure_session in H. rewrite Hp in H.
  change (default ?d None) with d in H. cbn [cmd isInitializeSent] in H.
  unfold bind in H.
  destruct (setupCommand t w) as [[x w0] tr0] eqn:S.
  destruct x as [c0|e]; [|discriminate].
  assert (exists o oe pl ex,
             launch w (attempts w) = Starts o oe pl ex
             /\ stderr_at_exit c0 = late_stderr o) as (o & oe & pl & ex & HL & Hc0).
  { unfold setupCommand, bind, debugf, ret in S.
    destruct (command t); [discriminate|].
    destruct (launch w (attempts w)) as [| | |o oe pl ex] eqn:HL;
      try discriminate.
    injection S as <- _ _. exists o, oe, pl, ex. split; reflexivity. }
  exists o, oe, pl, ex. split; [exact HL|]. rewrite <- Hc0.
  unfold debugf, ensure_initialized, bind, ret in H.
  destruct (initialize t c0 w0) as [[[[e2 t2] c2] w2] tr2] eqn:I.
  pose proof (initialize_shape _ _ _ _ _ _ _ _ I) as (_ & -> & _).
  apply initialize_stderr in I.
  rewrite printStderr_hidden in H by exact Hlog.
  destruct e2; [discriminate|]. unfold debugf in H.
  injection H as <- _ _ _. exact I.
Qed.

(** X9.  On an ephemeral transport that hides the server logs, the buffer
    that [closeProcess] looks at once the child has exited holds everything
    the child wrote to its standard error since it was started, nothing of
    it having been dropped on the way: a call whose child wrote anything
    there and exits with an error fails with a command error. *)
Theorem unshown_stderr_is_kept_until_exit
    m p t w out t' w' tr q waitErr buf :
  process t = None -> showServerLogs t = false ->
  Execute m p t w = ((out, t'), w', tr) ->
  In (Waited q waitErr buf) tr ->
  exists o oe pl ex,
    launch w (attempts w) = Starts o oe pl ex
    /\ buf = late_stderr o
    /\ forall why, waitErr = Some why -> late_stderr o <> "" ->
                   out = Fail (ErrCommand why).
Proof.
  intros Hp Hlog H I.
  destruct (Execute_waited _ _ _ _ _ _ _ _ Hp H _ _ _ I)
    as (line & r & _ & _ & Ho).
  apply in_io in I; [|reflexivity].
  destruct (Execute_ending _ _ _ _ _ _ _ _ H)
    as [(C & _)|(c & t1 & tr0 & pre & r' & buf' & fin & sk & line'
                 & E & Hio & Cpre & En & Hb & _)].
  { destruct (calm_no_wait _ _ _ _ C I). }
  destruct (ensure_session_stderr _ _ _ _ _ _ Hp Hlog E)
    as (o & oe & pl & ex & HL & Hc).
  rewrite Hlog, Hc in Hb. subst buf'.
  assert (buf = late_stderr o) as ->.
  { rewrite Hio in I. apply in_app_or in I as [I|I];
      [destruct (calm_no_wait _ _ _ _ Cpre I)|].
    inversion En; subst; try congruence;
      cbn in I; destruct I as [I|[I|[]]]; try discriminate;
      now injection I as _ _ <-. }
  exists o, oe, pl, ex. split; [exact HL|]. split; [reflexivity|].
  intros why -> Hne. rewrite Ho.
  destruct (String.eqb (late_stderr o) "") eqn:Eb; [|reflexivity].
  apply String.eqb_eq in Eb. contradiction.
Qed.

Lemma unshown_stderr_is_kept_until_exit_witness :
  In (Waited 0 (Some "exit status 1") ("warming up" ++ LF))
     (snd (Execute "ping" Nil (fresh ["srv"]) crashing_world))
  /\ fst (fst (fst (Execute "ping" Nil (fresh ["srv"]) crashing_world)))
     = Fail (ErrCommand "exit status 1").
Proof.
  destruct (Execute "ping" Nil (fresh ["srv"]) crashing_world)
    as [[[out t'] w'] tr] eqn:E.
  assert (I : In (Waited 0 (Some "exit status 1") ("warming up" ++ LF)) tr).
  { vm_compute in E. injection E as _ _ _ <-. vm_compute. auto 10. }
  split; [exact I|].
  destruct (unshown_stderr_is_kept_until_exit
              "ping" Nil (fresh ["srv"]) crashing_world out t' w' tr
              0%nat (Some "exit status 1") ("warming up" ++ LF)
              eq_refl eq_refl E I)
    as (o & oe & pl & ex & HL & Hb & Ho).
  cbn [fst]. apply (Ho _ eq_refl). rewrite <- Hb. discriminate.
Defined.

(** ** The debug flag *)

Lemma undebugged_app a b :
  undebugged (a ++ b) = (undebugged a ++ undebugged b)%list.
Proof. apply List.filter_app. Qed.

Lemma undebugged_debug t d : undebugged (debug_events t d) = [].
Proof. unfold debug_events. now destruct (debug t). Qed.

Lemma sbd_refl {A} (m : M A) : same_but_debug (fun a => a) m m.
Proof. intros w. repeat split. Qed.

Lemma sbd_ret {A} (g : A -> A) a1 a2 :
  a1 = g a2 -> same_but_debug g (ret a1) (ret a2).
Proof. intros -> w. repeat split. Qed.

Lemma sbd_bind {A B} (g : A -> A) (h : B -> B) (m1 m2 : M A)
    (f1 f2 : A -> M B) :
  same_but_debug g m1 m2 ->
  (forall a, same_but_debug h (f1 (g a)) (f2 a)) ->
  same_but_debug h (bind m1 f1) (bind m2 f2).
Proof.
  intros Hm Hf w. unfold bind.
  specialize (Hm w).
  destruct (m1 w) as [[a1 w1] tr1], (m2 w) as [[a2 w2] tr2].
  destruct Hm as (Ha & Hw & Ht). cbn [fst snd] in Ha, Hw, Ht. subst a1 w1.
  specialize (Hf a2 w2).
  destruct (f1 (g a2) w2) as [[b1 w1'] tr1'], (f2 a2 w2) as [[b2 w2'] tr2'].
  destruct Hf as (Hb & Hw' & Ht'). unfold agree. cbn [fst snd] in *.
  repeat split; try assumption.
  now rewrite !undebugged_app, Ht, Ht'.
Qed.

Lemma sbd_debugf t1 t2 d1 d2 :
  same_but_debug (fun a => a) (debugf t1 d1) (debugf t2 d2).
Proof.
  intros w. unfold debugf, agree. cbn [fst snd].
  now rewrite !undebugged_debug.
Qed.

Ltac sbd_step :=
  first [ apply sbd_refl
        | apply sbd_ret; reflexivity
        | eapply (sbd_bind (fun a => a));
            [first [apply sbd_debugf | apply sbd_refl] | intros ?] ].

Lemma sendRequest_debug t b c req :
  same_but_debug (fun a => a)
    (sendRequest (set_debug t b) c req) (sendRequest t c req).
Proof.
  unfold sendRequest.
  destruct (Request.Params req); [| |repeat sbd_step];
    (eapply (sbd_bind (fun a => a)); [apply sbd_debugf|intros _]);
    destruct (stdin_plan c (writes c)); repeat sbd_step.
Qed.

Lemma handle_line_debug t b id line :
  fst (handle_line (set_debug t b) id line) = fst (handle_line t id line)
  /\ undebugged (snd (handle_line (set_debug t b) id line))
     = undebugged (snd (handle_line t id line)).
Proof.
  unfold handle_line.
  destruct (String.eqb (raw line) "");
    [cbn [fst snd]; now rewrite !undebugged_debug|].
  destruct (syntax line) as [v|];
    [|cbn [fst snd]; now rewrite !undebugged_debug].
  destruct (decode_message v) as [msg|];
    [|cbn [fst snd]; now rewrite !undebugged_debug].
  destruct (is_notification msg);
    [cbn [fst snd]; now rewrite !undebugged_app, !undebugged_debug|].
  destruct (decode_response v) as [r|];
    [|cbn [fst snd]; now rewrite !undebugged_debug].
  destruct ((Response.ID r =? id) || is_some (Response.Error r));
    [destruct (Response.Error r)|];
    cbn [fst snd]; now rewrite ?undebugged_app, !undebugged_debug.
Qed.

Lemma read_chunk_debug t b id p lines :
  fst (read_chunk (set_debug t b) id p lines) = fst (read_chunk t id p lines)
  /\ undebugged (snd (read_chunk (set_debug t b) id p lines))
     = undebugged (snd (read_chunk t id p lines)).
Proof.
  induction lines as [|line rest IH]; [split; reflexivity|].
  cbn [read_chunk].
  destruct (handle_line_debug t b id line) as (Hs & He).
  destruct (handle_line (set_debug t b) id line) as [s1 ev1],
           (handle_line t id line) as [s2 ev2].
  cbn [fst snd] in Hs, He. subst s1.
  destruct s2 as [|r].
  - destruct (read_chunk (set_debug t b) id p rest) as [r1 ev1'],
             (read_chunk t id p rest) as [r2 ev2'].
    destruct IH as (Hr & He'). cbn [fst snd] in *. subst r1.
    split; [reflexivity|].
    change (Got p line :: ev1 ++ ev1')%list
      with ([Got p line] ++ ev1 ++ ev1')%list.
    change (Got p line :: ev2 ++ ev2')%list
      with ([Got p line] ++ ev2 ++ ev2')%list.
    now rewrite !undebugged_app, He, He'.
  - cbn [fst snd]. split; [reflexivity|].
    change (Got p line :: ev1) with ([Got p line] ++ ev1)%list.
    change (Got p line :: ev2) with ([Got p line] ++ ev2)%list.
    now rewrite !undebugged_app, He.
Qed.

Lemma read_loop_debug t b id p cause out :
  forall buf,
    fst (read_loop (set_debug t b) id p cause out buf)
    = fst (read_loop t id p cause out buf)
    /\ undebugged (snd (read_loop (set_debug t b) id p cause out buf))
       = undebugged (snd (read_loop t id p cause out buf)).
Proof.
  induction out as [|[chunk|bytes] rest IH]; intros buf.
  - split; reflexivity.
  - cbn [read_loop].
    destruct (read_chunk_debug t b id p chunk) as (Hr & He).
    destruct (read_chunk (set_debug t b) id p chunk) as [o1 ev1],
             (read_chunk t id p chunk) as [o2 ev2].
    cbn [fst snd] in Hr, He. subst o1.
    destruct o2 as [r|].
    + cbn [fst snd]. split; [reflexivity|exact He].
    + specialize (IH buf).
      destruct (read_loop (set_debug t b) id p cause rest buf)
        as [[[r1 rest1] buf1] ev1'],
          (read_loop t id p cause rest buf) as [[[r2 rest2] buf2] ev2'].
      destruct IH as (Hx & He'). cbn [fst snd] in *.
      injection Hx as -> -> ->.
      split; [reflexivity|]. now rewrite !undebugged_app, He, He'.
  - cbn [read_loop]. apply IH.
Qed.

Lemma readResponse_debug t b c :
  same_but_debug (fun a => a)
    (readResponse (set_debug t b) c) (readResponse t c).
Proof.
  intros w. unfold readResponse. cbn [nextID set_debug].
  destruct (read_loop_debug t b (wrap64 (nextID t - 1)) (pid c)
              (stdout_end c) (output c) (stderrBuf c)) as (Hx & He).
  destruct (read_loop (set_debug t b) _ _ _ _ _) as [[[r1 rest1] buf1] ev1],
           (read_loop t _ _ _ _ _) as [[[r2 rest2] buf2] ev2].
  cbn [fst snd] in *. injection Hx as -> -> ->.
  repeat split. exact He.
Qed.

Lemma closeProcess_debug t b c :
  same_but_debug (fun a => a)
    (closeProcess (set_debug t b) c) (closeProcess t c).
Proof.
  unfold closeProcess. cbn [process set_debug].
  destruct (process t); [apply sbd_refl|].
  eapply (sbd_bind (fun a => a)); [apply sbd_refl|intros _].
  destruct (exit_plan c) as [waitErr|]; repeat sbd_step.
Qed.

Lemma setupCommand_debug t b :
  same_but_debug (fun a => a) (setupCommand (set_debug t b)) (setupCommand t).
Proof.
  unfold setupCommand. cbn [command set_debug].
  destruct (command t); repeat sbd_step.
Qed.

Lemma keep_set_debug t b p : keep (set_debug t b) p = set_debug (keep t p) b.
Proof. unfold keep. cbn [process set_debug]. now destruct (process t). Qed.

Lemma initialize_debug t b c :
  same_but_debug (debug3 b) (initialize (set_debug t b) c) (initialize t c).
Proof.
  unfold initialize. cbn [nextID set_debug].
  eapply (sbd_bind (fun a => a));
    [exact (sendRequest_debug (set_nextID t _) b c _)|].
  intros [err c1]. destruct err; [apply sbd_ret; reflexivity|].
  eapply (sbd_bind (fun a => a));
    [exact (readResponse_debug (set_nextID t _) b c1)|].
  intros [r c2]. destruct r; [|apply sbd_ret; reflexivity].
  eapply (sbd_bind (fun a => a));
    [exact (sendRequest_debug (set_nextID t _) b c2 _)|].
  intros [err c3]. destruct err; apply sbd_ret; reflexivity.
Qed.

Lemma ensure_initialized_debug t b c i :
  same_but_debug (debug2 b)
    (ensure_initialized (set_debug t b) c i) (ensure_initialized t c i).
Proof.
  unfold ensure_initialized. destruct i.
  - eapply (sbd_bind (fun a => a)); [apply sbd_debugf|intros _].
    apply sbd_ret. unfold debug2. cbn [fst snd]. now rewrite keep_set_debug.
  - eapply sbd_bind; [apply initialize_debug|].
    intros [[e t1] c1]. cbn [debug3 fst snd].
    eapply (sbd_bind (fun a => a)); [apply sbd_refl|intros c2].
    destruct e;
      (eapply (sbd_bind (fun a => a)); [apply sbd_debugf|intros _]);
      apply sbd_ret; unfold debug2; cbn [fst snd];
      now rewrite keep_set_debug.
Qed.

Lemma ensure_session_debug t b :
  same_but_debug (debug2 b) (ensure_session (set_debug t b)) (ensure_session t).
Proof.
  unfold ensure_session. cbn [process set_debug].
  eapply (sbd_bind (fun a => a)).
  - destruct (cmd (default (mkProcess None false) (process t)));
      [apply sbd_refl|apply setupCommand_debug].
  - intros [c|e]; [|apply sbd_ret; reflexivity].
    eapply (sbd_bind (fun a => a)); [apply sbd_debugf|intros _].
    apply ensure_initialized_debug.
Qed.

Lemma exchange_debug m p t b c :
  same_but_debug (debug2 b)
    (exchange m p (set_debug t b) c) (exchange m p t c).
Proof.
  unfold exchange. cbn [nextID set_debug].
  eapply (sbd_bind (fun a => a));
    [exact (sendRequest_debug (set_nextID t _) b c _)|].
  intros [err c1].
  destruct err;
    [apply sbd_ret; unfold debug2; cbn [fst snd];
     now rewrite <- keep_set_debug|].
  eapply (sbd_bind (fun a => a));
    [exact (readResponse_debug (set_nextID t _) b c1)|].
  intros [r c2].
  eapply (sbd_bind (fun a => a)); [apply sbd_refl|intros c3].
  destruct r;
    [|apply sbd_ret; unfold debug2; cbn [fst snd];
      now rewrite <- keep_set_debug].
  eapply (sbd_bind (fun a => a));
    [exact (closeProcess_debug (set_nextID t _) b c3)|].
  intros [e|]; apply sbd_ret; unfold debug2; cbn [fst snd];
    now rewrite <- keep_set_debug.
Qed.

Lemma Execute_debug m p t b :
  same_but_debug (debug2 b) (Execute m p (set_debug t b)) (Execute m p t).
Proof.
  unfold Execute. eapply sbd_bind; [apply ensure_session_debug|].
  intros [[c|e] t1]; cbn [debug2 fst snd].
  - apply exchange_debug.
  - apply sbd_ret. reflexivity.
Qed.

Lemma run_debug calls b :
  forall t, same_but_debug (debug2 b) (run calls (set_debug t b)) (run calls t).
Proof.
  induction calls as [|[m p|v|v] calls IH]; intros t; cbn [run].
  - apply sbd_ret. reflexivity.
  - eapply sbd_bind; [apply Execute_debug|].
    intros [o t1]. cbn [debug2 fst snd].
    eapply sbd_bind; [apply IH|].
    intros [os t2]. apply sbd_ret. reflexivity.
  - replace (SetCloseAfterExecute (set_debug t b) v)
      with (set_debug (SetCloseAfterExecute t v) b) by now destruct v.
    apply IH.
  - apply (IH (SetShowServerLogs t v)).
Qed.

(** X10.  The debug flag changes nothing but the [DEBUG:] lines: run with
    the flag at any value, a sequence of calls returns the same outcomes,
    leaves the same transport (but for the flag) and the same world, and
    produces the same events in the same order once the [DEBUG:] lines are
    taken out. *)
Theorem debug_changes_only_debug_lines calls t b w :
  fst (fst (fst (run calls (set_debug t b) w))) = fst (fst (fst (run calls t w)))
  /\ snd (fst (fst (run calls (set_debug t b) w)))
     = set_debug (snd (fst (fst (run calls t w)))) b
  /\ snd (fst (run calls (set_debug t b) w)) = snd (fst (run calls t w))
  /\ undebugged (snd (run calls (set_debug t b) w))
     = undebugged (snd (run calls t w)).
Proof.
  destruct (run_debug calls b t w) as (Ha & Hw & Ht).
  rewrite Ha. repeat split; assumption.
Qed.

(** ** The life of an ephemeral child *)

(** X11.  A successful call on an ephemeral transport starts one command
    and ends with that child: its last two events close the standard input
    of the child it started and then wait for its exit or kill it; nothing
    is closed before, and the transport is left without a session, so the
    next call starts the command again. *)
Theorem ephemeral_call_closes_its_child m p t w res t' w' tr :
  process t = None ->
  Execute m p t w = ((Ok res, t'), w', tr) ->
  spawned tr = [attempts w] /\ w' = bump w /\ process t' = None
  /\ exists pre final,
      io tr = (pre ++ [StdinClosed (attempts w); final])%list
      /\ calm pre
      /\ (final = Killed (attempts w)
          \/ exists waitErr buf, final = Waited (attempts w) waitErr buf).
Proof.
  intros Hp H.
  destruct (Execute_process _ _ _ _ _ _ _ _ H) as (PN & _).
  destruct (Execute_ending _ _ _ _ _ _ _ _ H)
    as [(_ & e & D & _)
       |(c & t1 & tr0 & pre & r & buf & fin & sk & line
         & E & Hio & Cpre & En & _)]; [discriminate|].
  destruct (ensure_session_child _ _ _ _ _ _ E)
    as (c0 & S & hs & SS & (Hpid & _) & _).
  destruct (session_start_spawned _ _ _ _ _
              ltac:(rewrite Hp; reflexivity) SS)
    as (o & oe & pl & ex & HL & -> & -> & ->).
  cbn [pid] in Hpid.
  assert (Hs : spawned tr = [attempts w]).
  { destruct (Execute_spawn_shape _ _ _ _ _ _ _ _ H)
      as [(e & D & _)|(c2 & S2 & rest & SS2 & Hio2 & Hsp & _)];
      [discriminate|].
    destruct (session_start_spawned _ _ _ _ _
                ltac:(rewrite Hp; reflexivity) SS2)
      as (? & ? & ? & ? & _ & _ & _ & ->).
    now rewrite spawned_io, Hio2, spawned_app, Hsp. }
  split; [exact Hs|]. split; [reflexivity|]. split; [now apply PN|].
  rewrite Hio.
  inversion En; subst; try congruence; rewrite Hpid;
    eexists; eexists; (split; [reflexivity|]); (split; [exact Cpre|]);
    eauto.
Qed.

Lemma ephemeral_call_closes_its_child_witness :
  io (snd (Execute "ping" Nil (fresh ["srv"]) lingering_world))
  = [Spawned 0; Sent 0 (initRequest 1); Got 0 (reply 1 []);
     Sent 0 initNotification; Sent 0 (Request.mk "2.0" "ping" 2 Nil);
     Got 0 (reply 2 [("pong", JBool true)]); StdinClosed 0; Killed 0].
Proof.
  destruct (Execute "ping" Nil (fresh ["srv"]) lingering_world)
    as [[[out t'] w'] tr] eqn:E.
  destruct out as [res|e]; [|vm_compute in E; discriminate].
  destruct (ephemeral_call_closes_its_child
              "ping" Nil (fresh ["srv"]) lingering_world res t' w' tr
              eq_refl E) as (_ & _ & _ & pre & final & Hio & _).
  vm_compute in E. injection E as _ _ _ <-. reflexivity.
Defined.

(** X12.  When the command cannot be started (a pipe cannot be made, or
    the operating system refuses to start it), [Execute] returns the error
    of that step and leaves the transport as it was: no identifier is spent
    and nothing is sent, and the next call tries to start the command
    again. *)
Theorem spawn_failure_changes_nothing m p t w :
  cmd (default (mkProcess None false) (process t)) = None ->
  command t <> [] ->
  (forall o oe pl ex, launch w (attempts w) <> Starts o oe pl ex) ->
  exists e tr,
    Execute m p t w = ((Fail e, t), bump w, tr)
    /\ io tr = [] /\ texts tr = []
    /\ (forall why, launch w (attempts w) = NoStdinPipe why ->
                    error_text e = "error getting stdin pipe: " ++ why)
    /\ (forall why, launch w (attempts w) = NoStdoutPipe why ->
                    error_text e = "error getting stdout pipe: " ++ why)
    /\ (forall why, launch w (attempts w) = NoStart why ->
                    error_text e = "error starting command: " ++ why).
Proof.
  intros Hc Hcmd HL.
  unfold Execute, ensure_session, bind. rewrite Hc.
  destruct (setupCommand t w) as [[x w1] tr1] eqn:S.
  pose proof (setupCommand_spec _ _ _ _ _ S) as (Ht & Hs).
  destruct (command t) as [|a l]; [congruence|].
  destruct Hs as (-> & Hs).
  destruct (launch w (attempts w)) as [why|why|why|o oe pl ex] eqn:EL;
    [| | |destruct (HL _ _ _ _ eq_refl)];
    destruct Hs as (-> & Hio); eexists; eexists;
    (split; [unfold ret; reflexivity|]); rewrite !app_nil_r;
    (split; [exact Hio|]); (split; [exact Ht|]);
    repeat split; intros why' D; try discriminate;
    injection D as <-; reflexivity.
Qed.

Lemma spawn_failure_changes_nothing_witness :
  exists tr,
    Execute "ping" Nil (fresh ["srv"]) barren_world
    = ((Fail (ErrStart "exec: srv: executable file not found in $PATH"),
        fresh ["srv"]), bump barren_world, tr).
Proof.
  destruct (spawn_failure_changes_nothing "ping" Nil (fresh ["srv"])
              barren_world eq_refl) as (e & tr & E & _ & _ & _ & _ & He).
  - discriminate.
  - intros o oe pl ex. discriminate.
  - exists tr. rewrite E. do 3 f_equal.
    vm_compute in E. now injection E as <- _.
Defined.

(** ** What a read loop leaves behind *)

Lemma lines_of_app a b : lines_of (a ++ b) = (lines_of a ++ lines_of b)%list.
Proof.
  induction a as [|[chunk|bytes] a IH]; cbn [app lines_of]; [reflexivity| |exact IH].
  now rewrite IH, app_assoc.
Qed.

Lemma passed_existsb_stops id lines :
  passed id lines -> existsb (stops id) lines = false.
Proof.
  induction 1 as [|l lines Hl _ IH]; [reflexivity|].
  cbn [existsb]. unfold stops at 1. now rewrite Hl, IH.
Qed.

Lemma after_answer_found id before pre line more rest r :
  passed id (lines_of before ++ pre) ->
  verdict id line = Stop r ->
  after_answer id (before ++ Out (pre ++ line :: more) :: rest) = rest.
Proof.
  intros P V. induction before as [|[chunk|bytes] before IH];
    cbn [app after_answer lines_of] in *.
  - rewrite existsb_app. cbn [existsb]. unfold stops at 2. rewrite V.
    now rewrite orb_true_r.
  - rewrite <- app_assoc in P. apply Forall_app in P as (Pc & P).
    rewrite (passed_existsb_stops _ _ Pc). now apply IH.
  - now apply IH.
Qed.

(** X13.  The reader of a call is a new one: when the read that brings the
    line on which the loop returns brings more lines behind it, these stay
    in the reader of this call and are dropped with it; the child is left
    with what it writes after that read, so that no later call sees them. *)
Theorem lines_behind_the_answer_are_dropped
    t c w before pre line more rest r :
  output c = (before ++ Out (pre ++ line :: more) :: rest)%list ->
  passed (wrap64 (nextID t - 1)) (lines_of before ++ pre) ->
  verdict (wrap64 (nextID t - 1)) line = Stop r ->
  exists c' tr,
    readResponse t c w = ((r, c'), w, tr)
    /\ lines_got tr = (lines_of before ++ pre ++ [line])%list
    /\ output c' = rest.
Proof.
  intros Ho P V.
  destruct (readResponse t c w) as [[[r' c'] w'] tr] eqn:E.
  pose proof (readResponse_rest _ _ _ _ _ _ _ E) as Hr.
  rewrite Ho, (after_answer_found _ _ _ _ _ _ _ P V) in Hr.
  unfold readResponse in E.
  destruct (read_loop_stops t (wrap64 (nextID t - 1)) (pid c) (stdout_end c)
              (output c) (stderrBuf c) (lines_of before ++ pre) line
              (more ++ lines_of rest) r) as (rest' & buf' & L & _);
    [|exact P|exact V|].
  { rewrite Ho, lines_of_app. cbn [lines_of].
    now rewrite <- !app_assoc. }
  rewrite L in E. injection E as <- <- <- <-.
  exists (after_read c rest' buf'). eexists.
  split; [reflexivity|]. split; [|exact Hr].
  rewrite lines_got_io, io_read_events, lines_got_map_Got.
  now rewrite app_assoc.
Qed.

Lemma lines_behind_the_answer_are_dropped_witness :
  let c := mkChild 0 [Out [reply 2 [("pong", JBool true)];
                           reply 3 [("pong", JBool true)]]]
                   "EOF" always_written 3 (Exits None) "" in
  exists c' tr,
    readResponse (set_nextID (fresh ["srv"]) 3) c (world_of [] (Exits None))
    = ((Ok (Response.mk (Some [("pong", JBool true)]) None "2.0" 2), c'),
       world_of [] (Exits None), tr)
    /\ lines_got tr = [reply 2 [("pong", JBool true)]]
    /\ output c' = [].
Proof.
  exact (lines_behind_the_answer_are_dropped
           (set_nextID (fresh ["srv"]) 3)
           (mkChild 0 [Out [reply 2 [("pong", JBool true)];
                            reply 3 [("pong", JBool true)]]]
                    "EOF" always_written 3 (Exits None) "")
           (world_of [] (Exits None))
           [] [] (reply 2 [("pong", JBool true)])
           [reply 3 [("pong", JBool true)]] []
           (Ok (Response.mk (Some [("pong", JBool true)]) None "2.0" 2))
           eq_refl (List.Forall_nil _) eq_refl).
Defined.

(** ** Parameters that cannot be encoded *)

(** X14.  Parameters that [json.Marshal] refuses are found out only when
    the request is to be written: the call first has its session (the
    command is started, the handshake is made), then fails with the error
    of the encoding, having spent an identifier; nothing is written or read
    for the request, and there is no debug line for it. *)
Theorem unencodable_params_fail_after_the_handshake m why t w out t' w' tr :
  Execute m (Unencodable why) t w = ((out, t'), w', tr) ->
  exists x t1,
    ensure_session t w = ((x, t1), w', tr)
    /\ match x with
       | Fail e => out = Fail e /\ t' = t1
       | Ok c =>
           out = Fail (ErrMarshal why)
           /\ error_text (ErrMarshal why) = "error marshaling request: " ++ why
           /\ nextID t' = wrap64 (nextID t1 + 1)
       end.
Proof.
  intros H. unfold Execute, bind in H.
  destruct (ensure_session t w) as [[[x t1] w1] tr0] eqn:E.
  exists x, t1. destruct x as [c|e].
  - unfold exchange, bind, sendRequest, ret in H. cbn [Request.Params] in H.
    injection H as <- <- <- <-. rewrite !app_nil_r.
    split; [reflexivity|]. split; [reflexivity|]. split; [reflexivity|].
    now rewrite keep_nextID.
  - unfold ret in H. injection H as <- <- <- <-. rewrite app_nil_r.
    repeat split.
Qed.

Lemma unencodable_params_fail_after_the_handshake_witness :
  fst (fst (fst (Execute "ping" (Unencodable "json: unsupported type: chan int")
                   (fresh ["srv"]) echo_world)))
  = Fail (ErrMarshal "json: unsupported type: chan int")
  /\ sent (snd (Execute "ping" (Unencodable "json: unsupported type: chan int")
                  (fresh ["srv"]) echo_world))
     = [initRequest 1; initNotification].
Proof.
  split; [|reflexivity].
  destruct (Execute "ping" (Unencodable "json: unsupported type: chan int")
              (fresh ["srv"]) echo_world) as [[[out t'] w'] tr] eqn:E.
  destruct (unencodable_params_fail_after_the_handshake
              "ping" "json: unsupported type: chan int"
              (fresh ["srv"]) echo_world out t' w' tr E)
    as (x & t1 & Es & H).
  destruct x as [c|e]; [now destruct H as (-> & _)|].
  vm_compute in Es. discriminate.
Defined.

(** ** Without the debug flag *)

Lemma silent_ret {A} (P : A -> Prop) a : P a -> silent P (ret a).
Proof. intros H w. split; [constructor|exact H]. Qed.

Lemma silent_bind {A B} (P : A -> Prop) (Q : B -> Prop) (m : M A)
    (f : A -> M B) :
  silent P m -> (forall a, P a -> silent Q (f a)) -> silent Q (bind m f).
Proof.
  intros Hm Hf w. unfold bind. specialize (Hm w).
  destruct (m w) as [[a w1] tr1]. destruct Hm as (H1 & Pa).
  specialize (Hf a Pa w1). destruct (f a w1) as [[b w2] tr2].
  destruct Hf as (H2 & Qb). cbn [fst snd] in *.
  split; [|exact Qb]. apply Forall_app. split; assumption.
Qed.

Lemma silent_weaken {A} (P Q : A -> Prop) (m : M A) :
  (forall a, P a -> Q a) -> silent P m -> silent Q m.
Proof. intros H Hm w. destruct (Hm w) as (H1 & H2). split; auto. Qed.

Lemma no_debug_line_debug t d : debug t = false -> no_debug_line (debug_events t d).
Proof. intros H. unfold debug_events. rewrite H. constructor. Qed.

Lemma silent_debugf t d :
  debug t = false -> silent (fun _ => True) (debugf t d).
Proof. intros H w. split; [now apply no_debug_line_debug|exact I]. Qed.

Lemma silent_emit e :
  match e with Dbg _ => False | _ => True end ->
  silent (fun _ => True) (emit e).
Proof. intros H w. split; [|exact I]. constructor; [exact H|constructor]. Qed.

Ltac silent_step H :=
  first [ apply silent_ret; exact I
        | eapply silent_bind;
            [first [apply silent_debugf; exact H | apply silent_emit; exact I]
            |intros ? _] ].

Lemma sendRequest_silent t c req :
  debug t = false -> silent (fun _ => True) (sendRequest t c req).
Proof.
  intros H. unfold sendRequest.
  destruct (Request.Params req); [| |apply silent_ret; exact I];
    (eapply silent_bind; [apply silent_debugf; exact H|intros ? _]);
    destruct (stdin_plan c (writes c)); repeat silent_step H.
Qed.

Lemma no_debug_line_notification msg line :
  no_debug_line (notification_events msg line).
Proof.
  unfold notification_events.
  destruct (obj_get "method" msg) as [[]|]; try (repeat constructor).
  destruct (String.eqb _ _); [|repeat constructor].
  destruct (obj_get "params" msg) as [[]|]; repeat constructor.
Qed.

Lemma handle_line_silent t id line :
  debug t = false -> no_debug_line (snd (handle_line t id line)).
Proof.
  intros H. unfold handle_line.
  pose proof (fun d => no_debug_line_debug t d H) as Hd.
  pose proof (no_debug_line_notification) as Hn.
  destruct (String.eqb (raw line) ""); [apply Hd|].
  destruct (syntax line) as [v|]; [|apply Hd].
  destruct (decode_message v) as [msg|]; [|apply Hd].
  destruct (is_notification msg);
    [apply Forall_app; split; [apply Hd|apply Hn]|].
  destruct (decode_response v) as [r|]; [|apply Hd].
  destruct ((Response.ID r =? id) || is_some (Response.Error r));
    [destruct (Response.Error r)|]; cbn [snd];
    try apply Hd; apply Forall_app; split; apply Hd.
Qed.

Lemma read_chunk_silent t id p lines :
  debug t = false -> no_debug_line (snd (read_chunk t id p lines)).
Proof.
  intros H. induction lines as [|line rest IH]; [constructor|].
  cbn [read_chunk]. pose proof (handle_line_silent t id line H) as Hl.
  destruct (handle_line t id line) as [s ev]. cbn [snd] in Hl.
  destruct s as [|r].
  - destruct (read_chunk t id p rest) as [r' ev']. cbn [snd] in *.
    constructor; [exact I|]. apply Forall_app. split; assumption.
  - cbn [snd]. constructor; [exact I|exact Hl].
Qed.

Lemma read_loop_silent t id p cause out :
  debug t = false ->
  forall buf, no_debug_line (snd (read_loop t id p cause out buf)).
Proof.
  intros H. induction out as [|[chunk|bytes] rest IH]; intros buf.
  - repeat constructor.
  - cbn [read_loop]. pose proof (read_chunk_silent t id p chunk H) as Hc.
    destruct (read_chunk t id p chunk) as [[r|] ev]; cbn [snd] in *;
      [exact Hc|].
    specialize (IH buf).
    destruct (read_loop t id p cause rest buf) as [[[r1 rest1] buf1] ev1].
    cbn [snd] in *. apply Forall_app. split; assumption.
  - cbn [read_loop]. apply IH.
Qed.

Lemma readResponse_silent t c :
  debug t = false -> silent (fun _ => True) (readResponse t c).
Proof.
  intros H w. unfold readResponse.
  pose proof (read_loop_silent t (wrap64 (nextID t - 1)) (pid c)
                (stdout_end c) (output c) H (stderrBuf c)) as Hl.
  destruct (read_loop _ _ _ _ _ _) as [[[r rest] buf] ev].
  split; [exact Hl|exact I].
Qed.

Lemma no_debug_line_server_log buf : no_debug_line (server_log buf).
Proof.
  unfold server_log. induction (split_after_LF buf "") as [|l ls IH];
    [constructor|].
  cbn [flat_map]. apply Forall_app. split; [|exact IH].
  destruct (String.eqb (trim_LF l) ""); repeat constructor.
Qed.

Lemma printStderr_silent t c : silent (fun _ => True) (printStderr t c).
Proof.
  intros w. unfold printStderr.
  destruct (negb (showServerLogs t)); [split; [constructor|exact I]|].
  destruct (String.eqb (stderrBuf c) ""); (split; [|exact I]);
    [constructor|apply no_debug_line_server_log].
Qed.

Lemma closeProcess_silent t c :
  debug t = false -> silent (fun _ => True) (closeProcess t c).
Proof.
  intros H. unfold closeProcess.
  destruct (process t); [apply silent_ret; exact I|].
  eapply silent_bind; [apply silent_emit; exact I|intros ? _].
  destruct (exit_plan c) as [[why|]|]; repeat silent_step H.
  destruct (negb _); apply silent_ret; exact I.
Qed.

Lemma setupCommand_silent t :
  debug t = false -> silent (fun _ => True) (setupCommand t).
Proof.
  intros H. unfold setupCommand.
  destruct (command t); [apply silent_ret; exact I|].
  eapply silent_bind; [apply silent_debugf; exact H|intros ? _].
  intros w. destruct (launch w (attempts w)); split;
    try exact I; repeat constructor.
Qed.

Lemma keep_debug t p : debug (keep t p) = debug t.
Proof. unfold keep. now destruct (process t). Qed.

Lemma initialize_silent t c :
  debug t = false ->
  silent (fun x => debug (snd (fst x)) = false) (initialize t c).
Proof.
  intros H. unfold initialize.
  eapply silent_bind; [apply sendRequest_silent; exact H|].
  intros [err c1] _. destruct err; [apply silent_ret; exact H|].
  eapply silent_bind; [apply readResponse_silent; exact H|].
  intros [r c2] _. destruct r; [|apply silent_ret; exact H].
  eapply silent_bind; [apply sendRequest_silent; exact H|].
  intros [err c3] _. destruct err; apply silent_ret; exact H.
Qed.

Lemma ensure_initialized_silent t c i :
  debug t = false ->
  silent (fun x => debug (snd x) = false) (ensure_initialized t c i).
Proof.
  intros H. unfold ensure_initialized. destruct i.
  - eapply silent_bind; [apply silent_debugf; exact H|intros ? _].
    apply silent_ret. cbn [snd]. now rewrite keep_debug.
  - eapply silent_bind; [apply initialize_silent; exact H|].
    intros [[e t1] c1] H1. cbn [fst snd] in H1.
    eapply silent_bind; [apply printStderr_silent|intros c2 _].
    destruct e;
      (eapply silent_bind; [apply silent_debugf; exact H1|intros ? _]);
      apply silent_ret; cbn [snd]; now rewrite keep_debug.
Qed.

Lemma ensure_session_silent t :
  debug t = false ->
  silent (fun x => debug (snd x) = false) (ensure_session t).
Proof.
  intros H. unfold ensure_session.
  eapply (silent_bind (fun _ => True)).
  - destruct (cmd (default (mkProcess None false) (process t)));
      [apply silent_ret; exact I|apply setupCommand_silent; exact H].
  - intros [c|e] _; [|apply silent_ret; exact H].
    eapply silent_bind; [apply silent_debugf; exact H|intros ? _].
    apply ensure_initialized_silent; exact H.
Qed.

Lemma exchange_silent m p t c :
  debug t = false ->
  silent (fun x => debug (snd x) = false) (exchange m p t c).
Proof.
  intros H. unfold exchange.
  eapply silent_bind; [apply sendRequest_silent; exact H|].
  intros [err c1] _.
  destruct err; [apply silent_ret; cbn [snd]; now rewrite keep_debug|].
  eapply silent_bind; [apply readResponse_silent; exact H|].
  intros [r c2] _.
  eapply silent_bind; [apply printStderr_silent|intros c3 _].
  destruct r; [|apply silent_ret; cbn [snd]; now rewrite keep_debug].
  eapply silent_bind; [apply closeProcess_silent; exact H|].
  intros [e|] _; apply silent_ret; cbn [snd]; now rewrite keep_debug.
Qed.

Lemma Execute_silent m p t :
  debug t = false ->
  silent (fun x => debug (snd x) = false) (Execute m p t).
Proof.
  intros H. unfold Execute.
  eapply silent_bind; [apply ensure_session_silent; exact H|].
  intros [[c|e] t1] H1; cbn [snd] in H1.
  - apply exchange_silent; exact H1.
  - apply silent_ret. exact H1.
Qed.

Lemma run_silent calls :
  forall t, debug t = false ->
            silent (fun x => debug (snd x) = false) (run calls t).
Proof.
  induction calls as [|[m p|v|v] calls IH]; intros t H; cbn [run].
  - apply silent_ret. exact H.
  - eapply silent_bind; [apply Execute_silent; exact H|].
    intros [o t1] H1. cbn [snd] in H1.
    eapply silent_bind; [apply IH; exact H1|].
    intros [os t2] H2. apply silent_ret. exact H2.
  - apply IH. now destruct v.
  - apply IH. exact H.
Qed.

(** X15.  [NewStdio] reads the debug flag from the environment, and
    nothing changes it afterwards: on a transport made while [MCP_DEBUG] is
    not [1], no call of any sequence writes a [DEBUG:] line, and the flag
    is still off at the end. *)
Theorem no_debug_line_unless_asked command calls w t0 w0 tr0 outs t' w' tr :
  env_debug w = false ->
  NewStdio command w = (t0, w0, tr0) ->
  run calls t0 w0 = ((outs, t'), w', tr) ->
  no_debug_line tr /\ debug t' = false.
Proof.
  intros He HN H. unfold NewStdio in HN. injection HN as <- <- <-.
  destruct (run_silent calls (mkStdio None command 1 (env_debug w) false)
              He w) as (H1 & H2).
  rewrite H in H1, H2. split; assumption.
Qed.

Lemma no_debug_line_unless_asked_witness :
  no_debug_line (snd (run two_pings (fresh ["srv"]) echo_world)).
Proof.
  destruct (run two_pings (fresh ["srv"]) echo_world)
    as [[[outs t'] w'] tr] eqn:E.
  exact (proj1 (no_debug_line_unless_asked ["srv"] two_pings echo_world
                  (fresh ["srv"]) echo_world [] outs t' w' tr
                  eq_refl eq_refl E)).
Defined.

(** ** The child of a call *)

Lemma concerns_only_app p a b :
  concerns_only p a -> concerns_only p b -> concerns_only p (a ++ b).
Proof. intros A B. apply Forall_app. split; assumption. Qed.

Lemma concerns_only_io p tr : concerns_only p (io tr) -> concerns_only p tr.
Proof.
  unfold concerns_only. rewrite !List.Forall_forall. intros H e I.
  destruct (is_io e) eqn:E; [apply H, in_io; assumption|].
  now destruct e.
Qed.

Lemma concerns_only_Got p lines : concerns_only p (map (Got p) lines).
Proof. induction lines; constructor; [reflexivity|assumption]. Qed.

Lemma reading_pids id p rd r : reading id p rd r -> concerns_only p rd.
Proof.
  intros H. inversion H; subst.
  - apply concerns_only_Got.
  - apply concerns_only_app; [apply concerns_only_Got|].
    constructor; [reflexivity|constructor].
Qed.

Lemma handshake_pids n p hs e : handshake n p hs e -> concerns_only p hs.
Proof.
  intros H. inversion H as [|rd e' R|rd r e' R|rd r R]; subst.
  - constructor.
  - constructor; [reflexivity|]. eapply reading_pids; eauto.
  - constructor; [reflexivity|]. eapply reading_pids; eauto.
  - constructor; [reflexivity|]. apply concerns_only_app.
    + eapply reading_pids; eauto.
    + constructor; [reflexivity|constructor].
Qed.

Lemma ending_pids t c r buf fin out :
  ending t c r buf fin out -> concerns_only (pid c) fin.
Proof. intros H. inversion H; subst; repeat constructor. Qed.

Lemma exchange_pids m p t c w out t2 w2 tr :
  exchange m p t c w = ((out, t2), w2, tr) -> concerns_only (pid c) (io tr).
Proof.
  intros H. apply exchange_shape in H as (_ & _ & H). cbv zeta in H.
  destruct H as [(e & _ & _ & ->)
                |[(rd & e & _ & R & ->)
                 |(rd & r & buf & fin & R & En & -> & _)]].
  - constructor.
  - constructor; [reflexivity|]. eapply reading_pids; eauto.
  - constructor; [reflexivity|]. apply concerns_only_app.
    + eapply reading_pids; eauto.
    + eapply ending_pids; eauto.
Qed.

(** A call on a session that holds no child deals with the child it
    starts and with no other. *)
Lemma Execute_pids m p t w out t' w' tr :
  cmd (default (mkProcess None false) (process t)) = None ->
  Execute m p t w = ((out, t'), w', tr) ->
  concerns_only (attempts w) tr.
Proof.
  intros Hc H. apply concerns_only_io.
  apply Execute_shape in H as (x & t1 & tr0 & tr1 & E & -> & H).
  rewrite io_app.
  pose proof (ensure_session_shape _ _ _ _ _ _ E) as Sh. cbv zeta in Sh.
  destruct Sh as [(e & -> & _ & _ & Hio & _)
                 |(c0 & S & SS & Sh)].
  - destruct H as (_ & _ & ->). rewrite Hio. constructor.
  - destruct (session_start_spawned _ _ _ _ _ Hc SS)
      as (o & oe & pl & ex & HL & -> & -> & ->).
    destruct Sh as [(_ & -> & -> & Hio)
                   |(_ & e & c1 & hs & HS & Hio & (Hpid & _) & -> & ->)];
      rewrite Hio.
    + apply concerns_only_app; [repeat constructor|].
      exact (exchange_pids _ _ _ _ _ _ _ _ _ H).
    + cbn [pid] in HS, Hpid.
      apply concerns_only_app;
        [apply concerns_only_app;
         [repeat constructor|eapply handshake_pids; eauto]|].
      destruct e as [e|]; [destruct H as (_ & _ & ->); constructor|].
      rewrite <- Hpid. exact (exchange_pids _ _ _ _ _ _ _ _ _ H).
Qed.

(** X16.  [SetCloseAfterExecute], with either value, drops the session
    that the transport kept without a word to its child: the next call
    deals with the child that it starts itself and with no other, so the
    child of the dropped session is neither written to nor read, and is
    never closed, waited for or killed. *)
Theorem set_mode_abandons_the_kept_child t pr c v m p w out t' w' tr :
  process t = Some pr -> cmd pr = Some c -> (pid c < attempts w)%nat ->
  Execute m p (SetCloseAfterExecute t v) w = ((out, t'), w', tr) ->
  concerns_only (attempts w) tr
  /\ Forall (fun e => pid_of e <> Some (pid c)) tr.
Proof.
  intros Hp Hc Hlt H.
  assert (C : concerns_only (attempts w) tr).
  { eapply Execute_pids; [|exact H]. now destruct v. }
  split; [exact C|].
  eapply List.Forall_impl; [|exact C]. cbn beta. intros e He D.
  rewrite D in He. lia.
Qed.

Lemma set_mode_abandons_the_kept_child_witness :
  pid_of (Spawned 1) = Some 1%nat
  /\ Forall (fun e => pid_of e <> Some 0%nat)
            (snd (Execute "ping" Nil (SetCloseAfterExecute live_transport true)
                    live_world)).
Proof.
  split; [reflexivity|].
  destruct (Execute "ping" Nil (SetCloseAfterExecute live_transport true)
              live_world) as [[[out t'] w'] tr] eqn:E.
  exact (proj2 (set_mode_abandons_the_kept_child
                  live_transport
                  (mkProcess (Some (mkChild 0 [] "EOF" always_written 3
                                            (Exits None) "")) true)
                  (mkChild 0 [] "EOF" always_written 3 (Exits None) "")
                  true "ping" Nil live_world out t' w' tr
                  eq_refl eq_refl ltac:(vm_compute; lia) E)).
Defined.

(** * The arguments of the command [call] *)

Lemma pair_ind (P : list string -> Prop) :
  P [] -> (forall a, P [a]) ->
  (forall a v rest, P rest -> P (v :: rest) -> P (a :: v :: rest)) ->
  forall l, P l.
Proof.
  intros H0 H1 H2 l.
  assert (H : P l /\ forall a, P (a :: l)); [|exact (proj1 H)].
  induction l as [|v l (IH1 & IH2)]; [split; [exact H0|exact H1]|].
  split; [apply IH2|]. intros a. apply H2; [exact IH1|apply IH2].
Qed.

(** Before an entity name is found no command argument is collected. *)
Definition ordered (s : parsing) : Prop :=
  entityExtracted s = false -> parsedArgs s = [].

Lemma positional_put s a :
  ordered s ->
  let s' := if negb (entityExtracted s) then set_entityName s a
            else append_parsedArgs s a in
  positional s' = (positional s ++ [a])%list /\ ordered s'
  /\ FormatOption s' = FormatOption s /\ ParamsString s' = ParamsString s.
Proof.
  intros O. unfold positional, ordered in *.
  destruct (entityExtracted s) eqn:E; cbn [negb].
  - cbn [append_parsedArgs entityExtracted entityName parsedArgs
           FormatOption ParamsString].
    rewrite E. split; [now rewrite <- app_assoc|].
    split; [discriminate|split; reflexivity].
  - cbn [set_entityName entityExtracted entityName parsedArgs
           FormatOption ParamsString].
    rewrite (O eq_refl). split; [reflexivity|].
    split; [discriminate|split; reflexivity].
Qed.

Lemma flags_only_last_cons k a pos :
  is_flag k a = false -> flags_only_last k pos -> flags_only_last k (a :: pos).
Proof.
  intros Ha F pre x post E Hne. destruct pre as [|b pre].
  - injection E as <- _. exact Ha.
  - injection E as _ E. exact (F _ _ _ E Hne).
Qed.

Lemma parse_loop_format k a v rest s :
  is_format k a = true ->
  parse_loop k (a :: v :: rest) s = parse_loop k rest (set_FormatOption s v).
Proof. intros H. cbn [parse_loop]. now rewrite H. Qed.

Lemma parse_loop_params k a v rest s :
  is_format k a = false -> is_params k a = true ->
  parse_loop k (a :: v :: rest) s = parse_loop k rest (set_ParamsString s v).
Proof. intros Hf Hp. cbn [parse_loop]. now rewrite Hf, Hp. Qed.

Lemma parse_loop_other k a rest s :
  is_flag k a = false ->
  parse_loop k (a :: rest) s
  = parse_loop k rest (if negb (entityExtracted s) then set_entityName s a
                       else append_parsedArgs s a).
Proof.
  intros H. apply orb_false_iff in H as (Hf & Hp).
  destruct rest as [|v rest]; cbn [parse_loop]; rewrite ?Hf, ?Hp;
    now destruct (entityExtracted s).
Qed.

Lemma parse_loop_last k a s :
  parse_loop k [a] s
  = (if negb (entityExtracted s) then set_entityName s a
     else append_parsedArgs s a).
Proof. cbn [parse_loop]. now destruct (entityExtracted s). Qed.

Lemma flags_only_last_nil k : flags_only_last k [].
Proof. intros [|? ?] x post E; discriminate. Qed.

Lemma flags_only_last_one k a : flags_only_last k [a].
Proof.
  intros [|? [|? ?]] x post E Hne; try discriminate.
  injection E as _ <-. congruence.
Qed.

Lemma parse_loop_positional k args :
  forall s,
    ordered s ->
    exists pos,
      positional (parse_loop k args s) = (positional s ++ pos)%list
      /\ ordered (parse_loop k args s)
      /\ sublist pos args
      /\ flags_only_last k pos
      /\ (Forall (fun a => is_flag k a = false) args ->
          pos = args
          /\ FormatOption (parse_loop k args s) = FormatOption s
          /\ ParamsString (parse_loop k args s) = ParamsString s).
Proof.
  induction args as [|a|a v rest IH1 IH2] using pair_ind; intros s O.
  - exists []. cbn [parse_loop]. rewrite app_nil_r.
    split; [reflexivity|]. split; [exact O|]. split; [constructor|].
    split; [apply flags_only_last_nil|]. intros _. auto.
  - exists [a]. rewrite parse_loop_last.
    destruct (positional_put s a O) as (Hp & O' & Hf & Hq). cbv zeta in *.
    split; [exact Hp|]. split; [exact O'|]. split; [reflexivity|].
    split; [apply flags_only_last_one|]. intros _. auto.
  - destruct (is_format k a) eqn:Ef; [|destruct (is_params k a) eqn:Ep].
    + rewrite (parse_loop_format _ _ _ _ _ Ef).
      destruct (IH1 (set_FormatOption s v) O) as (pos & Hp & O' & Sb & Fl & _).
      exists pos. split; [exact Hp|]. split; [exact O'|].
      split; [now do 2 apply sublist_cons|]. split; [exact Fl|].
      intros H. inversion H as [|? ? Ha _]; subst.
      unfold is_flag in Ha. rewrite Ef in Ha. discriminate.
    + rewrite (parse_loop_params _ _ _ _ _ Ef Ep).
      destruct (IH1 (set_ParamsString s v) O) as (pos & Hp & O' & Sb & Fl & _).
      exists pos. split; [exact Hp|]. split; [exact O'|].
      split; [now do 2 apply sublist_cons|]. split; [exact Fl|].
      intros H. inversion H as [|? ? Ha _]; subst.
      unfold is_flag in Ha. rewrite Ef, Ep in Ha. discriminate.
    + rewrite parse_loop_other by (unfold is_flag; now rewrite Ef, Ep).
      destruct (positional_put s a O) as (Hp & O' & Hf & Hq). cbv zeta in *.
      destruct (IH2 _ O') as (pos & Hp' & O2 & Sb & Fl & Hall).
      exists (a :: pos). rewrite Hp', Hp, <- app_assoc. cbn [app].
      split; [reflexivity|]. split; [exact O2|].
      split; [now apply sublist_skip|]. split.
      * apply flags_only_last_cons; [|exact Fl].
        unfold is_flag. now rewrite Ef, Ep.
      * intros H. inversion H as [|? ? _ H']; subst.
        destruct (Hall H') as (-> & -> & ->). auto.
Qed.

Lemma put_extracted s a :
  entityExtracted (if negb (entityExtracted s) then set_entityName s a
                   else append_parsedArgs s a) = true.
Proof. now destruct (entityExtracted s) eqn:E. Qed.

Lemma parse_loop_extracted k args :
  forall s,
    (entityExtracted s = true -> entityExtracted (parse_loop k args s) = true)
    /\ (entityExtracted (parse_loop k args s) = false ->
        entityName (parse_loop k args s) = entityName s).
Proof.
  induction args as [|a|a v rest IH1 IH2] using pair_ind; intros s.
  - split; auto.
  - rewrite parse_loop_last. rewrite put_extracted. split; [auto|discriminate].
  - destruct (is_format k a) eqn:Ef; [|destruct (is_params k a) eqn:Ep].
    + rewrite (parse_loop_format _ _ _ _ _ Ef).
      exact (IH1 (set_FormatOption s v)).
    + rewrite (parse_loop_params _ _ _ _ _ Ef Ep).
      exact (IH1 (set_ParamsString s v)).
    + rewrite parse_loop_other by (unfold is_flag; now rewrite Ef, Ep).
      destruct (IH2 (if negb (entityExtracted s) then set_entityName s a
                     else append_parsedArgs s a)) as (H1 & _).
      rewrite (H1 (put_extracted s a)). split; [auto|discriminate].
Qed.

(** The loop cuts the arguments into pieces, keeps the arguments kept in
    their order and leaves in each option the value of the last flag of
    its kind. *)
Lemma parse_loop_pieces k args :
  forall s,
    ordered s ->
    exists pieces,
      args = flat_map piece_args pieces
      /\ well_cut k pieces
      /\ positional (parse_loop k args s) = (positional s ++ kept_of pieces)%list
      /\ FormatOption (parse_loop k args s)
         = last_value (is_format k) pieces (FormatOption s)
      /\ ParamsString (parse_loop k args s)
         = last_value (sets_params k) pieces (ParamsString s).
Proof.
  induction args as [|a|a v rest IH1 IH2] using pair_ind; intros s O.
  - exists []. cbn. rewrite app_nil_r. auto.
  - exists [Kept a]. rewrite parse_loop_last.
    destruct (positional_put s a O) as (Hp & _ & Hf & Hq). cbv zeta in *.
    split; [reflexivity|]. split; [cbn [well_cut]; auto|].
    split; [exact Hp|]. split; assumption.
  - destruct (is_format k a) eqn:Ef; [|destruct (is_params k a) eqn:Ep].
    + rewrite (parse_loop_format _ _ _ _ _ Ef).
      destruct (IH1 (set_FormatOption s v) O) as (ps & -> & W & Hp & Hf & Hq).
      assert (Ks : sets_params k a = false)
        by (unfold sets_params; now rewrite Ef).
      exists (Taken a v :: ps).
      split; [reflexivity|]. split.
      { cbn [well_cut]. split; [unfold is_flag; now rewrite Ef|exact W]. }
      split; [exact Hp|]. split.
      * cbn [last_value]. rewrite Ef. exact Hf.
      * cbn [last_value]. rewrite Ks. exact Hq.
    + rewrite (parse_loop_params _ _ _ _ _ Ef Ep).
      destruct (IH1 (set_ParamsString s v) O) as (ps & -> & W & Hp & Hf & Hq).
      assert (Ks : sets_params k a = true)
        by (unfold sets_params; now rewrite Ef, Ep).
      exists (Taken a v :: ps).
      split; [reflexivity|]. split.
      { cbn [well_cut].
        split; [unfold is_flag; rewrite Ef, Ep; reflexivity|exact W]. }
      split; [exact Hp|]. split.
      * cbn [last_value]. rewrite Ef. exact Hf.
      * cbn [last_value]. rewrite Ks. exact Hq.
    + rewrite parse_loop_other by (unfold is_flag; now rewrite Ef, Ep).
      destruct (positional_put s a O) as (Hp & O' & Hf & Hq). cbv zeta in *.
      destruct (IH2 _ O') as (ps & E & W & Hp' & Hf' & Hq').
      exists (Kept a :: ps).
      split; [cbn [flat_map piece_args app]; now rewrite <- E|]. split.
      { cbn [well_cut].
        split; [left; unfold is_flag; now rewrite Ef, Ep|exact W]. }
      split.
      { rewrite Hp', Hp, <- app_assoc. reflexivity. }
      split; cbn [last_value]; [now rewrite Hf', Hf|now rewrite Hq', Hq].
Qed.

(** X17.  The loop of [CallCmd] cuts its arguments, from the left, into
    pieces: a flag that has an argument behind it is taken with that
    argument (whatever the argument looks like), and every other argument
    is kept; the pieces make up all the arguments.  The arguments kept, in
    their order, are the entity name and then the command of the server,
    so that none is lost and the command holds the name of a flag in its
    last place at most; without an argument kept there is no entity name.
    Each of the two options is the value taken with the last flag of its
    kind, and is left as it was when there is none. *)
Theorem call_arguments_kept k args format params :
  let s := parse_loop k args (before_loop format params) in
  exists pieces,
    args = flat_map piece_args pieces
    /\ well_cut k pieces
    /\ match kept_of pieces with
       | [] =>
           entityExtracted s = false /\ entityName s = ""
           /\ parsedArgs s = []
       | e :: command =>
           entityExtracted s = true /\ entityName s = e
           /\ parsedArgs s = command
       end
    /\ FormatOption s = last_value (is_format k) pieces format
    /\ ParamsString s = last_value (sets_params k) pieces params
    /\ sublist (kept_of pieces) args
    /\ flags_only_last k (kept_of pieces)
    /\ (Forall (fun a => is_flag k a = false) args ->
        kept_of pieces = args /\ FormatOption s = format
        /\ ParamsString s = params).
Proof.
  intros s.
  assert (O0 : ordered (before_loop format params)) by (intros _; reflexivity).
  destruct (parse_loop_pieces k args _ O0) as (ps & E & W & Hp & Hf & Hq).
  destruct (parse_loop_positional k args _ O0)
    as (pos & Hp' & O & Sb & Fl & Hall).
  destruct (parse_loop_extracted k args (before_loop format params))
    as (_ & Hname).
  fold s in Hp, Hf, Hq, Hp', O, Hall, Hname.
  cbn [positional before_loop entityExtracted parsedArgs app
       FormatOption ParamsString entityName] in Hp, Hp', Hf, Hq, Hname.
  assert (pos = kept_of ps) as -> by congruence. clear Hp'.
  exists ps. split; [exact E|]. split; [exact W|]. split.
  { unfold positional in Hp. unfold ordered in O.
    destruct (entityExtracted s) eqn:Ee.
    - cbn [app] in Hp. rewrite <- Hp. auto.
    - rewrite (O eq_refl) in *. cbn in Hp. rewrite <- Hp. auto. }
  split; [exact Hf|]. split; [exact Hq|]. split; [exact Sb|].
  split; [exact Fl|exact Hall].
Qed.

Lemma parse_loop_no_format k args :
  forall s,
    Forall (fun a => is_format k a = false) args ->
    FormatOption (parse_loop k args s) = FormatOption s.
Proof.
  induction args as [|a|a v rest IH1 IH2] using pair_ind; intros s H.
  - reflexivity.
  - cbn. now destruct (entityExtracted s).
  - inversion H as [|? ? Ha H']; subst. inversion H' as [|? ? _ H'']; subst.
    destruct (is_params k a) eqn:Ep.
    + now rewrite (parse_loop_params _ _ _ _ _ Ha Ep), (IH1 _ H'').
    + rewrite parse_loop_other by (unfold is_flag; now rewrite Ha, Ep).
      rewrite (IH2 _ H'). now destruct (entityExtracted s).
Qed.

Lemma parse_loop_no_params k args :
  forall s,
    Forall (fun a => is_params k a = false) args ->
    ParamsString (parse_loop k args s) = ParamsString s.
Proof.
  induction args as [|a|a v rest IH1 IH2] using pair_ind; intros s H.
  - reflexivity.
  - cbn. now destruct (entityExtracted s).
  - inversion H as [|? ? Ha H']; subst. inversion H' as [|? ? _ H'']; subst.
    destruct (is_format k a) eqn:Ef.
    + now rewrite (parse_loop_format _ _ _ _ _ Ef), (IH1 _ H'').
    + rewrite parse_loop_other by (unfold is_flag; now rewrite Ef, Ha).
      rewrite (IH2 _ H'). now destruct (entityExtracted s).
Qed.

Lemma parse_loop_skip k pre tail :
  Forall (fun a => is_flag k a = false) pre ->
  forall s, exists s',
    parse_loop k (pre ++ tail) s = parse_loop k tail s'.
Proof.
  induction 1 as [|a pre Ha _ IH]; intros s; [now exists s|].
  cbn [app]. rewrite (parse_loop_other _ _ _ _ Ha). apply IH.
Qed.

(** X18.  A flag may stand behind the entity name and the command: when
    the arguments before it are no flag names, the argument after
    [--format] (or [--params]) becomes the option, whatever it looks like,
    and it stays the option when no flag of that name comes after it. *)
Theorem call_option_is_taken k pre f v post s :
  Forall (fun a => is_flag k a = false) pre ->
  (is_format k f = true ->
   Forall (fun a => is_format k a = false) post ->
   FormatOption (parse_loop k (pre ++ f :: v :: post) s) = v)
  /\ (is_format k f = false -> is_params k f = true ->
      Forall (fun a => is_params k a = false) post ->
      ParamsString (parse_loop k (pre ++ f :: v :: post) s) = v).
Proof.
  intros Hpre.
  destruct (parse_loop_skip k pre (f :: v :: post) Hpre s) as (s' & ->).
  split.
  - intros Hf Hpost. rewrite (parse_loop_format _ _ _ _ _ Hf).
    now rewrite (parse_loop_no_format _ _ _ Hpost).
  - intros Hf Hp Hpost. rewrite (parse_loop_params _ _ _ _ _ Hf Hp).
    now rewrite (parse_loop_no_params _ _ _ Hpost).
Qed.

Lemma call_option_is_taken_witness :
  let s := parse_loop example_names
             ["read_file"; "npx"; "srv"; "--params"; "--format"; "-f"; "json"]
             (before_loop "table" "") in
  ParamsString s = "--format" /\ FormatOption s = "json".
Proof.
  split.
  - apply (proj2 (call_option_is_taken example_names
                    ["read_file"; "npx"; "srv"] "--params" "--format"
                    ["-f"; "json"] (before_loop "table" "")
                    ltac:(repeat constructor)));
      [reflexivity|reflexivity|repeat constructor].
  - reflexivity.
Defined.

Lemma split_colon_joins ty name :
  has_colon ty = false -> split_colon (ty ++ ":" ++ name) = Some (ty, name).
Proof.
  change (":" ++ name) with (String ":" name).
  induction ty as [|c ty IH]; intros H; [reflexivity|].
  cbn [has_colon] in H. apply orb_false_iff in H as (Hc & Ht).
  cbn [append split_colon]. now rewrite Hc, (IH Ht).
Qed.

Lemma split_colon_none e : has_colon e = false -> split_colon e = None.
Proof.
  induction e as [|c e IH]; intros H; [reflexivity|].
  cbn [has_colon] in H. apply orb_false_iff in H as (Hc & Ht).
  cbn [split_colon]. now rewrite Hc, (IH Ht).
Qed.

Lemma split_colon_some e :
  forall ty name,
    split_colon e = Some (ty, name) ->
    e = ty ++ ":" ++ name /\ has_colon ty = false.
Proof.
  induction e as [|c e IH]; intros ty name H; [discriminate|].
  cbn [split_colon] in H. destruct (Ascii.eqb c ":") eqn:Ec.
  - apply Ascii.eqb_eq in Ec. subst c. injection H as <- <-. split; reflexivity.
  - destruct (split_colon e) as [[a b]|]; [|discriminate].
    injection H as <- <-. destruct (IH _ _ eq_refl) as (-> & Ha).
    split; [reflexivity|]. cbn [has_colon]. now rewrite Ec, Ha.
Qed.

(** X19.  The entity name is cut at its first colon: what stands before is
    the entity type and may hold no colon, what stands after is the name
    and may hold more; putting them together with a colon gives the
    argument back.  A name without a colon is the name of a tool. *)
Theorem call_entity_is_cut_at_first_colon k :
  (forall ty name,
      has_colon ty = false -> entity_of k (ty ++ ":" ++ name) = (ty, name))
  /\ (forall e, has_colon e = false -> entity_of k e = (EntityTypeTool k, e))
  /\ (forall e,
         has_colon e = true ->
         e = fst (entity_of k e) ++ ":" ++ snd (entity_of k e)
         /\ has_colon (fst (entity_of k e)) = false).
Proof.
  split; [|split].
  - intros ty name H. unfold entity_of. now rewrite (split_colon_joins _ _ H).
  - intros e H. unfold entity_of. now rewrite (split_colon_none _ H).
  - intros e H. unfold entity_of.
    destruct (split_colon e) as [[ty name]|] eqn:E.
    + exact (split_colon_some _ _ _ E).
    + exfalso. clear k. induction e as [|c e IH]; [discriminate|].
      cbn [split_colon has_colon] in *.
      destruct (Ascii.eqb c ":"); [discriminate|].
      destruct (split_colon e) as [[a b]|]; [discriminate|].
      now apply IH.
Qed.
